(** * DaktLib-Core: memory allocators and binary buffers

    A shallow embedding of [dakt/core/Memory.hpp], [Memory.cpp],
    [dakt/core/Buffer.hpp] and [Buffer.cpp], with the properties the
    library's specification states about them.

    Conventions.
    - A [usize] ([std::size_t]) is an integer in [[0, 2^usize_bits)]; the
      width [usize_bits] is a parameter, and every C++ operation on
      [usize] is written with its wrap-around.
    - A pointer is its address, a [usize]; [nullptr] is address 0.
    - A [DAKT_ASSERT] that fails is the result [None] (the process aborts
      in a debug build and the behaviour is undefined in a release build).
    - [std::vector], [std::span] and the platform allocator are not part
      of the library; they are modelled after the C++ standard, each in
      one place, and the library code is written on top of them. *)

From stdpp Require Import base numbers option list gmap.
From Stdlib Require Import ZArith Lia.
From Stdlib.Strings Require Import Byte.

Local Open Scope Z_scope.

(** ** Machine words *)

Section Word.
Variable usize_bits : Z.

Definition usize_modulus : Z := 2 ^ usize_bits.
Definition usize_max : Z := usize_modulus - 1.
Definition is_usize (x : Z) : Prop := 0 <= x < usize_modulus.

Definition usize_wrap (x : Z) : Z := x mod usize_modulus.
Definition usize_add (a b : Z) : Z := usize_wrap (a + b).
Definition usize_sub (a b : Z) : Z := usize_wrap (a - b).
Definition usize_mul (a b : Z) : Z := usize_wrap (a * b).
Definition usize_not (a : Z) : Z := usize_wrap (Z.lnot a).
Definition usize_and (a b : Z) : Z := Z.land a b.

(** [isPowerOfTwo] is [std::has_single_bit]: exactly one bit is set. *)
Definition isPowerOfTwo (value : Z) : bool :=
  (0 <? value) && (Z.land value (value - 1) =? 0).

(** [alignUp(value, alignment)]:
    [DAKT_ASSERT(isPowerOfTwo(alignment));
     return (value + alignment - 1) & ~(alignment - 1);] *)
Definition alignUp (value alignment : Z) : option Z :=
  if isPowerOfTwo alignment
  then Some (usize_and (usize_sub (usize_add value alignment) 1)
                       (usize_not (usize_sub alignment 1)))
  else None.

(** [alignDown(value, alignment)]:
    [return value & ~(alignment - 1);] *)
Definition alignDown (value alignment : Z) : option Z :=
  if isPowerOfTwo alignment
  then Some (usize_and value (usize_not (usize_sub alignment 1)))
  else None.

(** [isAligned(ptr, alignment)]:
    [return (reinterpret_cast<usize>(ptr) & (alignment - 1)) == 0;] *)
Definition isAligned (ptr alignment : Z) : bool :=
  usize_and ptr (usize_sub alignment 1) =? 0.

(** [alignPtr(ptr, alignment)]:
    [return reinterpret_cast<void*>(alignUp(reinterpret_cast<usize>(ptr), alignment));] *)
Definition alignPtr (ptr alignment : Z) : option Z := alignUp ptr alignment.
End Word.

(** ** Raw memory *)

(** Byte-addressed memory: the bytes written so far, by address. *)
Abbreviation bytemem := (gmap Z byte).

(** The copy loop of [std::memcpy]: [n] bytes from [src] to [dest], a
    byte never written staying so at its destination. *)
Fixpoint copy_bytes (n : nat) (mem : bytemem) (dest src : Z) : bytemem :=
  match n with
  | O => mem
  | S n' =>
      copy_bytes n' (partial_alter (fun _ => mem !! src) dest mem)
        (dest + 1) (src + 1)
  end.

(** [std::memcpy(dest, src, n)] on raw memory; overlapping ranges are
    undefined: [None]. *)
Definition memcpy_raw (mem : bytemem) (dest src n : Z) : option bytemem :=
  if (0 <? n) && (dest <? src + n) && (src <? dest + n) then None
  else Some (copy_bytes (Z.to_nat n) mem dest src).

(** ** ArenaAllocator (Memory.cpp) *)

Module ArenaAllocator.

(** [byte* m_buffer; usize m_capacity; usize m_offset; bool m_ownsBuffer] *)
Record t : Type := mk {
  m_buffer : Z;
  m_capacity : Z;
  m_offset : Z;
  m_ownsBuffer : bool
}.

Definition capacity (a : t) : Z := m_capacity a.
Definition used (a : t) : Z := m_offset a.

Definition set_offset (a : t) (off : Z) : t :=
  mk (m_buffer a) (m_capacity a) off (m_ownsBuffer a).

Section Ops.
Variable usize_bits : Z.

(** [ArenaAllocator::allocate(size, alignment)].  The result is the
    returned pointer (0 for [nullptr]) and the arena afterwards. *)
Definition allocate (a : t) (size alignment : Z) : option (Z * t) :=
  if size =? 0 then Some (0, a)
  else
    alignedOffset ← alignUp usize_bits (m_offset a) alignment;
    if m_capacity a <? usize_add usize_bits alignedOffset size
    then Some (0, a)
    else Some (usize_add usize_bits (m_buffer a) alignedOffset,
               set_offset a (usize_add usize_bits alignedOffset size)).

(** [ArenaAllocator::deallocate]: no-op. *)
Definition deallocate (a : t) (ptr size : Z) : t := a.

(** [ArenaAllocator::reset]. *)
Definition reset (a : t) : t := set_offset a 0.

(** [remaining()]: [m_capacity - m_offset]. *)
Definition remaining (a : t) : Z :=
  usize_sub usize_bits (m_capacity a) (m_offset a).

(** [ArenaAllocator::reallocate(ptr, oldSize, newSize, alignment)] on
    the memory the blocks live in. *)
Definition reallocate (a : t) (mem : bytemem)
    (ptr oldSize newSize alignment : Z) : option (Z * t * bytemem) :=
  if newSize <=? oldSize then Some (ptr, a, mem)
  else
    '(newPtr, a') ← allocate a newSize alignment;
    if negb (newPtr =? 0) && negb (ptr =? 0)
    then mem' ← memcpy_raw mem newPtr ptr oldSize; Some (newPtr, a', mem')
    else Some (newPtr, a', mem).

End Ops.

(** [ArenaAllocator(usize capacity)], where [buffer] is what
    [std::malloc(capacity)] returned, and
    [ArenaAllocator(void* buffer, usize capacity)]. *)
Definition create_owning (buffer capacity : Z) : option t :=
  if buffer =? 0 then None else Some (mk buffer capacity 0 true).

Definition create_borrowing (buffer capacity : Z) : option t :=
  if buffer =? 0 then None else Some (mk buffer capacity 0 false).
End ArenaAllocator.

(** An arena of 16 bytes at address 4096 on a 64-bit machine, as the
    constructor leaves it, and a size close to [SIZE_MAX], [2^64 - 4]. *)
Definition arena_16 : ArenaAllocator.t := ArenaAllocator.mk 4096 16 0 true.
Definition size_near_max : Z := 18446744073709551612.

(** ** HeapAllocator (Memory.cpp) *)

(** The heap is the set of live blocks of the platform allocator: the
    address of each block and the bytes it holds. *)
Abbreviation heap := (gmap Z (list byte)).

(** [std::memcpy(dest, src, n)] between two live blocks: the first [n]
    bytes of the block at [dest] become the first [n] bytes of the block
    at [src].  Copying from or to a block that is not live, or past the
    end of either, is undefined: [None]. *)
Definition memcpy (h : heap) (dest src n : Z) : option heap :=
  d ← h !! dest;
  s ← h !! src;
  if (n <=? Z.of_nat (length d)) && (n <=? Z.of_nat (length s))
  then Some (<[dest := take (Z.to_nat n) s ++ drop (Z.to_nat n) d]> h)
  else None.

Module HeapAllocator.
Section Ops.
Variable usize_bits : Z.
(** Whether [DAKT_PLATFORM_WINDOWS] is defined. *)
Variable windows : bool.
(** The platform call [_aligned_malloc(size, alignment)] or
    [std::aligned_alloc(alignment, size)], as a function of the heap:
    [None] when it returns null, otherwise the address of the new block
    and the (indeterminate) bytes it holds. *)
Variable platform_alloc : heap -> Z -> Z -> option (Z * list byte).

(** [HeapAllocator::allocate(size, alignment)] without [DAKT_DEBUG]. *)
Definition allocate (h : heap) (size alignment : Z) : option (Z * heap) :=
  if size =? 0 then Some (0, h)
  else
    request ← (if windows then Some size else alignUp usize_bits size alignment);
    match platform_alloc h request alignment with
    | None => Some (0, h)
    | Some (ptr, bytes) => Some (ptr, <[ptr := bytes]> h)
    end.

(** [HeapAllocator::deallocate(ptr, size)] without [DAKT_DEBUG]. *)
Definition deallocate (h : heap) (ptr size : Z) : heap :=
  if ptr =? 0 then h else delete ptr h.

(** [HeapAllocator::reallocate(ptr, oldSize, newSize, alignment)]. *)
Definition reallocate (h : heap) (ptr oldSize newSize alignment : Z)
  : option (Z * heap) :=
  if newSize =? 0 then Some (0, deallocate h ptr oldSize)
  else if ptr =? 0 then allocate h newSize alignment
  else
    '(newPtr, h1) ← allocate h newSize alignment;
    if newPtr =? 0 then Some (newPtr, h1)
    else
      h2 ← memcpy h1 newPtr ptr (Z.min oldSize newSize);
      Some (newPtr, deallocate h2 ptr oldSize).

End Ops.
End HeapAllocator.

(** A platform allocator with memory to spare: every request is served at
    address 8192 with zeroed bytes. *)
Definition alloc_at_8192 (h : heap) (size alignment : Z)
  : option (Z * list byte) :=
  Some (8192, replicate (Z.to_nat size) "000"%byte).

(** A platform allocator that is out of memory. *)
Definition alloc_exhausted (h : heap) (size alignment : Z)
  : option (Z * list byte) := None.

Definition heap_one_block : heap :=
  {[ 4096 := ["001"; "002"; "003"; "004"]%byte ]}.

(** ** PoolAllocator (Memory.cpp) *)

Module PoolAllocator.

(** [byte* m_buffer; FreeBlock* m_freeList; usize m_blockSize;
    usize m_blockCount; usize m_freeCount], and the part of the pool's
    region the allocator itself reads and writes: [memory !! b] is the
    [next] field stored in the block at address [b]. *)
Record t : Type := mk {
  m_buffer : Z;
  m_freeList : Z;
  m_blockSize : Z;
  m_blockCount : Z;
  m_freeCount : Z;
  memory : gmap Z Z
}.

Definition blockSize (p : t) : Z := m_blockSize p.
Definition blockCount (p : t) : Z := m_blockCount p.
Definition freeCount (p : t) : Z := m_freeCount p.

Section Ops.
Variable usize_bits : Z.
(** [sizeof(FreeBlock)], the size of one pointer. *)
Variable sizeof_FreeBlock : Z.

(** [m_buffer + i * m_blockSize] *)
Definition block_address (buffer blockSize i : Z) : Z :=
  usize_add usize_bits buffer (usize_mul usize_bits i blockSize).

(** The constructor's loop
    [for (usize i = 0; i < m_blockCount; ++i)
       { block->next = m_freeList; m_freeList = block; }],
    with [n] iterations left to run from index [i]. *)
Fixpoint init_free_list (buffer blockSize : Z) (n : nat) (i : Z)
    (mem : gmap Z Z) (freeList : Z) : gmap Z Z * Z :=
  match n with
  | O => (mem, freeList)
  | S n' =>
      let block := block_address buffer blockSize i in
      init_free_list buffer blockSize n' (i + 1) (<[block := freeList]> mem) block
  end.

(** [PoolAllocator::PoolAllocator(blockSize, blockCount)], where [buffer]
    is what [std::malloc(m_blockSize * m_blockCount)] returned. *)
Definition create (buffer blockSize blockCount : Z) : option t :=
  let bs := Z.max blockSize sizeof_FreeBlock in
  if buffer =? 0 then None
  else
    let '(mem, freeList) :=
      init_free_list buffer bs (Z.to_nat blockCount) 0 ∅ 0 in
    Some (mk buffer freeList bs blockCount blockCount mem).

(** [PoolAllocator::allocate(size, alignment)]. *)
Definition allocate (p : t) (size alignment : Z) : option (Z * t) :=
  if (m_blockSize p <? size) || (m_freeList p =? 0) then Some (0, p)
  else
    let block := m_freeList p in
    next ← memory p !! block;
    Some (block,
          mk (m_buffer p) next (m_blockSize p) (m_blockCount p)
             (usize_sub usize_bits (m_freeCount p) 1) (memory p)).

(** [PoolAllocator::deallocate(ptr, size)]. *)
Definition deallocate (p : t) (ptr size : Z) : option t :=
  if ptr =? 0 then Some p
  else if (m_buffer p <=? ptr)
          && (ptr <? usize_add usize_bits (m_buffer p)
                       (usize_mul usize_bits (m_blockSize p) (m_blockCount p)))
  then Some (mk (m_buffer p) ptr (m_blockSize p) (m_blockCount p)
                (usize_add usize_bits (m_freeCount p) 1)
                (<[ptr := m_freeList p]> (memory p)))
  else None.

(** [PoolAllocator::reallocate(ptr, oldSize, newSize, alignment)]. *)
Definition reallocate (p : t) (ptr oldSize newSize alignment : Z) : Z :=
  if m_blockSize p <? newSize then 0 else ptr.

(** The owner of an allocated block stores [v] in its first word. *)
Definition store (p : t) (ptr v : Z) : t :=
  mk (m_buffer p) (m_freeList p) (m_blockSize p) (m_blockCount p)
     (m_freeCount p) (<[ptr := v]> (memory p)).

(** A pool together with the set of blocks handed out and not yet given
    back, as reached by a constructor call followed by [allocate] calls,
    [deallocate] calls on null or on blocks currently allocated, and
    writes of the owners into their blocks. *)
Inductive run : t -> gset Z -> Prop :=
| run_create buffer blockSize blockCount p :
    0 < buffer -> is_usize usize_bits blockSize ->
    is_usize usize_bits blockCount -> 0 < sizeof_FreeBlock ->
    buffer + Z.max blockSize sizeof_FreeBlock * blockCount
      < usize_modulus usize_bits ->
    create buffer blockSize blockCount = Some p ->
    run p ∅
| run_allocate p A size alignment ptr p' :
    run p A ->
    allocate p size alignment = Some (ptr, p') ->
    run p' (if decide (ptr = 0) then A else {[ptr]} ∪ A)
| run_deallocate p A ptr size p' :
    run p A -> ptr ∈ A ->
    deallocate p ptr size = Some p' ->
    run p' (A ∖ {[ptr]})
| run_deallocate_null p A size p' :
    run p A ->
    deallocate p 0 size = Some p' ->
    run p' A
| run_store p A ptr v :
    run p A -> ptr ∈ A ->
    run (store p ptr v) A.

End Ops.
End PoolAllocator.

(** A pool of two 16-byte blocks at address 4096 on a 64-bit machine,
    as the constructor leaves it, and after one [allocate]. *)
Definition pool_two_blocks : PoolAllocator.t :=
  PoolAllocator.mk 4096 4112 16 2 2 (<[4112 := 4096]> (<[4096 := 0]> ∅)).

Definition pool_one_taken : PoolAllocator.t :=
  PoolAllocator.mk 4096 4096 16 2 1 (<[4112 := 4096]> (<[4096 := 0]> ∅)).

(** ** Bytes and object representations *)

Definition byte_to_Z (b : byte) : Z := Z.of_N (Byte.to_N b).

Definition Z_to_byte (z : Z) : byte :=
  default "000"%byte (Byte.of_N (Z.to_N (z mod 256))).

Definition byte_is_zero (b : byte) : bool := byte_to_Z b =? 0.

(** The [n] low bytes of [v], least significant first, and back. *)
Fixpoint le_bytes (n : nat) (v : Z) : list byte :=
  match n with
  | O => []
  | S n' => Z_to_byte v :: le_bytes n' (Z.shiftr v 8)
  end.

Fixpoint le_value (l : list byte) : Z :=
  match l with
  | [] => 0
  | b :: t => Z.lor (byte_to_Z b) (Z.shiftl (le_value t) 8)
  end.

(** A [TriviallyCopyable] type: its [sizeof], and what [std::memcpy]
    between an object and [sizeof] bytes does. *)
Class TriviallyCopyable (T : Type) : Type := {
  sizeof : Z;
  to_bytes : T -> list byte;
  from_bytes : list byte -> T
}.

Section Endian.
(** Whether [std::endian::native == std::endian::big]. *)
Variable native_big : bool.

(** [u32] in memory on this machine. *)
Definition u32_to_bytes (v : Z) : list byte :=
  if native_big then reverse (le_bytes 4 v) else le_bytes 4 v.

Definition u32_from_bytes (l : list byte) : Z :=
  le_value (if native_big then reverse l else l).

Definition u32_copyable : TriviallyCopyable Z :=
  {| sizeof := 4; to_bytes := u32_to_bytes; from_bytes := u32_from_bytes |}.

(** [std::byteswap] on a [u32]. *)
Definition byteSwap32 (v : Z) : Z := le_value (reverse (le_bytes 4 v)).

(** [toLittleEndian] and [fromLittleEndian] on a [u32]. *)
Definition toLittleEndian32 (v : Z) : Z :=
  if native_big then byteSwap32 v else v.

Definition fromLittleEndian32 (v : Z) : Z := toLittleEndian32 v.

(** [toBigEndian] and [fromBigEndian] on a [u32]. *)
Definition toBigEndian32 (v : Z) : Z :=
  if native_big then v else byteSwap32 v.

Definition fromBigEndian32 (v : Z) : Z := toBigEndian32 v.
End Endian.

(** [static_cast<u32>] of a [usize]. *)
Definition to_u32 (x : Z) : Z := x mod 2 ^ 32.

(** ** std::vector<std::byte> *)

(** The vector owns [capacity] bytes of storage, of which the first
    [size] are its elements; the rest is raw memory.  Modelled after the
    C++ standard ([vector.capacity]): [reserve(n)] beyond the capacity
    moves the elements to new storage, and [resize(n)] beyond the size
    appends [n - size()] value-initialized elements, which for [std::byte]
    are zero, whatever the raw memory held.  New storage is taken to have
    exactly the capacity asked for. *)
Module StdVector.

Record t : Type := mk {
  storage : list byte;
  size : Z
}.

Definition capacity (v : t) : Z := Z.of_nat (length (storage v)).
Definition elements (v : t) : list byte := take (Z.to_nat (size v)) (storage v).
Definition empty : t := mk [] 0.

(** A vector holding a copy of [l]. *)
Definition of_list (l : list byte) : t := mk l (Z.of_nat (length l)).

Section Ops.
(** The byte new raw storage happens to hold. *)
Variable uninit : byte.

Definition reserve (v : t) (n : Z) : t :=
  if capacity v <? n
  then mk (elements v ++ replicate (Z.to_nat (n - size v)) uninit) (size v)
  else v.

Definition resize (v : t) (n : Z) : t :=
  if n <=? size v then mk (storage v) n
  else
    let v' := reserve v n in
    mk (elements v'
        ++ replicate (Z.to_nat (n - size v)) "000"%byte
        ++ drop (Z.to_nat n) (storage v'))
       n.
End Ops.

(** [std::memcpy(data() + pos, src, length src)] into the storage.
    Writing past the end of the storage is undefined: [None]. *)
Definition store (v : t) (pos : Z) (src : list byte) : option t :=
  if pos + Z.of_nat (length src) <=? capacity v
  then Some (mk (take (Z.to_nat pos) (storage v)
                 ++ src
                 ++ drop (Z.to_nat pos + length src) (storage v))
                (size v))
  else None.

End StdVector.

(** ** std::span<std::byte> *)

(** A span over a buffer: the index of its first byte in the buffer, and
    its length.  [Types.hpp] declares [Span] as [std::span], so
    [subspan] is [std::span::subspan], modelled after the C++ standard
    ([span.sub]): the call requires
    [offset <= size() && (count == dynamic_extent || count <= size() - offset)]
    and its behaviour is undefined otherwise ([None]). *)
Module StdSpan.

Record t : Type := mk {
  first : Z;
  size : Z
}.

Section Ops.
Variable usize_bits : Z.

Definition dynamic_extent : Z := usize_max usize_bits.

Definition subspan (s : t) (offset count : Z) : option t :=
  if (offset <=? size s)
     && ((count =? dynamic_extent) || (count <=? size s - offset))
  then Some (mk (first s + offset)
                (if count =? dynamic_extent then size s - offset else count))
  else None.
End Ops.

(** The bytes of [data] a span views. *)
Definition view (data : list byte) (s : t) : list byte :=
  take (Z.to_nat (size s)) (drop (Z.to_nat (first s)) data).

End StdSpan.

(** ** Span<T> of types/Span.hpp *)

Module Span.

Record t : Type := mk {
  data_ : Z;
  size_ : Z
}.

Section Ops.
Variable usize_bits : Z.

Definition npos : Z := usize_max usize_bits.

(** [Span::subspan(offset, count)]. *)
Definition subspan (s : t) (offset count : Z) : t :=
  if size_ s <? offset then mk 0 0
  else
    let remaining := usize_sub usize_bits (size_ s) offset in
    let clamped :=
      if count =? npos then remaining
      else if remaining <? count then remaining else count in
    mk (usize_add usize_bits (data_ s) offset) clamped.
End Ops.

End Span.

(** ** Buffer (Buffer.hpp, Buffer.cpp) *)

Module Buffer.

(** [std::vector<byte> m_data] *)
Record t : Type := mk { m_data : StdVector.t }.

Definition size (b : t) : Z := StdVector.size (m_data b).
Definition capacity (b : t) : Z := StdVector.capacity (m_data b).
Definition bytes (b : t) : list byte := StdVector.elements (m_data b).

(** [Buffer()] and [Buffer(ConstByteSpan span)]. *)
Definition empty : t := mk StdVector.empty.
Definition of_bytes (l : list byte) : t := mk (StdVector.of_list l).

(** [Buffer::span()]. *)
Definition span (b : t) : StdSpan.t := StdSpan.mk 0 (size b).

Section Ops.
Variable usize_bits : Z.
Variable uninit : byte.

Definition resize (b : t) (newSize : Z) : t :=
  mk (StdVector.resize uninit (m_data b) newSize).

Definition reserve (b : t) (newCapacity : Z) : t :=
  mk (StdVector.reserve uninit (m_data b) newCapacity).

(** [Buffer::subspan(offset, count)]:
    [return ConstByteSpan(m_data).subspan(offset, count);] *)
Definition subspan (b : t) (offset count : Z) : option StdSpan.t :=
  StdSpan.subspan usize_bits (span b) offset count.
End Ops.

End Buffer.

(** ** BufferReader (Buffer.hpp, Buffer.cpp) *)

Module BufferReader.

(** [ConstByteSpan m_data; usize m_pos], with the span given by the bytes
    it views. *)
Record t : Type := mk {
  m_data : list byte;
  m_pos : Z
}.

(** [BufferReader(ConstByteSpan data)]. *)
Definition create (data : list byte) : t := mk data 0.

Definition position (r : t) : Z := m_pos r.
Definition size (r : t) : Z := Z.of_nat (length (m_data r)).
Definition eof (r : t) : bool := size r <=? m_pos r.
Definition set_pos (r : t) (pos : Z) : t := mk (m_data r) pos.

(** [rewind()]. *)
Definition rewind (r : t) : t := set_pos r 0.

(** The [n] bytes at [m_data.data() + pos]. *)
Definition bytes_at (r : t) (pos n : Z) : list byte :=
  take (Z.to_nat n) (drop (Z.to_nat pos) (m_data r)).

(** [m_data[pos]], for [pos] in range. *)
Definition byte_at (r : t) (pos : Z) : option byte :=
  m_data r !! Z.to_nat pos.

Section Ops.
Variable usize_bits : Z.
Variable native_big : bool.

Definition remaining (r : t) : Z := usize_sub usize_bits (size r) (m_pos r).

Definition seek (r : t) (pos : Z) : t := set_pos r (Z.min pos (size r)).

Definition skip (r : t) (count : Z) : t :=
  set_pos r (Z.min (usize_add usize_bits (m_pos r) count) (size r)).

(** [template <TriviallyCopyable T> Option<T> read()]. *)
Definition read {T : Type} `{TriviallyCopyable T} (r : t) : option T * t :=
  if remaining r <? sizeof then (None, r)
  else (Some (from_bytes (bytes_at r (m_pos r) sizeof)),
        set_pos r (usize_add usize_bits (m_pos r) sizeof)).

(** [peek<T>()]. *)
Definition peek {T : Type} `{TriviallyCopyable T} (r : t) : option T :=
  if remaining r <? sizeof then None
  else Some (from_bytes (bytes_at r (m_pos r) sizeof)).

(** [readLE<u32>()], which is [readU32()]. *)
Definition readU32 (r : t) : option Z * t :=
  match read (H := u32_copyable native_big) r with
  | (Some result, r') => (Some (fromLittleEndian32 native_big result), r')
  | (None, r') => (None, r')
  end.

(** [readBE<u32>()], which is [readU32BE()]. *)
Definition readU32BE (r : t) : option Z * t :=
  match read (H := u32_copyable native_big) r with
  | (Some result, r') => (Some (fromBigEndian32 native_big result), r')
  | (None, r') => (None, r')
  end.

(** [readString(length)]. *)
Definition readString (r : t) (length : Z) : option (list byte) * t :=
  if remaining r <? length then (None, r)
  else (Some (bytes_at r (m_pos r) length),
        set_pos r (usize_add usize_bits (m_pos r) length)).

(** The loop [while (m_pos < limit && m_data[m_pos] != byte{0}) ++m_pos;]
    run for at most [fuel] iterations; the result is [m_pos] afterwards. *)
Fixpoint scan (fuel : nat) (r : t) (pos limit : Z) : Z :=
  match fuel with
  | O => pos
  | S fuel' =>
      if (pos <? limit)
         && match byte_at r pos with
            | Some b => negb (byte_is_zero b)
            | None => false
            end
      then scan fuel' r (usize_add usize_bits pos 1) limit
      else pos
  end.

(** The loop leaves when [m_pos] reaches [limit] at the latest, so
    [limit - pos] iterations are all it can take. *)
Definition scan_fuel (pos limit : Z) : nat := Z.to_nat (limit - pos).

(** [readNullTerminatedString()]. *)
Definition readNullTerminatedString (r : t) : option (list byte) * t :=
  let start := m_pos r in
  let pos := scan (scan_fuel start (size r)) r start (size r) in
  if size r <=? pos then (None, set_pos r start)
  else (Some (bytes_at r start (usize_sub usize_bits pos start)),
        set_pos r (usize_add usize_bits pos 1)).

(** [readNullTerminatedString(maxLength)]. *)
Definition readNullTerminatedStringMax (r : t) (maxLength : Z)
  : option (list byte) * t :=
  let start := m_pos r in
  let limit := Z.min (usize_add usize_bits (m_pos r) maxLength) (size r) in
  let pos := scan (scan_fuel start limit) r start limit in
  let result := bytes_at r start (usize_sub usize_bits pos start) in
  if (pos <? size r)
     && match byte_at r pos with
        | Some b => byte_is_zero b
        | None => false
        end
  then (Some result, set_pos r (usize_add usize_bits pos 1))
  else (Some result, set_pos r pos).

(** [readLengthPrefixedString()]: [auto len = read<u32>();], then [none]
    if [len] is empty and [readString] of the length read otherwise. *)
Definition readLengthPrefixedString (r : t) : option (list byte) * t :=
  match read (H := u32_copyable native_big) r with
  | (None, r') => (None, r')
  | (Some len, r') => readString r' (usize_wrap usize_bits len)
  end.

End Ops.
End BufferReader.

(** ** BufferWriter (Buffer.hpp, Buffer.cpp) *)

Module BufferWriter.

(** [m_buffer] names the buffer written to, the writer's own
    [m_ownedBuffer] or the caller's: [target] is that buffer and [owned]
    tells which it is. *)
Record t : Type := mk {
  target : Buffer.t;
  owned : bool;
  m_pos : Z
}.

(** [BufferWriter()] and [BufferWriter(Buffer& buffer)]. *)
Definition create : t := mk Buffer.empty true 0.
Definition create_on (buffer : Buffer.t) : t :=
  mk buffer false (Buffer.size buffer).

Definition position (w : t) : Z := m_pos w.
Definition size (w : t) : Z := Buffer.size (target w).
Definition seek (w : t) (pos : Z) : t := mk (target w) (owned w) pos.

Section Ops.
Variable usize_bits : Z.
Variable native_big : bool.
Variable uninit : byte.

(** [ensureCapacity(minCapacity)]. *)
Definition ensureCapacity (w : t) (minCapacity : Z) : t :=
  if Buffer.capacity (target w) <? minCapacity
  then mk (Buffer.reserve uninit (target w)
             (Z.max minCapacity
                (usize_mul usize_bits (Buffer.capacity (target w)) 2)))
          (owned w) (m_pos w)
  else w.

(** [updateSize()]. *)
Definition updateSize (w : t) : t :=
  if Buffer.size (target w) <? m_pos w
  then mk (Buffer.resize uninit (target w) (m_pos w)) (owned w) (m_pos w)
  else w.

(** [write(const void* data, usize size)], and the body of
    [write(T value)] on the [sizeof(T)] bytes of [value]:
    [ensureCapacity(m_pos + size); std::memcpy(dataPtr() + m_pos, data, size);
     m_pos += size; updateSize();] *)
Definition write_raw (w : t) (data : list byte) : option t :=
  let size := Z.of_nat (length data) in
  let w1 := ensureCapacity w (usize_add usize_bits (m_pos w) size) in
  v ← StdVector.store (Buffer.m_data (target w1)) (m_pos w1) data;
  Some (updateSize (mk (Buffer.mk v) (owned w1)
                       (usize_add usize_bits (m_pos w1) size))).

(** [template <TriviallyCopyable T> void write(T value)]. *)
Definition write {T : Type} `{TriviallyCopyable T} (w : t) (value : T)
  : option t :=
  write_raw w (to_bytes value).

(** [writeLE<u32>(value)], which is [writeU32(value)]. *)
Definition writeU32 (w : t) (value : Z) : option t :=
  write (H := u32_copyable native_big) w (toLittleEndian32 native_big value).

(** [writeBE<u32>(value)], which is [writeU32BE(value)]. *)
Definition writeU32BE (w : t) (value : Z) : option t :=
  write (H := u32_copyable native_big) w (toBigEndian32 native_big value).

(** [writeString(str)]. *)
Definition writeString (w : t) (str : list byte) : option t :=
  write_raw w str.

(** [writeLengthPrefixedString(str)]:
    [write<u32>(static_cast<u32>(str.size())); write(str.data(), str.size());] *)
Definition writeLengthPrefixedString (w : t) (str : list byte) : option t :=
  w1 ← write (H := u32_copyable native_big) w (to_u32 (Z.of_nat (length str)));
  write_raw w1 str.

(** [writeNullTerminatedString(str)]:
    [write(str.data(), str.size()); write<byte>(byte{0});] *)
Definition writeNullTerminatedString (w : t) (str : list byte) : option t :=
  w1 ← write_raw w str;
  write_raw w1 ["000"%byte].

(** [skip(count)]: [m_pos += count; ensureCapacity(m_pos); updateSize();] *)
Definition skip (w : t) (count : Z) : t :=
  let w1 := mk (target w) (owned w) (usize_add usize_bits (m_pos w) count) in
  updateSize (ensureCapacity w1 (m_pos w1)).



(** [toBuffer()]: the owned buffer moved out, or a copy of the bytes of
    the caller's buffer. *)
Definition toBuffer (w : t) : Buffer.t :=
  if owned w then target w else Buffer.of_bytes (Buffer.bytes (target w)).

End Ops.
End BufferWriter.

(** ** The end-to-end scenario *)

Section Scenario.
Variable usize_bits : Z.
Variable native_big : bool.
Variable uninit : byte.

(** [BufferWriter w; w.writeU32(v); w.writeLengthPrefixedString(s);
     auto buf = w.toBuffer(); BufferReader r(buf.span());]
    followed by [r.readU32()], [r.readLengthPrefixedString()] and
    [r.eof()], whose three results are returned. *)
Definition write_then_read (v : Z) (s : list byte)
  : option (option Z * option (list byte) * bool) :=
  w1 ← BufferWriter.writeU32 usize_bits native_big uninit BufferWriter.create v;
  w2 ← BufferWriter.writeLengthPrefixedString usize_bits native_big uninit w1 s;
  let buf := BufferWriter.toBuffer w2 in
  let r := BufferReader.create (StdSpan.view (Buffer.bytes buf) (Buffer.span buf)) in
  let '(a, r1) := BufferReader.readU32 usize_bits native_big r in
  let '(b, r2) := BufferReader.readLengthPrefixedString usize_bits native_big r1 in
  Some (a, b, BufferReader.eof r2).
End Scenario.

(** ** Sample data *)

Definition bytes_abcdefghij : list byte :=
  ["a"; "b"; "c"; "d"; "e"; "f"; "g"; "h"; "i"; "j"]%byte.

Definition bytes_abcde_0_ghij : list byte :=
  ["a"; "b"; "c"; "d"; "e"; "000"; "g"; "h"; "i"; "j"]%byte.

Definition bytes_deadbeef : list byte := ["239"; "190"; "173"; "222"]%byte.

(** The length prefix 5 followed by two bytes only. *)
Definition bytes_short_string : list byte :=
  ["005"; "000"; "000"; "000"; "a"; "b"]%byte.

Definition bytes_ok : list byte := ["o"; "k"]%byte.
Definition bytes_hello : list byte := ["h"; "e"; "l"; "l"; "o"]%byte.

(** A writer on a caller's buffer of ten bytes, moved back to index 2. *)
Definition writer_on_abcdefghij : BufferWriter.t :=
  BufferWriter.mk (Buffer.of_bytes bytes_abcdefghij) false 2.

(** ** Predicates of the specification *)

(** [is_chain mem head l]: following [next] fields from [head] visits
    exactly the blocks of [l], in order, and ends at null. *)
Fixpoint is_chain (mem : gmap Z Z) (head : Z) (l : list Z) : Prop :=
  match l with
  | [] => head = 0
  | b :: l' =>
      head = b /\ b <> 0 /\
      exists next, mem !! b = Some next /\ is_chain mem next l'
  end.

(** The blocks [i, i + n) of a region at [buffer]. *)
Fixpoint block_list (buffer blockSize : Z) (n : nat) (i : Z) : list Z :=
  match n with
  | O => []
  | S n' => (buffer + i * blockSize) :: block_list buffer blockSize n' (i + 1)
  end.

Section PoolInvariant.
Variable usize_bits : Z.

(** The representation invariant of a pool [p] whose blocks [A] are
    allocated: the free list is a null-terminated chain of [m_freeCount]
    distinct blocks of the region, none of them allocated, and free and
    allocated blocks together number [m_blockCount]. *)
Record pool_inv (p : PoolAllocator.t) (A : gset Z) (l : list Z) : Prop := {
  inv_count_usize : is_usize usize_bits (PoolAllocator.m_blockCount p);
  inv_buffer : 0 < PoolAllocator.m_buffer p;
  inv_blockSize : 0 < PoolAllocator.m_blockSize p;
  inv_region :
    PoolAllocator.m_buffer p
    + PoolAllocator.m_blockSize p * PoolAllocator.m_blockCount p
    < usize_modulus usize_bits;
  inv_chain : is_chain (PoolAllocator.memory p) (PoolAllocator.m_freeList p) l;
  inv_nodup : NoDup l;
  inv_free : Z.of_nat (length l) = PoolAllocator.m_freeCount p;
  inv_total :
    Z.of_nat (length l) + Z.of_nat (size A) = PoolAllocator.m_blockCount p;
  inv_disjoint : forall b, b ∈ l -> b ∉ A;
  inv_blocks : forall b, b ∈ l \/ b ∈ A ->
    exists j, 0 <= j < PoolAllocator.m_blockCount p /\
      b = PoolAllocator.m_buffer p + j * PoolAllocator.m_blockSize p
}.
End PoolInvariant.

Section ReaderInvariant.
Variable usize_bits : Z.

(** The reader's invariant [0 <= pos <= data.size()], for data whose size
    is a [usize]. *)
Definition reader_wf (r : BufferReader.t) : Prop :=
  0 <= BufferReader.m_pos r <= BufferReader.size r /\
  BufferReader.size r < usize_modulus usize_bits.
End ReaderInvariant.

(** The byte at index [i] of the reader's data is zero. *)
Definition zero_at (r : BufferReader.t) (i : Z) : Prop :=
  exists b, BufferReader.byte_at r i = Some b /\ byte_is_zero b = true.

(** No zero byte at the indices [lo, hi). *)
Definition no_zero_in (r : BufferReader.t) (lo hi : Z) : Prop :=
  forall i, lo <= i < hi -> ~ zero_at r i.

(** Whether the byte at [i] exists and is zero. *)
Definition zero_atb (r : BufferReader.t) (i : Z) : bool :=
  (i <? BufferReader.size r)
  && match BufferReader.byte_at r i with
     | Some b => byte_is_zero b
     | None => false
     end.

(** The vector invariant of a buffer: [0 <= size() <= capacity()]. *)
Definition buffer_wf (b : Buffer.t) : Prop :=
  0 <= Buffer.size b <= Buffer.capacity b.

Definition vector_wf (v : StdVector.t) : Prop :=
  0 <= StdVector.size v <= StdVector.capacity v.

(** A writer positioned at the end of a well-formed buffer, as
    [BufferWriter()] and [BufferWriter(Buffer&)] leave it. *)
Definition writer_at_end (w : BufferWriter.t) : Prop :=
  buffer_wf (BufferWriter.target w) /\
  BufferWriter.m_pos w = Buffer.size (BufferWriter.target w).

(** ** Predicates on arenas *)

(** Granted ranges [(ptr, size)], newest first, none overlapping an
    older one. *)
Fixpoint disjoint_ranges (l : list (Z * Z)) : Prop :=
  match l with
  | [] => True
  | r :: l' =>
      Forall (fun o => o.1 + o.2 <= r.1 \/ r.1 + r.2 <= o.1) l'
      /\ disjoint_ranges l'
  end.

Section ArenaRuns.
Variable usize_bits : Z.

(** An arena whose region lies in the address space and spans at most
    half of it, with the offset inside the capacity. *)
Definition arena_wf (a : ArenaAllocator.t) : Prop :=
  0 < ArenaAllocator.m_buffer a /\
  0 <= ArenaAllocator.m_offset a <= ArenaAllocator.m_capacity a /\
  ArenaAllocator.m_capacity a <= 2 ^ (usize_bits - 1) /\
  ArenaAllocator.m_buffer a + ArenaAllocator.m_capacity a
    < usize_modulus usize_bits.

(** An arena together with the ranges granted since the last [reset],
    as reached from a constructor by [allocate] calls for less than half
    the address space, [deallocate] calls and [reset] calls. *)
Inductive arena_run : ArenaAllocator.t -> list (Z * Z) -> Prop :=
| arena_run_create a :
    arena_wf a -> ArenaAllocator.m_offset a = 0 ->
    arena_run a []
| arena_run_allocate a granted size alignment ptr a' :
    arena_run a granted ->
    0 <= size < 2 ^ (usize_bits - 1) ->
    is_usize usize_bits alignment ->
    ArenaAllocator.allocate usize_bits a size alignment = Some (ptr, a') ->
    arena_run a' (if decide (ptr = 0) then granted else (ptr, size) :: granted)
| arena_run_deallocate a granted ptr size :
    arena_run a granted ->
    arena_run (ArenaAllocator.deallocate a ptr size) granted
| arena_run_reset a granted :
    arena_run a granted ->
    arena_run (ArenaAllocator.reset a) [].
End ArenaRuns.

(** ** Repeated pool allocation *)

Section PoolRepeat.
Variable usize_bits : Z.

(** [n] calls of [allocate(size, alignment)] in a row, stopping at the
    first null; the pointers come in the order returned. *)
Fixpoint pool_allocate_n (n : nat) (p : PoolAllocator.t) (size alignment : Z)
  : option (list Z * PoolAllocator.t) :=
  match n with
  | O => Some ([], p)
  | S n' =>
      '(ptr, p1) ← PoolAllocator.allocate usize_bits p size alignment;
      if ptr =? 0 then Some ([], p1)
      else
        '(ptrs, p2) ← pool_allocate_n n' p1 size alignment;
        Some (ptr :: ptrs, p2)
  end.
End PoolRepeat.

(** ** Sequences of reader calls *)

(** The calls of [BufferReader] that move the position. *)
Inductive reader_op : Type :=
| op_seek (pos : Z)
| op_skip (count : Z)
| op_rewind
| op_readU32
| op_readString (length : Z)
| op_readNullTerminatedString
| op_readNullTerminatedStringMax (maxLength : Z)
| op_readLengthPrefixedString.

(** The arguments are [usize] values. *)
Definition reader_op_ok (op : reader_op) : Prop :=
  match op with
  | op_seek pos => 0 <= pos
  | op_skip count => 0 <= count
  | op_readString length => 0 <= length
  | op_readNullTerminatedStringMax maxLength => 0 <= maxLength
  | _ => True
  end.

Section ReaderRuns.
Variable usize_bits : Z.
Variable native_big : bool.

(** The reader after one call, whatever the call returned. *)
Definition reader_step (r : BufferReader.t) (op : reader_op) : BufferReader.t :=
  match op with
  | op_seek pos => BufferReader.seek r pos
  | op_skip count => BufferReader.skip usize_bits r count
  | op_rewind => BufferReader.rewind r
  | op_readU32 => (BufferReader.readU32 usize_bits native_big r).2
  | op_readString length => (BufferReader.readString usize_bits r length).2
  | op_readNullTerminatedString =>
      (BufferReader.readNullTerminatedString usize_bits r).2
  | op_readNullTerminatedStringMax maxLength =>
      (BufferReader.readNullTerminatedStringMax usize_bits r maxLength).2
  | op_readLengthPrefixedString =>
      (BufferReader.readLengthPrefixedString usize_bits native_big r).2
  end.

Definition reader_steps (r : BufferReader.t) (ops : list reader_op)
  : BufferReader.t :=
  foldl reader_step r ops.
End ReaderRuns.

(** A [u32] from its four bytes, lowest address first, read as a
    big-endian number. *)
Definition be_value (l : list byte) : Z := le_value (reverse l).

(** Calls made on a reader, some of them bound to fail. *)
Definition reader_calls : list reader_op :=
  [op_readU32; op_skip 3; op_readString 20; op_readNullTerminatedString;
   op_seek 100; op_readLengthPrefixedString; op_rewind;
   op_readNullTerminatedStringMax 4].

(** * Properties *)

(** Closed arithmetic goals, by evaluation. *)
Ltac by_compute :=
  repeat split; vm_compute; first [reflexivity | intro; discriminate].

(** ** Facts on machine words *)

Lemma isPowerOfTwo_pow2 (k : Z) : 0 <= k -> isPowerOfTwo (2 ^ k) = true.
Proof.
  intros Hk. unfold isPowerOfTwo.
  assert (0 < 2 ^ k) by (apply Z.pow_pos_nonneg; lia).
  apply andb_true_intro; split; [apply Z.ltb_lt; lia|].
  apply Z.eqb_eq.
  replace (2 ^ k - 1) with (Z.ones k) by (rewrite Z.ones_equiv; lia).
  rewrite Z.land_ones by lia. apply Z.mod_same; lia.
Qed.

Lemma isPowerOfTwo_inv (x : Z) :
  isPowerOfTwo x = true -> exists k, 0 <= k /\ x = 2 ^ k.
Proof.
  unfold isPowerOfTwo. intros H.
  apply andb_prop in H as [Hpos Hland].
  apply Z.ltb_lt in Hpos. apply Z.eqb_eq in Hland.
  exists (Z.log2 x). split; [apply Z.log2_nonneg|].
  destruct (Z.log2_spec x Hpos) as [Hlo Hhi].
  destruct (Z.eq_dec x (2 ^ Z.log2 x)) as [|Hne]; [assumption|exfalso].
  assert (Hpos' : 0 < x - 1).
  { assert (0 < 2 ^ Z.log2 x) by (apply Z.pow_pos_nonneg; [lia|apply Z.log2_nonneg]). lia. }
  assert (Hlog : Z.log2 (x - 1) = Z.log2 x).
  { apply Z.log2_unique; [apply Z.log2_nonneg|].
    lia. }
  pose proof (Z.bit_log2 x Hpos) as Hb1.
  pose proof (Z.bit_log2 (x - 1) Hpos') as Hb2.
  rewrite Hlog in Hb2.
  assert (Hb : Z.testbit (Z.land x (x - 1)) (Z.log2 x) = true)
    by (rewrite Z.land_spec, Hb1, Hb2; reflexivity).
  rewrite Hland, Z.bits_0 in Hb. discriminate.
Qed.

Lemma isPowerOfTwo_spec (x : Z) :
  isPowerOfTwo x = true <-> exists k, 0 <= k /\ x = 2 ^ k.
Proof.
  split; [apply isPowerOfTwo_inv|].
  intros (k & Hk & ->). by apply isPowerOfTwo_pow2.
Qed.

Section WordFacts.
Variable usize_bits : Z.
Hypothesis usize_bits_nonneg : 0 <= usize_bits.

Lemma usize_modulus_pos : 0 < usize_modulus usize_bits.
Proof. unfold usize_modulus. apply Z.pow_pos_nonneg; lia. Qed.

Lemma usize_wrap_range (x : Z) : is_usize usize_bits (usize_wrap usize_bits x).
Proof. unfold is_usize, usize_wrap. apply Z.mod_pos_bound, usize_modulus_pos. Qed.

Lemma usize_wrap_small (x : Z) :
  is_usize usize_bits x -> usize_wrap usize_bits x = x.
Proof. unfold is_usize, usize_wrap. intros. by apply Z.mod_small. Qed.

(** A power of two that is a [usize] has its exponent below the width. *)
Lemma pow2_usize_exponent (k : Z) :
  0 <= k -> 2 ^ k < usize_modulus usize_bits -> k < usize_bits.
Proof.
  unfold usize_modulus. intros Hk Hlt.
  apply Z.pow_lt_mono_r_iff in Hlt; lia.
Qed.

(** Masking with [~(2^k - 1)] clears the [k] low bits. *)
Lemma usize_and_not_mask (x k : Z) :
  0 <= k < usize_bits -> is_usize usize_bits x ->
  usize_and x (usize_not usize_bits (usize_sub usize_bits (2 ^ k) 1))
  = 2 ^ k * (x / 2 ^ k).
Proof.
  intros Hk Hx. unfold usize_and, usize_not, usize_sub.
  assert (0 < 2 ^ k) by (apply Z.pow_pos_nonneg; lia).
  assert (2 ^ k < usize_modulus usize_bits).
  { unfold usize_modulus. apply Z.pow_lt_mono_r; lia. }
  rewrite (usize_wrap_small (2 ^ k - 1)) by (unfold is_usize; lia).
  replace (2 ^ k - 1) with (Z.ones k) by (rewrite Z.ones_equiv; lia).
  unfold usize_wrap, usize_modulus.
  rewrite <- Z.land_ones by lia.
  rewrite (Z.land_comm (Z.lnot _)), Z.land_assoc.
  rewrite (Z.land_ones x) by lia.
  rewrite Z.mod_small by exact Hx.
  rewrite <- Z.ldiff_land.
  rewrite Z.ldiff_ones_r by lia.
  rewrite Z.shiftr_div_pow2, Z.shiftl_mul_pow2 by lia. lia.
Qed.

(** [alignUp] in arithmetic terms. *)
Lemma alignUp_pow2 (v k : Z) :
  0 <= k < usize_bits ->
  alignUp usize_bits v (2 ^ k)
  = Some (2 ^ k * (usize_wrap usize_bits (v + 2 ^ k - 1) / 2 ^ k)).
Proof.
  intros Hk. unfold alignUp.
  rewrite isPowerOfTwo_pow2 by lia. f_equal.
  unfold usize_sub at 1. unfold usize_add.
  assert (Hw : usize_wrap usize_bits (usize_wrap usize_bits (v + 2 ^ k) - 1)
               = usize_wrap usize_bits (v + 2 ^ k - 1)).
  { unfold usize_wrap. pose proof usize_modulus_pos.
    rewrite Zminus_mod_idemp_l. reflexivity. }
  rewrite Hw. apply usize_and_not_mask; [lia|apply usize_wrap_range].
Qed.
End WordFacts.

(** ** alignUp: alignment, lower bound and distance *)

Section AlignUp.
Variable usize_bits : Z.

(** The value [alignUp] returns, classified by whether [value + alignment - 1]
    still fits in a [usize]. *)
Lemma alignUp_cases (v s : Z) :
  is_usize usize_bits v -> is_usize usize_bits s -> isPowerOfTwo s = true ->
  exists r, alignUp usize_bits v s = Some r /\ r mod s = 0 /\
    ((v + s - 1 < usize_modulus usize_bits /\ v <= r < v + s /\
      r < usize_modulus usize_bits) \/
     (usize_modulus usize_bits <= v + s - 1 /\ r = 0)).
Proof.
  intros Hv Hs Hp.
  destruct (isPowerOfTwo_inv s Hp) as (k & Hk & ->).
  assert (Hs0 : 0 < 2 ^ k) by (apply Z.pow_pos_nonneg; lia).
  assert (Hw : 0 <= usize_bits).
  { destruct (Z.lt_ge_cases usize_bits 0) as [Hneg|]; [|assumption].
    unfold is_usize, usize_modulus in Hs.
  rewrite (Z.pow_neg_r 2 usize_bits) in Hs by lia. lia. }
  assert (Hkw : k < usize_bits) by (eapply pow2_usize_exponent; [..|apply Hs]; lia).
  rewrite (alignUp_pow2 usize_bits Hw v k) by lia.
  eexists; split; [reflexivity|]. split.
  { rewrite Z.mul_comm. apply Z.mod_mul. lia. }
  unfold is_usize in *. unfold usize_wrap.
  pose proof (usize_modulus_pos usize_bits Hw) as HM.
  destruct (Z.lt_ge_cases (v + 2 ^ k - 1) (usize_modulus usize_bits)) as [Hfit|Hover].
  - left. rewrite Z.mod_small by lia.
    pose proof (Z.div_mod (v + 2 ^ k - 1) (2 ^ k) ltac:(lia)).
    pose proof (Z.mod_pos_bound (v + 2 ^ k - 1) (2 ^ k) Hs0). lia.
  - right. split; [lia|].
    replace ((v + 2 ^ k - 1) mod usize_modulus usize_bits)
      with (v + 2 ^ k - 1 - usize_modulus usize_bits).
    + rewrite Z.div_small by lia. lia.
    + apply Z.mod_unique with (q := 1); lia.
Qed.

(** C8, as amended.  For a power-of-two alignment [s], [alignUp v s] is a
    multiple of [s] and lies less than [s] above [v] in machine arithmetic;
    it is at least [v] exactly when [v + s - 1] does not overflow the word,
    and it is 0 when that sum overflows. *)
Theorem alignUp_aligned_and_bounded (v s : Z) :
  is_usize usize_bits v -> is_usize usize_bits s -> isPowerOfTwo s = true ->
  exists r, alignUp usize_bits v s = Some r /\
    r mod s = 0 /\
    usize_sub usize_bits r v < s /\
    (v <= r <-> v + s - 1 < usize_modulus usize_bits) /\
    (usize_modulus usize_bits <= v + s - 1 -> r = 0).
Proof.
  intros Hv Hs Hp.
  destruct (alignUp_cases v s Hv Hs Hp) as (r & Hr & Hmod & Hcase).
  exists r. split; [assumption|]. split; [assumption|].
  unfold is_usize in *. unfold usize_sub, usize_wrap.
  destruct Hcase as [(Hfit & Hb & Hrm)|(Hover & ->)].
  - rewrite Z.mod_small by lia. lia.
  - replace ((0 - v) mod usize_modulus usize_bits)
      with (usize_modulus usize_bits - v)
      by (apply Z.mod_unique with (q := -1); lia).
    lia.
Qed.
End AlignUp.

Lemma alignUp_aligned_and_bounded_witness :
  exists r, alignUp 64 13 8 = Some r /\ r mod 8 = 0 /\
    usize_sub 64 r 13 < 8 /\ (13 <= r <-> 13 + 8 - 1 < usize_modulus 64) /\
    (usize_modulus 64 <= 13 + 8 - 1 -> r = 0).
Proof.
  apply (alignUp_aligned_and_bounded 64 13 8);
    [unfold is_usize, usize_modulus; lia
    |unfold is_usize, usize_modulus; lia
    |reflexivity].
Defined.

(** C8, as stated, fails where [v + s - 1] overflows: on a 64-bit word
    [alignUp(2^64 - 1, 2)] is 0, which is below [v], so the three
    properties do not hold together. *)
Lemma alignUp_not_above_on_overflow :
  is_usize 64 18446744073709551615 /\ is_usize 64 2 /\
  isPowerOfTwo 2 = true /\
  alignUp 64 18446744073709551615 2 = Some 0 /\
  ~ (exists r, alignUp 64 18446744073709551615 2 = Some r /\
       r mod 2 = 0 /\ 18446744073709551615 <= r /\
       usize_sub 64 r 18446744073709551615 < 2).
Proof.
  split; [by_compute|]. split; [by_compute|]. split; [reflexivity|].
  split; [reflexivity|].
  intros (r & Hr & _ & Hge & _).
  assert (r = 0) as -> by (vm_compute in Hr; congruence).
  lia.
Qed.

(** *** Behaviour of [ArenaAllocator::allocate] *)

Section ArenaFacts.
Variable usize_bits : Z.

Lemma arena_allocate_zero (a : ArenaAllocator.t) (alignment : Z) :
  ArenaAllocator.allocate usize_bits a 0 alignment = Some (0, a).
Proof. reflexivity. Qed.

(** What [allocate] does in terms of the machine-word sum
    [alignedOffset + size]: it never asserts for a power-of-two
    alignment, fails without moving the offset when the wrapped sum
    exceeds the capacity, and bumps the offset otherwise. *)
Lemma arena_allocate_machine (a : ArenaAllocator.t) (size alignment : Z) :
  is_usize usize_bits (ArenaAllocator.m_offset a) ->
  is_usize usize_bits alignment ->
  isPowerOfTwo alignment = true ->
  size <> 0 ->
  exists alignedOffset,
    alignUp usize_bits (ArenaAllocator.m_offset a) alignment = Some alignedOffset /\
    let sum := usize_add usize_bits alignedOffset size in
    (ArenaAllocator.m_capacity a < sum ->
       ArenaAllocator.allocate usize_bits a size alignment = Some (0, a)) /\
    (sum <= ArenaAllocator.m_capacity a ->
       ArenaAllocator.allocate usize_bits a size alignment
       = Some (usize_add usize_bits (ArenaAllocator.m_buffer a) alignedOffset,
               ArenaAllocator.set_offset a sum)).
Proof.
  intros Hoff Hal Hp Hsz.
  destruct (alignUp_cases usize_bits _ _ Hoff Hal Hp) as (r & Hr & _).
  exists r. split; [assumption|]. cbn zeta.
  unfold ArenaAllocator.allocate.
  destruct (Z.eqb_spec size 0) as [|_]; [contradiction|].
  rewrite Hr. cbn [mbind option_bind].
  split; intros Hcmp.
  - apply Z.ltb_lt in Hcmp. by rewrite Hcmp.
  - apply Z.ltb_ge in Hcmp. by rewrite Hcmp.
Qed.

(** When [alignedOffset + size] does not overflow the word, the test of
    [allocate] is the mathematical one. *)
Lemma arena_allocate_no_overflow (a : ArenaAllocator.t) (size alignment : Z) :
  is_usize usize_bits (ArenaAllocator.m_offset a) ->
  is_usize usize_bits alignment ->
  isPowerOfTwo alignment = true ->
  0 < size ->
  exists alignedOffset,
    alignUp usize_bits (ArenaAllocator.m_offset a) alignment = Some alignedOffset /\
    (alignedOffset + size < usize_modulus usize_bits ->
     (ArenaAllocator.m_capacity a < alignedOffset + size ->
        ArenaAllocator.allocate usize_bits a size alignment = Some (0, a)) /\
     (alignedOffset + size <= ArenaAllocator.m_capacity a ->
        ArenaAllocator.allocate usize_bits a size alignment
        = Some (usize_add usize_bits (ArenaAllocator.m_buffer a) alignedOffset,
                ArenaAllocator.set_offset a (alignedOffset + size)))).
Proof.
  intros Hoff Hal Hp Hsz.
  destruct (arena_allocate_machine a size alignment Hoff Hal Hp ltac:(lia))
    as (r & Hr & Hfail & Hok).
  exists r. split; [assumption|]. intros Hfit.
  destruct (alignUp_cases usize_bits _ _ Hoff Hal Hp) as (r' & Hr' & _ & Hcase).
  assert (r' = r) as -> by congruence.
  assert (0 <= r) by (destruct Hcase as [?|[_ ->]]; unfold is_usize in *; lia).
  cbn zeta in Hfail, Hok.
  assert (Hsum : usize_add usize_bits r size = r + size).
  { unfold usize_add, usize_wrap. apply Z.mod_small. lia. }
  rewrite Hsum in Hfail, Hok. split; assumption.
Qed.
End ArenaFacts.

(** C6.  The bound test of [allocate] adds in machine arithmetic.  In a
    16-byte arena on a 64-bit machine, after [allocate(8, 8)] has moved
    the offset to 8, a request of [2^64 - 4] bytes has
    [alignedOffset + size = 2^64 + 4 > capacity]; yet the sum wraps to 4,
    the call returns [region + 8] and the offset becomes 4. *)
Theorem arena_allocate_wraps_past_capacity :
  ArenaAllocator.allocate 64 arena_16 8 8
  = Some (4096, ArenaAllocator.set_offset arena_16 8) /\
  is_usize 64 size_near_max /\
  alignUp 64 (ArenaAllocator.m_offset (ArenaAllocator.set_offset arena_16 8)) 8
  = Some 8 /\
  ArenaAllocator.m_capacity arena_16 < 8 + size_near_max /\
  ArenaAllocator.allocate 64 (ArenaAllocator.set_offset arena_16 8)
    size_near_max 8
  = Some (4104, ArenaAllocator.set_offset arena_16 4) /\
  ArenaAllocator.allocate 64 (ArenaAllocator.set_offset arena_16 8)
    size_near_max 8
  <> Some (0, ArenaAllocator.set_offset arena_16 8).
Proof. by_compute. Qed.

(** *** Behaviour of [HeapAllocator::reallocate] *)

Section HeapFacts.
Variable usize_bits : Z.
Variable windows : bool.
Variable platform_alloc : heap -> Z -> Z -> option (Z * list byte).

Lemma heap_allocate_failure_keeps_heap (h h' : heap) (size alignment : Z) :
  HeapAllocator.allocate usize_bits windows platform_alloc h size alignment
  = Some (0, h') ->
  (forall req al p bs, platform_alloc h req al = Some (p, bs) -> p <> 0) ->
  h' = h.
Proof.
  unfold HeapAllocator.allocate. intros H Hnz.
  destruct (size =? 0); [congruence|].
  destruct (if windows then _ else _) as [req|]; [cbn in H|discriminate].
  destruct (platform_alloc h req alignment) as [[p bs]|] eqn:E; [|congruence].
  apply Hnz in E. congruence.
Qed.

Lemma heap_allocate_success_inv (h h1 : heap) (size alignment newPtr : Z) :
  HeapAllocator.allocate usize_bits windows platform_alloc h size alignment
  = Some (newPtr, h1) ->
  newPtr <> 0 ->
  exists fresh, h1 = <[newPtr := fresh]> h.
Proof.
  unfold HeapAllocator.allocate. intros H Hnz.
  destruct (size =? 0); [congruence|].
  destruct (if windows then _ else _) as [req|]; [cbn in H|discriminate].
  destruct (platform_alloc h req alignment) as [[p bs]|]; [|congruence].
  exists bs. congruence.
Qed.

(** C9, as amended.  [reallocate] with [newSize == 0] deallocates and
    returns null; with a null [ptr] it is [allocate(newSize, alignment)];
    otherwise it asks [allocate] for a fresh block (never growing in
    place), and when that succeeds the new block holds the first
    [min(oldSize, newSize)] bytes of the old one, the old block is freed
    and the new pointer is returned, whereas when it fails [reallocate]
    returns null and leaves the heap, old block included, as it was. *)
Theorem heap_reallocate_behaviour
  (h : heap) (ptr oldSize newSize alignment : Z) :
  (newSize = 0 ->
     HeapAllocator.reallocate usize_bits windows platform_alloc
       h ptr oldSize newSize alignment
     = Some (0, HeapAllocator.deallocate h ptr oldSize)) /\
  (newSize <> 0 -> ptr = 0 ->
     HeapAllocator.reallocate usize_bits windows platform_alloc
       h ptr oldSize newSize alignment
     = HeapAllocator.allocate usize_bits windows platform_alloc
         h newSize alignment) /\
  (newSize <> 0 -> ptr <> 0 ->
     forall newPtr h1 old fresh,
       HeapAllocator.allocate usize_bits windows platform_alloc
         h newSize alignment = Some (newPtr, h1) ->
       newPtr <> 0 -> h !! newPtr = None ->
       h !! ptr = Some old -> h1 !! newPtr = Some fresh ->
       Z.min oldSize newSize <= Z.of_nat (length old) ->
       Z.min oldSize newSize <= Z.of_nat (length fresh) ->
       exists h',
         HeapAllocator.reallocate usize_bits windows platform_alloc
           h ptr oldSize newSize alignment = Some (newPtr, h') /\
         h' !! newPtr
         = Some (take (Z.to_nat (Z.min oldSize newSize)) old
                 ++ drop (Z.to_nat (Z.min oldSize newSize)) fresh) /\
         h' !! ptr = None /\
         (forall q, q <> ptr -> q <> newPtr -> h' !! q = h !! q)) /\
  (newSize <> 0 -> ptr <> 0 ->
     (forall req al p bs, platform_alloc h req al = Some (p, bs) -> p <> 0) ->
     forall h1,
       HeapAllocator.allocate usize_bits windows platform_alloc
         h newSize alignment = Some (0, h1) ->
       HeapAllocator.reallocate usize_bits windows platform_alloc
         h ptr oldSize newSize alignment = Some (0, h)).
Proof.
  unfold HeapAllocator.reallocate. repeat split.
  - intros ->. reflexivity.
  - intros Hn ->. destruct (Z.eqb_spec newSize 0); [contradiction|reflexivity].
  - intros Hn Hp newPtr h1 old fresh Hal Hnp Hnew Hold Hfresh Hlo Hlf.
    destruct (Z.eqb_spec newSize 0); [contradiction|].
    destruct (Z.eqb_spec ptr 0); [contradiction|].
    assert (Hne : newPtr <> ptr) by congruence.
    destruct (heap_allocate_success_inv _ _ _ _ _ Hal Hnp) as (fresh' & ->).
    rewrite Hal. cbn [mbind option_bind].
    destruct (Z.eqb_spec newPtr 0); [contradiction|].
    unfold memcpy. rewrite Hfresh.
    rewrite lookup_insert_ne, Hold by congruence. cbn [mbind option_bind].
    assert (Hl1 : (Z.min oldSize newSize <=? Z.of_nat (length fresh)) = true)
      by (apply Z.leb_le; lia).
    assert (Hl2 : (Z.min oldSize newSize <=? Z.of_nat (length old)) = true)
      by (apply Z.leb_le; lia).
    rewrite Hl1, Hl2. cbn [andb mbind option_bind].
    eexists; split; [reflexivity|].
    unfold HeapAllocator.deallocate.
    destruct (Z.eqb_spec ptr 0); [contradiction|].
    split; [|split].
    + rewrite lookup_delete_ne by congruence. apply lookup_insert_eq.
    + apply lookup_delete_eq.
    + intros q Hq1 Hq2.
      rewrite lookup_delete_ne by congruence.
      rewrite !lookup_insert_ne by congruence. reflexivity.
  - intros Hn Hp Hnz h1 Hal.
    destruct (Z.eqb_spec newSize 0); [contradiction|].
    destruct (Z.eqb_spec ptr 0); [contradiction|].
    rewrite Hal. cbn.
    by rewrite (heap_allocate_failure_keeps_heap _ _ _ _ Hal Hnz).
Qed.
End HeapFacts.

Lemma heap_reallocate_behaviour_witness :
  exists h',
    HeapAllocator.reallocate 64 false alloc_at_8192
      heap_one_block 4096 4 8 16 = Some (8192, h') /\
    h' !! 8192
    = Some (["001"; "002"; "003"; "004"; "000"; "000"; "000"; "000"; "000";
             "000"; "000"; "000"; "000"; "000"; "000"; "000"]%byte) /\
    h' !! 4096 = None.
Proof.
  destruct (heap_reallocate_behaviour 64 false alloc_at_8192
              heap_one_block 4096 4 8 16) as (_ & _ & H & _).
  destruct (H ltac:(lia) ltac:(lia) 8192
              (<[8192 := replicate 16 "000"%byte]> heap_one_block)
              ["001"; "002"; "003"; "004"]%byte
              (replicate 16 "000"%byte)
              eq_refl ltac:(lia) eq_refl eq_refl eq_refl
              ltac:(cbn; lia) ltac:(cbn; lia))
    as (h' & Hr & Hnew & Hold & _).
  exists h'. split; [exact Hr|]. split; [exact Hnew|exact Hold].
Defined.

(** C9, as stated, fails when the platform allocator is out of memory:
    [reallocate] of a live 4-byte block to 8 bytes returns null and the old
    block is still live, with its bytes; no new block is returned and the
    old one is not freed. *)
Lemma heap_reallocate_keeps_old_on_failure :
  HeapAllocator.reallocate 64 false alloc_exhausted
    heap_one_block 4096 4 8 16 = Some (0, heap_one_block) /\
  heap_one_block !! 4096 = Some ["001"; "002"; "003"; "004"]%byte /\
  ~ (exists newPtr h',
       newPtr <> 0 /\
       HeapAllocator.reallocate 64 false alloc_exhausted
         heap_one_block 4096 4 8 16 = Some (newPtr, h') /\
       h' !! 4096 = None).
Proof.
  split; [reflexivity|]. split; [reflexivity|].
  intros (newPtr & h' & Hnz & Hr & _).
  assert (newPtr = 0) by (vm_compute in Hr; congruence).
  contradiction.
Qed.

(** *** The pool's free list and block count *)

Lemma is_chain_insert (mem : gmap Z Z) (head : Z) (l : list Z) (a v : Z) :
  a ∉ l -> is_chain mem head l -> is_chain (<[a := v]> mem) head l.
Proof.
  revert head. induction l as [|b l IH]; intros head Hnotin Hc; [exact Hc|].
  destruct Hc as (-> & Hnz & next & Hnext & Hrest).
  apply not_elem_of_cons in Hnotin as [Hab Hal].
  cbn. split; [reflexivity|]. split; [assumption|].
  exists next. split; [by rewrite lookup_insert_ne|by apply IH].
Qed.

Lemma is_chain_null (mem : gmap Z Z) (head : Z) (l : list Z) :
  is_chain mem head l -> (head = 0 <-> l = []).
Proof.
  destruct l as [|b l]; cbn.
  - intros ->. done.
  - intros (-> & Hnz & _). split; [contradiction|discriminate].
Qed.

Lemma elem_of_block_list (buffer blockSize : Z) (n : nat) (i b : Z) :
  b ∈ block_list buffer blockSize n i <->
  exists j, i <= j < i + Z.of_nat n /\ b = buffer + j * blockSize.
Proof.
  revert i. induction n as [|n IH]; intros i; cbn [block_list].
  - split; [intros H; inversion H|intros (j & ? & _); lia].
  - rewrite elem_of_cons, IH. split.
    + intros [->|(j & Hj & ->)]; [exists i|exists j]; split; try reflexivity; lia.
    + intros (j & Hj & ->).
      destruct (Z.eq_dec j i) as [->|]; [by left|].
      right. exists j. split; [lia|reflexivity].
Qed.

Lemma NoDup_block_list (buffer blockSize : Z) (n : nat) (i : Z) :
  0 < blockSize -> NoDup (block_list buffer blockSize n i).
Proof.
  intros Hbs. revert i. induction n as [|n IH]; intros i; cbn [block_list].
  - constructor.
  - constructor; [|apply IH].
    rewrite elem_of_block_list. intros (j & Hj & Heq). nia.
Qed.

Lemma length_block_list (buffer blockSize : Z) (n : nat) (i : Z) :
  length (block_list buffer blockSize n i) = n.
Proof. revert i. induction n as [|n IH]; intros i; cbn; [|rewrite IH]; done. Qed.

Section PoolFacts.
Variable usize_bits : Z.
Variable sizeof_FreeBlock : Z.

Lemma block_address_exact (buffer blockSize count j : Z) :
  0 < buffer -> 0 < blockSize ->
  buffer + blockSize * count < usize_modulus usize_bits ->
  0 <= j < count ->
  PoolAllocator.block_address usize_bits buffer blockSize j
  = buffer + j * blockSize.
Proof.
  intros Hb Hbs Hfit Hj.
  unfold PoolAllocator.block_address, usize_add, usize_mul, usize_wrap.
  assert (0 <= j * blockSize <= blockSize * count) by nia.
  rewrite (Z.mod_small (j * blockSize)) by lia.
  apply Z.mod_small. lia.
Qed.

(** The constructor's loop threads the blocks it visits in front of the
    list built so far, last block first. *)
Lemma init_free_list_chain (buffer blockSize count : Z) (n : nat) :
  0 < buffer -> 0 < blockSize ->
  buffer + blockSize * count < usize_modulus usize_bits ->
  forall (i : Z) (mem : gmap Z Z) (head : Z) (l : list Z),
    0 <= i -> i + Z.of_nat n <= count ->
    is_chain mem head l ->
    (forall b, b ∈ l -> exists j, 0 <= j < i /\ b = buffer + j * blockSize) ->
    is_chain
      (PoolAllocator.init_free_list usize_bits buffer blockSize n i mem head).1
      (PoolAllocator.init_free_list usize_bits buffer blockSize n i mem head).2
      (reverse (block_list buffer blockSize n i) ++ l).
Proof.
  intros Hb Hbs Hfit.
  induction n as [|n IH]; intros i mem head l Hi Hin Hc Hl; [exact Hc|].
  cbn [PoolAllocator.init_free_list block_list]. rewrite reverse_cons.
  rewrite (block_address_exact buffer blockSize count i) by (try assumption; lia).
  rewrite <- app_assoc. cbn [app].
  apply IH; [lia|lia| |].
  - cbn. split; [reflexivity|]. split; [nia|].
    exists head. split; [apply lookup_insert_eq|].
    apply is_chain_insert; [|assumption].
    intros Hel. destruct (Hl _ Hel) as (j & Hj & Heq). nia.
  - intros b [->|Hel]%elem_of_cons.
    + exists i. split; [lia|reflexivity].
    + destruct (Hl _ Hel) as (j & Hj & ->). exists j. split; [lia|reflexivity].
Qed.

End PoolFacts.

Section PoolSteps.
Variable usize_bits : Z.
Variable sizeof_FreeBlock : Z.

Lemma pool_create_inv (buffer blockSize blockCount : Z) (p : PoolAllocator.t) :
  0 < buffer -> is_usize usize_bits blockSize ->
  is_usize usize_bits blockCount -> 0 < sizeof_FreeBlock ->
  buffer + Z.max blockSize sizeof_FreeBlock * blockCount
    < usize_modulus usize_bits ->
  PoolAllocator.create usize_bits sizeof_FreeBlock buffer blockSize blockCount
  = Some p ->
  pool_inv usize_bits p ∅
    (reverse (block_list buffer (Z.max blockSize sizeof_FreeBlock)
            (Z.to_nat blockCount) 0)).
Proof.
  intros Hb Hbs Hcnt Hsz Hfit. unfold PoolAllocator.create.
  destruct (Z.eqb_spec buffer 0); [lia|].
  set (bs := Z.max blockSize sizeof_FreeBlock) in *.
  assert (Hbs0 : 0 < bs) by (unfold bs; lia).
  pose proof (init_free_list_chain usize_bits buffer bs blockCount
                (Z.to_nat blockCount) Hb Hbs0 Hfit 0 ∅ 0 []
                ltac:(lia) ltac:(unfold is_usize in Hcnt; lia)
                eq_refl ltac:(intros b Hel; inversion Hel)) as Hchain.
  destruct (PoolAllocator.init_free_list _ _ _ _ _ _ _) as [mem head].
  intros [= <-]. rewrite app_nil_r in Hchain.
  unfold is_usize in *.
  constructor; cbn [PoolAllocator.m_blockCount PoolAllocator.m_buffer
    PoolAllocator.m_blockSize PoolAllocator.m_freeList PoolAllocator.memory
    PoolAllocator.m_freeCount]; try assumption.
  - rewrite reverse_Permutation. by apply NoDup_block_list.
  - rewrite length_reverse, length_block_list. lia.
  - rewrite length_reverse, length_block_list, size_empty. lia.
  - intros b _. apply not_elem_of_empty.
  - intros b [Hel|Hel]; [|by apply not_elem_of_empty in Hel].
    rewrite elem_of_reverse in Hel. apply elem_of_block_list in Hel.
    destruct Hel as (j & Hj & ->). exists j. split; [lia|reflexivity].
Qed.

Lemma pool_allocate_inv (p : PoolAllocator.t) (A : gset Z) (l : list Z)
    (size alignment : Z) :
  pool_inv usize_bits p A l ->
  exists ptr p' l',
    PoolAllocator.allocate usize_bits p size alignment = Some (ptr, p') /\
    (ptr = 0 <->
       PoolAllocator.m_blockSize p < size \/ PoolAllocator.m_freeCount p = 0) /\
    pool_inv usize_bits p' (if decide (ptr = 0) then A else {[ptr]} ∪ A) l'.
Proof.
  intros Hinv. destruct Hinv as [Hcu Hb Hbs Hfit Hc Hnd Hfree Htot Hdisj Hblk].
  unfold PoolAllocator.allocate.
  destruct (Z.ltb_spec (PoolAllocator.m_blockSize p) size) as [Hbig|Hsmall].
  { exists 0, p, l. cbn. split; [reflexivity|]. split; [tauto|].
    rewrite decide_True by reflexivity. by constructor. }
  destruct l as [|b l'].
  { cbn in Hc. rewrite Hc. cbn [Z.eqb orb].
    exists 0, p, []. split; [reflexivity|]. cbn in Hfree.
    split; [split; [intros _; right; lia|done]|].
    rewrite decide_True by reflexivity. by constructor. }
  destruct Hc as (Hhead & Hnz & next & Hnext & Hrest).
  rewrite Hhead. destruct (Z.eqb_spec b 0) as [|_]; [contradiction|].
  cbn [orb]. rewrite Hnext. cbn [mbind option_bind].
  eexists b, _, l'. split; [reflexivity|].
  cbn [length] in Hfree, Htot.
  split; [split; [contradiction|intros [?|?]; lia]|].
  rewrite decide_False by assumption.
  apply NoDup_cons in Hnd as [Hbl Hnd].
  assert (HbA : b ∉ A) by (apply Hdisj; left).
  unfold is_usize in *.
  constructor; cbn [PoolAllocator.m_blockCount PoolAllocator.m_buffer
    PoolAllocator.m_blockSize PoolAllocator.m_freeList PoolAllocator.memory
    PoolAllocator.m_freeCount]; try assumption.
  - unfold usize_sub, usize_wrap. rewrite Z.mod_small; lia.
  - rewrite size_union, size_singleton by set_solver. lia.
  - intros c Hel. pose proof (Hdisj c ltac:(by right)). set_solver.
  - intros c [Hel|[Hel|Hel]%elem_of_union]; apply Hblk.
    + left. by right.
    + apply elem_of_singleton in Hel as ->. left. by left.
    + by right.
Qed.

Lemma pool_deallocate_inv (p : PoolAllocator.t) (A : gset Z) (l : list Z)
    (ptr sz : Z) :
  pool_inv usize_bits p A l -> ptr ∈ A ->
  exists p',
    PoolAllocator.deallocate usize_bits p ptr sz = Some p' /\
    pool_inv usize_bits p' (A ∖ {[ptr]}) (ptr :: l).
Proof.
  intros Hinv HA. destruct Hinv as [Hcu Hb Hbs Hfit Hc Hnd Hfree Htot Hdisj Hblk].
  destruct (Hblk ptr ltac:(by right)) as (j & Hj & Hptr).
  assert (HptrL : ptr ∉ l) by (intros Hel; by apply Hdisj in Hel).
  assert (Hsz : (0 < size A)%nat).
  { destruct (size A) eqn:E; [|lia]. apply size_empty_inv in E. set_solver. }
  unfold PoolAllocator.deallocate, is_usize in *.
  destruct (Z.eqb_spec ptr 0) as [|Hnz]; [nia|].
  assert (Hend : usize_add usize_bits (PoolAllocator.m_buffer p)
                   (usize_mul usize_bits (PoolAllocator.m_blockSize p)
                      (PoolAllocator.m_blockCount p))
                 = PoolAllocator.m_buffer p
                   + PoolAllocator.m_blockSize p * PoolAllocator.m_blockCount p).
  { unfold usize_add, usize_mul, usize_wrap.
    rewrite (Z.mod_small (_ * _)) by nia. apply Z.mod_small. nia. }
  rewrite Hend.
  destruct (Z.leb_spec (PoolAllocator.m_buffer p) ptr); [|nia].
  destruct (Z.ltb_spec ptr (PoolAllocator.m_buffer p
    + PoolAllocator.m_blockSize p * PoolAllocator.m_blockCount p)); [|nia].
  cbn [andb]. eexists; split; [reflexivity|].
  assert (Hsize : size (A ∖ {[ptr]}) = (size A - 1)%nat).
  { rewrite size_difference by set_solver. by rewrite size_singleton. }
  constructor; cbn [PoolAllocator.m_blockCount PoolAllocator.m_buffer
    PoolAllocator.m_blockSize PoolAllocator.m_freeList PoolAllocator.memory
    PoolAllocator.m_freeCount length]; try assumption.
  - cbn. split; [reflexivity|]. split; [assumption|].
    exists (PoolAllocator.m_freeList p).
    split; [apply lookup_insert_eq|by apply is_chain_insert].
  - by constructor.
  - unfold usize_add, usize_wrap. rewrite Z.mod_small; lia.
  - rewrite Hsize. lia.
  - intros c [->|Hel]%elem_of_cons; [set_solver|].
    pose proof (Hdisj c Hel). set_solver.
  - intros c [[->|Hel]%elem_of_cons|Hel]; apply Hblk.
    + by right.
    + by left.
    + right. set_solver.
Qed.

Lemma pool_store_inv (p : PoolAllocator.t) (A : gset Z) (l : list Z)
    (ptr v : Z) :
  pool_inv usize_bits p A l -> ptr ∈ A ->
  pool_inv usize_bits (PoolAllocator.store p ptr v) A l.
Proof.
  intros Hinv HA. destruct Hinv as [Hcu Hb Hbs Hfit Hc Hnd Hfree Htot Hdisj Hblk].
  constructor; cbn; try assumption.
  apply is_chain_insert; [|assumption].
  intros Hel. by apply Hdisj in Hel.
Qed.

Lemma pool_run_inv (p : PoolAllocator.t) (A : gset Z) :
  PoolAllocator.run usize_bits sizeof_FreeBlock p A ->
  exists l, pool_inv usize_bits p A l.
Proof.
  induction 1 as [buffer bs cnt p Hb Hbs Hcnt Hsz Hfit Hcreate
                 |p A size al ptr p' _ [l IH] Halloc
                 |p A ptr size p' _ [l IH] HA Hde
                 |p A size p' _ [l IH] Hde
                 |p A ptr v _ [l IH] HA].
  - eexists. by apply (pool_create_inv buffer bs cnt).
  - destruct (pool_allocate_inv p A l size al IH) as (q & p'' & l' & Hq & _ & Hinv).
    rewrite Halloc in Hq. injection Hq as <- <-. by exists l'.
  - destruct (pool_deallocate_inv p A l ptr size IH HA) as (p'' & Hq & Hinv).
    rewrite Hde in Hq. injection Hq as <-. by eexists.
  - cbn in Hde. injection Hde as <-. by exists l.
  - exists l. by apply pool_store_inv.
Qed.

(** C7.  After any sequence of pool operations in which [deallocate] is
    given only blocks currently allocated, free and allocated blocks add
    up to [blockCount()], [freeCount()] does not exceed [blockCount()],
    every [allocate] returns, and it returns null exactly when the
    requested size exceeds [blockSize()] or no block is free. *)
Theorem pool_free_plus_allocated (p : PoolAllocator.t) (A : gset Z) :
  PoolAllocator.run usize_bits sizeof_FreeBlock p A ->
  PoolAllocator.freeCount p + Z.of_nat (size A) = PoolAllocator.blockCount p /\
  0 <= PoolAllocator.freeCount p <= PoolAllocator.blockCount p /\
  forall size alignment, exists ptr p',
    PoolAllocator.allocate usize_bits p size alignment = Some (ptr, p') /\
    (ptr = 0 <->
       PoolAllocator.blockSize p < size \/ PoolAllocator.freeCount p = 0).
Proof.
  intros Hrun. destruct (pool_run_inv p A Hrun) as [l Hinv].
  unfold PoolAllocator.freeCount, PoolAllocator.blockCount,
    PoolAllocator.blockSize.
  pose proof (inv_free _ _ _ _ Hinv). pose proof (inv_total _ _ _ _ Hinv).
  split; [lia|]. split; [lia|].
  intros size alignment.
  destruct (pool_allocate_inv p A l size alignment Hinv)
    as (ptr & p' & _ & Hal & Hnull & _).
  by exists ptr, p'.
Qed.
End PoolSteps.

Lemma pool_two_blocks_run : PoolAllocator.run 64 8 pool_two_blocks ∅.
Proof.
  apply (PoolAllocator.run_create 64 8 4096 16 2);
    [lia|unfold is_usize, usize_modulus; lia|unfold is_usize, usize_modulus; lia
    |lia|unfold usize_modulus; lia|reflexivity].
Defined.

Lemma pool_one_taken_run : PoolAllocator.run 64 8 pool_one_taken ({[4112]} ∪ ∅).
Proof.
  exact (PoolAllocator.run_allocate 64 8 pool_two_blocks ∅ 16 8 4112
           pool_one_taken pool_two_blocks_run eq_refl).
Defined.

Lemma pool_free_plus_allocated_witness :
  PoolAllocator.freeCount pool_one_taken
  + Z.of_nat (size ({[4112]} ∪ ∅ : gset Z))
  = PoolAllocator.blockCount pool_one_taken /\
  0 <= PoolAllocator.freeCount pool_one_taken
    <= PoolAllocator.blockCount pool_one_taken /\
  forall size alignment, exists ptr p',
    PoolAllocator.allocate 64 pool_one_taken size alignment = Some (ptr, p') /\
    (ptr = 0 <->
       PoolAllocator.blockSize pool_one_taken < size \/
       PoolAllocator.freeCount pool_one_taken = 0).
Proof.
  exact (pool_free_plus_allocated 64 8 pool_one_taken ({[4112]} ∪ ∅)
           pool_one_taken_run).
Defined.

(** ** Bytes *)

Lemma byte_to_Z_range (b : byte) : 0 <= byte_to_Z b < 256.
Proof.
  unfold byte_to_Z. pose proof (Byte.to_N_bounded b). lia.
Qed.

Lemma Z_lor_lt_pow2 (a b k : Z) :
  0 < k -> 0 <= a < 2 ^ k -> 0 <= b < 2 ^ k -> 0 <= Z.lor a b < 2 ^ k.
Proof.
  intros Hk Ha Hb.
  assert (Hnn : 0 <= Z.lor a b) by (apply Z.lor_nonneg; lia).
  split; [assumption|].
  destruct (Z.eq_dec (Z.lor a b) 0) as [->|Hne];
    [apply Z.pow_pos_nonneg; lia|].
  apply Z.log2_lt_pow2; [lia|].
  rewrite Z.log2_lor by lia.
  assert (Hlog : forall x, 0 <= x < 2 ^ k -> Z.log2 x < k).
  { intros x Hx. destruct (Z.eq_dec x 0) as [->|]; [cbn; lia|].
    apply Z.log2_lt_pow2; lia. }
  pose proof (Hlog a Ha). pose proof (Hlog b Hb). lia.
Qed.

Lemma le_value_range (l : list byte) :
  0 <= le_value l < 2 ^ (8 * Z.of_nat (length l)).
Proof.
  induction l as [|b t IH]; cbn [le_value length]; [cbn; lia|].
  pose proof (byte_to_Z_range b) as Hb.
  replace (8 * Z.of_nat (S (length t))) with (8 * Z.of_nat (length t) + 8) by lia.
  assert (Hp8 : 256 <= 2 ^ (8 * Z.of_nat (length t) + 8)).
  { rewrite Z.pow_add_r by lia. change (2 ^ 8) with 256.
    assert (0 < 2 ^ (8 * Z.of_nat (length t))) by (apply Z.pow_pos_nonneg; lia).
    nia. }
  apply Z_lor_lt_pow2; [lia|lia|].
  rewrite Z.shiftl_mul_pow2 by lia. rewrite Z.pow_add_r by lia.
  change (2 ^ 8) with 256. nia.
Qed.

(** ** BufferReader *)

Section ReaderFacts.
Variable usize_bits : Z.
Variable native_big : bool.

Lemma reader_remaining_exact (r : BufferReader.t) :
  reader_wf usize_bits r ->
  BufferReader.remaining usize_bits r
  = BufferReader.size r - BufferReader.m_pos r.
Proof.
  intros [Hpos Hsz]. unfold BufferReader.remaining, usize_sub, usize_wrap.
  apply Z.mod_small. lia.
Qed.

Lemma reader_set_pos_same (r : BufferReader.t) :
  BufferReader.set_pos r (BufferReader.m_pos r) = r.
Proof. by destruct r. Qed.

Lemma reader_size_set_pos (r : BufferReader.t) (pos : Z) :
  BufferReader.size (BufferReader.set_pos r pos) = BufferReader.size r.
Proof. reflexivity. Qed.

Lemma reader_byte_at_in_range (r : BufferReader.t) (i : Z) :
  0 <= i < BufferReader.size r -> is_Some (BufferReader.byte_at r i).
Proof.
  unfold BufferReader.size, BufferReader.byte_at. intros Hi.
  apply lookup_lt_is_Some_2. lia.
Qed.

Lemma reader_bytes_at_length (r : BufferReader.t) (pos n : Z) :
  0 <= pos -> 0 <= n -> pos + n <= BufferReader.size r ->
  Z.of_nat (length (BufferReader.bytes_at r pos n)) = n.
Proof.
  unfold BufferReader.size, BufferReader.bytes_at. intros Hp Hn Hfit.
  rewrite length_take, length_drop. lia.
Qed.

(** The scanning loop stops at [z] when no zero byte precedes [z] and
    [z] is the limit or holds a zero byte, given enough iterations. *)
Lemma scan_stops_at (r : BufferReader.t) (fuel : nat) (pos limit z : Z) :
  0 <= pos <= z -> z <= limit -> z <= BufferReader.size r ->
  BufferReader.size r < usize_modulus usize_bits ->
  no_zero_in r pos z ->
  z = limit \/ zero_at r z ->
  (Z.to_nat (z - pos) <= fuel)%nat ->
  BufferReader.scan usize_bits fuel r pos limit = z.
Proof.
  intros Hpos Hzl Hzs HM. revert pos Hpos.
  induction fuel as [|fuel IH]; intros pos Hpos Hno Hstop Hfuel;
    cbn [BufferReader.scan].
  - lia.
  - destruct (Z.eq_dec pos z) as [->|Hne].
    + destruct Hstop as [->|(b & Hb & Hzero)].
      * by rewrite Z.ltb_irrefl.
      * rewrite Hb, Hzero. cbn [negb]. by rewrite andb_false_r.
    + destruct (reader_byte_at_in_range r pos ltac:(lia)) as [b Hb].
      destruct (Z.ltb_spec pos limit); [|lia].
      rewrite Hb. cbn [andb].
      destruct (byte_is_zero b) eqn:Hz.
      * exfalso. apply (Hno pos ltac:(lia)). by exists b.
      * cbn [negb].
        assert (Hnext : usize_add usize_bits pos 1 = pos + 1).
        { unfold usize_add, usize_wrap. apply Z.mod_small. lia. }
        rewrite Hnext. apply IH; [lia| |assumption|lia].
        intros i Hi. apply Hno. lia.
Qed.

Ltac scan_side :=
  first [assumption | lia | by left | by right
        | unfold BufferReader.scan_fuel; lia].

Lemma reader_read_insufficient {T : Type} `{TriviallyCopyable T}
    (r : BufferReader.t) :
  BufferReader.remaining usize_bits r < sizeof ->
  BufferReader.read usize_bits r = (None, r).
Proof.
  intros Hlt. unfold BufferReader.read.
  destruct (Z.ltb_spec (BufferReader.remaining usize_bits r) sizeof); [done|lia].
Qed.

Lemma reader_read_sufficient {T : Type} `{TriviallyCopyable T}
    (r : BufferReader.t) :
  reader_wf usize_bits r -> 0 <= sizeof ->
  sizeof <= BufferReader.remaining usize_bits r ->
  BufferReader.read usize_bits r
  = (Some (from_bytes (BufferReader.bytes_at r (BufferReader.m_pos r) sizeof)),
     BufferReader.set_pos r (BufferReader.m_pos r + sizeof)).
Proof.
  intros Hwf H0 Hge. unfold BufferReader.read.
  rewrite (reader_remaining_exact r Hwf) in Hge.
  rewrite (reader_remaining_exact r Hwf).
  destruct (Z.ltb_spec (BufferReader.size r - BufferReader.m_pos r) sizeof);
    [lia|].
  destruct Hwf as [Hpos Hsz].
  unfold usize_add, usize_wrap. rewrite Z.mod_small by lia. reflexivity.
Qed.

(** C3.  [read<T>()] with [remaining() >= sizeof(T)] returns the value
    decoded from the [sizeof(T)] bytes at the current position and
    advances the position by [sizeof(T)]; otherwise it returns none and
    leaves the reader as it was. *)
Theorem reader_read_fixed_size {T : Type} `{TriviallyCopyable T}
    (r : BufferReader.t) :
  reader_wf usize_bits r -> 0 <= sizeof ->
  (sizeof <= BufferReader.remaining usize_bits r ->
     exists bs r',
       BufferReader.read usize_bits r = (Some (from_bytes bs), r') /\
       bs = BufferReader.bytes_at r (BufferReader.position r) sizeof /\
       Z.of_nat (length bs) = sizeof /\
       BufferReader.m_data r' = BufferReader.m_data r /\
       BufferReader.position r' = BufferReader.position r + sizeof) /\
  (BufferReader.remaining usize_bits r < sizeof ->
     BufferReader.read usize_bits r = (None, r)).
Proof.
  intros Hwf H0. split; [|apply reader_read_insufficient].
  intros Hge. eexists _, _. split; [by apply reader_read_sufficient|].
  split; [reflexivity|]. split; [|done].
  rewrite (reader_remaining_exact r Hwf) in Hge.
  destruct Hwf as [Hpos Hsz].
  apply reader_bytes_at_length; unfold BufferReader.position; lia.
Qed.

Lemma reader_nts_no_zero (r : BufferReader.t) :
  reader_wf usize_bits r ->
  no_zero_in r (BufferReader.m_pos r) (BufferReader.size r) ->
  BufferReader.readNullTerminatedString usize_bits r = (None, r).
Proof.
  intros [Hpos Hsz] Hno. unfold BufferReader.readNullTerminatedString.
  cbn zeta.
  rewrite (scan_stops_at r _ _ _ (BufferReader.size r))
    by scan_side.
  rewrite Z.leb_refl. by rewrite reader_set_pos_same.
Qed.

(** C4.  [readNullTerminatedString()] on data with no zero byte at or
    after the position returns none and leaves the position where it was;
    when the first zero byte at or after the position is at index [z], it
    returns the bytes from the position up to [z], terminator excluded,
    and sets the position to [z + 1]. *)
Theorem reader_unbounded_null_terminated (r : BufferReader.t) :
  reader_wf usize_bits r ->
  (no_zero_in r (BufferReader.position r) (BufferReader.size r) ->
     BufferReader.readNullTerminatedString usize_bits r = (None, r)) /\
  (forall z,
     BufferReader.position r <= z < BufferReader.size r ->
     zero_at r z ->
     no_zero_in r (BufferReader.position r) z ->
     BufferReader.readNullTerminatedString usize_bits r
     = (Some (BufferReader.bytes_at r (BufferReader.position r)
                (z - BufferReader.position r)),
        BufferReader.set_pos r (z + 1))).
Proof.
  intros Hwf. split; [by apply reader_nts_no_zero|].
  destruct Hwf as [Hpos Hsz]. unfold BufferReader.position.
  intros z Hz Hzero Hno. unfold BufferReader.readNullTerminatedString.
  cbn zeta.
  rewrite (scan_stops_at r _ _ _ z)
    by scan_side.
  destruct (Z.leb_spec (BufferReader.size r) z); [lia|].
  unfold usize_sub, usize_add, usize_wrap.
  rewrite !Z.mod_small by lia. reflexivity.
Qed.

(** C5, as amended.  When [position() + maxLength] does not overflow and
    no zero byte lies among the [n = min(maxLength, remaining())] bytes
    after the position, [readNullTerminatedString(maxLength)] succeeds
    with those [n] bytes; the position advances by [n], and by one more
    when the byte right after them exists and is zero. *)
Theorem reader_bounded_null_terminated (r : BufferReader.t) (maxLength n : Z) :
  reader_wf usize_bits r ->
  0 <= maxLength ->
  BufferReader.position r + maxLength < usize_modulus usize_bits ->
  n = Z.min maxLength (BufferReader.remaining usize_bits r) ->
  no_zero_in r (BufferReader.position r) (BufferReader.position r + n) ->
  BufferReader.readNullTerminatedStringMax usize_bits r maxLength
  = (Some (BufferReader.bytes_at r (BufferReader.position r) n),
     BufferReader.set_pos r
       (BufferReader.position r + n
        + (if zero_atb r (BufferReader.position r + n) then 1 else 0))) /\
  Z.of_nat (length (BufferReader.bytes_at r (BufferReader.position r) n)) = n.
Proof.
  intros Hwf Hmax Hfit Hn Hno.
  rewrite (reader_remaining_exact r Hwf) in Hn.
  destruct Hwf as [Hpos Hsz]. unfold BufferReader.position in *.
  split; [|apply reader_bytes_at_length; lia].
  unfold BufferReader.readNullTerminatedStringMax. cbn zeta.
  assert (Hlimit : Z.min (usize_add usize_bits (BufferReader.m_pos r) maxLength)
                     (BufferReader.size r) = BufferReader.m_pos r + n).
  { unfold usize_add, usize_wrap. rewrite Z.mod_small by lia. lia. }
  rewrite Hlimit.
  rewrite (scan_stops_at r _ _ _ (BufferReader.m_pos r + n))
    by scan_side.
  replace (usize_sub usize_bits (BufferReader.m_pos r + n) (BufferReader.m_pos r))
    with n by (unfold usize_sub, usize_wrap; rewrite Z.mod_small; lia).
  unfold zero_atb.
  destruct (Z.ltb_spec (BufferReader.m_pos r + n) (BufferReader.size r)) as [Hin|Hout];
    cbn [andb]; [|by rewrite Z.add_0_r].
  destruct (BufferReader.byte_at r (BufferReader.m_pos r + n)) as [b|];
    [|by rewrite Z.add_0_r].
  destruct (byte_is_zero b); [|by rewrite Z.add_0_r].
  unfold usize_add, usize_wrap. rewrite Z.mod_small by lia. reflexivity.
Qed.

(** The scanning loop never moves back and never passes the limit. *)
Lemma scan_range (r : BufferReader.t) (fuel : nat) (pos limit : Z) :
  0 <= pos -> limit <= BufferReader.size r ->
  BufferReader.size r < usize_modulus usize_bits ->
  pos <= BufferReader.scan usize_bits fuel r pos limit <= Z.max pos limit.
Proof.
  intros Hpos Hlim HM. revert pos Hpos.
  induction fuel as [|fuel IH]; intros pos Hpos; cbn [BufferReader.scan]; [lia|].
  destruct (Z.ltb_spec pos limit); cbn [andb]; [|lia].
  destruct (BufferReader.byte_at r pos) as [b|]; [|lia].
  destruct (byte_is_zero b); cbn [negb]; [lia|].
  assert (Hnext : usize_add usize_bits pos 1 = pos + 1).
  { unfold usize_add, usize_wrap. apply Z.mod_small. lia. }
  rewrite Hnext. pose proof (IH (pos + 1) ltac:(lia)). lia.
Qed.

(** *** The reader's invariant is kept by every operation *)

Lemma reader_wf_create (data : list byte) :
  Z.of_nat (length data) < usize_modulus usize_bits ->
  reader_wf usize_bits (BufferReader.create data).
Proof. unfold reader_wf, BufferReader.size. cbn. lia. Qed.

Lemma reader_wf_set_pos (r : BufferReader.t) (pos : Z) :
  reader_wf usize_bits r -> 0 <= pos <= BufferReader.size r ->
  reader_wf usize_bits (BufferReader.set_pos r pos).
Proof. unfold reader_wf. rewrite reader_size_set_pos. cbn. lia. Qed.

Lemma reader_wf_seek (r : BufferReader.t) (pos : Z) :
  reader_wf usize_bits r -> 0 <= pos ->
  reader_wf usize_bits (BufferReader.seek r pos).
Proof.
  intros Hwf Hpos. apply reader_wf_set_pos; [assumption|].
  destruct Hwf. lia.
Qed.

Lemma reader_wf_skip (r : BufferReader.t) (count : Z) :
  reader_wf usize_bits r -> 0 <= usize_bits ->
  reader_wf usize_bits (BufferReader.skip usize_bits r count).
Proof.
  intros Hwf Hbits. apply reader_wf_set_pos; [assumption|].
  pose proof (usize_wrap_range usize_bits Hbits (BufferReader.m_pos r + count)) as Hr.
  unfold is_usize in Hr. unfold usize_add. destruct Hwf. lia.
Qed.

Lemma reader_wf_read {T : Type} `{TriviallyCopyable T} (r : BufferReader.t) :
  reader_wf usize_bits r -> 0 <= sizeof ->
  reader_wf usize_bits (BufferReader.read usize_bits r).2.
Proof.
  intros Hwf H0.
  destruct (Z.lt_ge_cases (BufferReader.remaining usize_bits r) sizeof) as [Hlt|Hge].
  - by rewrite reader_read_insufficient.
  - rewrite reader_read_sufficient by (try assumption; lia).
    rewrite (reader_remaining_exact r Hwf) in Hge.
    apply reader_wf_set_pos; [assumption|]. destruct Hwf. lia.
Qed.

Lemma reader_wf_readString (r : BufferReader.t) (len : Z) :
  reader_wf usize_bits r -> 0 <= len ->
  reader_wf usize_bits (BufferReader.readString usize_bits r len).2.
Proof.
  intros Hwf H0. unfold BufferReader.readString.
  rewrite (reader_remaining_exact r Hwf).
  destruct (Z.ltb_spec (BufferReader.size r - BufferReader.m_pos r) len);
    [assumption|].
  apply reader_wf_set_pos; [assumption|]. destruct Hwf.
  unfold usize_add, usize_wrap. rewrite Z.mod_small; lia.
Qed.

Lemma reader_wf_readNullTerminatedString (r : BufferReader.t) :
  reader_wf usize_bits r ->
  reader_wf usize_bits (BufferReader.readNullTerminatedString usize_bits r).2.
Proof.
  intros Hwf. pose proof Hwf as [Hpos Hsz].
  unfold BufferReader.readNullTerminatedString. cbn zeta.
  pose proof (scan_range r
                (BufferReader.scan_fuel (BufferReader.m_pos r) (BufferReader.size r))
                (BufferReader.m_pos r) (BufferReader.size r)
                ltac:(lia) ltac:(lia) Hsz) as Hscan.
  destruct (Z.leb_spec (BufferReader.size r) (BufferReader.scan usize_bits
    (BufferReader.scan_fuel (BufferReader.m_pos r) (BufferReader.size r)) r
    (BufferReader.m_pos r) (BufferReader.size r))).
  - by rewrite reader_set_pos_same.
  - apply reader_wf_set_pos; [assumption|].
    unfold usize_add, usize_wrap. rewrite Z.mod_small; lia.
Qed.

Lemma reader_wf_readNullTerminatedStringMax (r : BufferReader.t) (maxLength : Z) :
  reader_wf usize_bits r ->
  reader_wf usize_bits
    (BufferReader.readNullTerminatedStringMax usize_bits r maxLength).2.
Proof.
  intros Hwf. pose proof Hwf as [Hpos Hsz].
  unfold BufferReader.readNullTerminatedStringMax. cbn zeta.
  set (limit := Z.min _ (BufferReader.size r)).
  pose proof (scan_range r (BufferReader.scan_fuel (BufferReader.m_pos r) limit)
                (BufferReader.m_pos r) limit
                ltac:(lia) ltac:(unfold limit; lia) Hsz) as Hscan.
  set (pos := BufferReader.scan usize_bits _ r _ limit) in *.
  assert (pos <= BufferReader.size r) by (unfold limit in Hscan; lia).
  destruct (Z.ltb_spec pos (BufferReader.size r)); cbn [andb];
    [|apply reader_wf_set_pos; [assumption|lia]].
  destruct (BufferReader.byte_at r pos) as [b|];
    [|apply reader_wf_set_pos; [assumption|lia]].
  destruct (byte_is_zero b); apply reader_wf_set_pos; try assumption; [|lia].
  unfold usize_add, usize_wrap. rewrite Z.mod_small; lia.
Qed.

(** C10.  When four bytes remain and the length they decode to exceeds
    what remains after them, [readLengthPrefixedString()] returns none
    with the position advanced by 4: the prefix stays consumed.  Its
    other failure, fewer than four bytes remaining, leaves the reader as
    it was, as do the failures of [read<T>()] and of the unbounded
    [readNullTerminatedString()]. *)
Theorem reader_length_prefix_consumed (r : BufferReader.t) :
  reader_wf usize_bits r -> 32 <= usize_bits ->
  (4 <= BufferReader.remaining usize_bits r ->
   BufferReader.remaining usize_bits r - 4
   < u32_from_bytes native_big
       (BufferReader.bytes_at r (BufferReader.position r) 4) ->
   BufferReader.readLengthPrefixedString usize_bits native_big r
   = (None, BufferReader.set_pos r (BufferReader.position r + 4))) /\
  (BufferReader.remaining usize_bits r < 4 ->
   BufferReader.readLengthPrefixedString usize_bits native_big r = (None, r) /\
   BufferReader.read (H := u32_copyable native_big) usize_bits r = (None, r)) /\
  (no_zero_in r (BufferReader.position r) (BufferReader.size r) ->
   BufferReader.readNullTerminatedString usize_bits r = (None, r)).
Proof.
  intros Hwf Hbits. unfold BufferReader.position.
  split; [|split; [|by apply reader_nts_no_zero]].
  - intros Hrem Hlen. unfold BufferReader.readLengthPrefixedString.
    rewrite (reader_read_sufficient (H := u32_copyable native_big) r Hwf)
      by (cbn; lia).
    cbn [sizeof from_bytes u32_copyable].
    set (len := u32_from_bytes native_big _) in *.
    assert (Hrange : 0 <= len < 2 ^ 32).
    { unfold len, u32_from_bytes.
      rewrite (reader_remaining_exact r Hwf) in Hrem.
      destruct Hwf as [Hpos Hsz].
      pose proof (reader_bytes_at_length r (BufferReader.m_pos r) 4
                    ltac:(lia) ltac:(lia) ltac:(lia)) as Hl.
      set (bs := BufferReader.bytes_at r (BufferReader.m_pos r) 4) in *.
      pose proof (le_value_range (if native_big then reverse bs else bs)) as Hv.
      replace (8 * Z.of_nat (length (if native_big then reverse bs else bs)))
        with 32 in Hv; [exact Hv|].
      destruct native_big; rewrite ?length_reverse; lia. }
    assert (Hpow : 2 ^ 32 <= usize_modulus usize_bits).
    { unfold usize_modulus. apply Z.pow_le_mono_r; lia. }
    rewrite (reader_remaining_exact r Hwf) in Hrem, Hlen.
    destruct Hwf as [Hpos Hsz].
    unfold BufferReader.readString, BufferReader.remaining, usize_sub, usize_wrap.
    rewrite reader_size_set_pos.
    cbn [BufferReader.set_pos BufferReader.m_pos].
    rewrite !Z.mod_small by lia.
    destruct (Z.ltb_spec (BufferReader.size r - (BufferReader.m_pos r + 4)) len);
      [reflexivity|lia].
  - intros Hlt.
    pose proof (reader_read_insufficient (H := u32_copyable native_big) r Hlt)
      as Hread.
    split; [|exact Hread].
    unfold BufferReader.readLengthPrefixedString. by rewrite Hread.
Qed.
End ReaderFacts.

(** A check that decides [no_zero_in] on concrete data. *)
Lemma no_zero_in_check (r : BufferReader.t) (lo hi : Z) :
  0 <= lo ->
  forallb (fun b => negb (byte_is_zero b)) (BufferReader.bytes_at r lo (hi - lo))
  = true ->
  no_zero_in r lo hi.
Proof.
  intros Hlo Hall i Hi (b & Hb & Hz).
  rewrite forallb_forall in Hall.
  assert (Hin : In b (BufferReader.bytes_at r lo (hi - lo))).
  { apply list_elem_of_In. apply list_elem_of_lookup.
    exists (Z.to_nat (i - lo)). unfold BufferReader.bytes_at.
    rewrite lookup_take_lt by lia. rewrite lookup_drop.
    unfold BufferReader.byte_at in Hb.
    replace (Z.to_nat lo + Z.to_nat (i - lo))%nat with (Z.to_nat i) by lia.
    exact Hb. }
  apply Hall in Hin. rewrite Hz in Hin. discriminate.
Qed.

Lemma reader_read_fixed_size_witness :
  exists bs r',
    BufferReader.read (H := u32_copyable false) 64
      (BufferReader.create bytes_deadbeef)
    = (Some (from_bytes (TriviallyCopyable := u32_copyable false) bs), r') /\
    bs = bytes_deadbeef /\
    u32_from_bytes false bs = 3735928559 /\
    BufferReader.position r' = 4.
Proof.
  destruct (reader_read_fixed_size (H := u32_copyable false) 64
              (BufferReader.create bytes_deadbeef)) as [Hok _];
    [by_compute|by_compute|].
  destruct Hok as (bs & r' & Hread & Hbs & _ & _ & Hpos); [by_compute|].
  exists bs, r'. split; [exact Hread|]. split; [exact Hbs|].
  split; [rewrite Hbs; reflexivity|exact Hpos].
Defined.

Lemma reader_unbounded_null_terminated_witness :
  BufferReader.readNullTerminatedString 64 (BufferReader.create bytes_abcdefghij)
  = (None, BufferReader.create bytes_abcdefghij) /\
  BufferReader.readNullTerminatedString 64 (BufferReader.create bytes_abcde_0_ghij)
  = (Some ["a"; "b"; "c"; "d"; "e"]%byte,
     BufferReader.mk bytes_abcde_0_ghij 6).
Proof.
  split.
  - apply (reader_unbounded_null_terminated 64 (BufferReader.create bytes_abcdefghij));
      [by_compute|].
    apply no_zero_in_check; [by_compute|reflexivity].
  - apply (proj2 (reader_unbounded_null_terminated 64
                    (BufferReader.create bytes_abcde_0_ghij)
                    ltac:(by_compute)) 5);
      [by_compute|by exists "000"%byte|].
    apply no_zero_in_check; [by_compute|reflexivity].
Defined.

(** The scenario of the specification: ten bytes without a zero,
    [maxLength = 5], position 0. *)
Lemma reader_bounded_null_terminated_witness :
  BufferReader.readNullTerminatedStringMax 64
    (BufferReader.create bytes_abcdefghij) 5
  = (Some ["a"; "b"; "c"; "d"; "e"]%byte, BufferReader.mk bytes_abcdefghij 5) /\
  Z.of_nat (length ["a"; "b"; "c"; "d"; "e"]%byte) = 5.
Proof.
  apply (reader_bounded_null_terminated 64 (BufferReader.create bytes_abcdefghij) 5 5);
    [by_compute|lia
    |by_compute|reflexivity|].
  apply no_zero_in_check; [by_compute|reflexivity].
Defined.

(** C5, as stated, fails when the byte right after the window is zero:
    no zero byte lies in the window [[0, 5)], yet the position ends at 6,
    not at [0 + min(5, remaining())] which is 5. *)
Lemma reader_bounded_read_skips_zero_after_window :
  no_zero_in (BufferReader.create bytes_abcde_0_ghij) 0 5 /\
  BufferReader.readNullTerminatedStringMax 64
    (BufferReader.create bytes_abcde_0_ghij) 5
  = (Some ["a"; "b"; "c"; "d"; "e"]%byte, BufferReader.mk bytes_abcde_0_ghij 6) /\
  ~ (BufferReader.position
       (BufferReader.readNullTerminatedStringMax 64
          (BufferReader.create bytes_abcde_0_ghij) 5).2
     = BufferReader.position (BufferReader.create bytes_abcde_0_ghij)
       + Z.min 5 (BufferReader.remaining 64
                    (BufferReader.create bytes_abcde_0_ghij))).
Proof.
  split; [apply no_zero_in_check; [by_compute|reflexivity]|].
  split; [reflexivity|]. by_compute.
Qed.

Lemma reader_length_prefix_consumed_witness :
  BufferReader.readLengthPrefixedString 64 false
    (BufferReader.create bytes_short_string)
  = (None, BufferReader.mk bytes_short_string 4).
Proof.
  apply (reader_length_prefix_consumed 64 false
           (BufferReader.create bytes_short_string));
    [by_compute|lia|by_compute|by_compute].
Defined.

(** ** Buffer::subspan *)

Section SubspanFacts.
Variable usize_bits : Z.

Lemma buffer_bytes_length (b : Buffer.t) :
  buffer_wf b -> Z.of_nat (length (Buffer.bytes b)) = Buffer.size b.
Proof.
  unfold buffer_wf, Buffer.bytes, Buffer.size, Buffer.capacity,
    StdVector.elements, StdVector.capacity.
  intros Hwf. rewrite length_take. lia.
Qed.

(** C2, as amended.  For [offset <= size()] and a count that is within
    the available length or is [dynamic_extent], [subspan] returns the
    view of exactly [min(count, size() - offset)] bytes starting at
    [offset]; any other count exceeding the available length, like an
    offset beyond [size()], violates the precondition of
    [std::span::subspan] and is not clamped. *)
Theorem buffer_subspan_in_range (b : Buffer.t) (offset count : Z) :
  buffer_wf b -> is_usize usize_bits (Buffer.size b) ->
  0 <= offset -> 0 <= count ->
  (offset <= Buffer.size b ->
   count <= Buffer.size b - offset \/ count = StdSpan.dynamic_extent usize_bits ->
   exists s,
     Buffer.subspan usize_bits b offset count = Some s /\
     s = StdSpan.mk offset (Z.min count (Buffer.size b - offset)) /\
     StdSpan.view (Buffer.bytes b) s
     = take (Z.to_nat (Z.min count (Buffer.size b - offset)))
         (drop (Z.to_nat offset) (Buffer.bytes b)) /\
     Z.of_nat (length (StdSpan.view (Buffer.bytes b) s))
     = Z.min count (Buffer.size b - offset)) /\
  (offset <= Buffer.size b ->
   Buffer.size b - offset < count ->
   count <> StdSpan.dynamic_extent usize_bits ->
   Buffer.subspan usize_bits b offset count = None) /\
  (Buffer.size b < offset ->
   Buffer.subspan usize_bits b offset count = None).
Proof.
  intros Hwf Hsz Hoff Hcount.
  unfold Buffer.subspan, StdSpan.subspan, Buffer.span, StdSpan.dynamic_extent,
    usize_max, is_usize in *.
  cbn [StdSpan.size StdSpan.first].
  split; [|split].
  - intros Hin Hc.
    destruct (Z.leb_spec offset (Buffer.size b)); [cbn [andb]|lia].
    eexists. split; [|split; [reflexivity|split; [reflexivity|]]].
    + destruct (Z.eqb_spec count (usize_modulus usize_bits - 1)) as [->|Hne].
      * cbn [orb]. do 2 f_equal. lia.
      * destruct (Z.leb_spec count (Buffer.size b - offset)); [|lia].
        cbn [orb]. do 2 f_equal. lia.
    + unfold StdSpan.view. cbn [StdSpan.size StdSpan.first].
      rewrite length_take, length_drop.
      pose proof (buffer_bytes_length b Hwf). lia.
  - intros Hin Hbig Hne.
    destruct (Z.leb_spec offset (Buffer.size b)); [cbn [andb]|lia].
    destruct (Z.eqb_spec count (usize_modulus usize_bits - 1)); [contradiction|].
    destruct (Z.leb_spec count (Buffer.size b - offset)); [lia|reflexivity].
  - intros Hout.
    destruct (Z.leb_spec offset (Buffer.size b)); [lia|reflexivity].
Qed.

(** The [Span] class of [types/Span.hpp], which [Buffer] does not use,
    does clamp. *)
Lemma Span_subspan_clamps (s : Span.t) (offset count : Z) :
  is_usize usize_bits (Span.size_ s) -> 0 <= offset <= Span.size_ s ->
  0 <= count <= Span.npos usize_bits ->
  Span.subspan usize_bits s offset count
  = Span.mk (usize_add usize_bits (Span.data_ s) offset)
      (Z.min count (Span.size_ s - offset)).
Proof.
  unfold is_usize, Span.subspan, Span.npos, usize_max. intros Hsz Hoff Hc.
  destruct (Z.ltb_spec (Span.size_ s) offset); [lia|].
  replace (usize_sub usize_bits (Span.size_ s) offset)
    with (Span.size_ s - offset)
    by (unfold usize_sub, usize_wrap; rewrite Z.mod_small; lia).
  f_equal.
  destruct (Z.eqb_spec count (usize_modulus usize_bits - 1)); [lia|].
  destruct (Z.ltb_spec (Span.size_ s - offset) count); lia.
Qed.
End SubspanFacts.

Lemma buffer_subspan_in_range_witness :
  exists s,
    Buffer.subspan 64 (Buffer.of_bytes bytes_abcdefghij) 1 3 = Some s /\
    s = StdSpan.mk 1 3 /\
    StdSpan.view bytes_abcdefghij s = ["b"; "c"; "d"]%byte.
Proof.
  destruct (buffer_subspan_in_range 64 (Buffer.of_bytes bytes_abcdefghij) 1 3)
    as [Hin _]; [by_compute|by_compute|by_compute|by_compute|].
  destruct Hin as (s & Hs & Heq & Hview & _); [by_compute|left; by_compute|].
  exists s. split; [exact Hs|]. split; [exact Heq|].
  rewrite Heq. reflexivity.
Defined.

(** C2, as stated, fails for a count beyond the available length: a
    request of 20 bytes at offset 1 of a 10-byte buffer is outside the
    contract of [std::span::subspan], not a view of [min(20, 9)] bytes. *)
Lemma buffer_subspan_count_not_clamped :
  1 <= Buffer.size (Buffer.of_bytes bytes_abcdefghij) /\
  Buffer.subspan 64 (Buffer.of_bytes bytes_abcdefghij) 1 20 = None /\
  ~ (exists s,
       Buffer.subspan 64 (Buffer.of_bytes bytes_abcdefghij) 1 20 = Some s /\
       StdSpan.size s
       = Z.min 20 (Buffer.size (Buffer.of_bytes bytes_abcdefghij) - 1)).
Proof.
  split; [by_compute|]. split; [reflexivity|].
  intros (s & Hs & _). vm_compute in Hs. discriminate.
Qed.

(** ** BufferWriter followed by BufferReader *)

(** C1.  The bytes [write] copies past the buffer's size are
    value-initialized again by the [resize] of [updateSize]: the buffer
    of the end-to-end scenario holds ten zero bytes, the reader gets 0
    for the [u32] and the empty string, and is not at the end, where the
    round trip would give back 42, ["ok"] and the end of the data. *)
Theorem write_then_read_loses_values (native_big : bool) (uninit : byte) :
  write_then_read 64 native_big uninit 42 bytes_ok
  = Some (Some 0, Some [], false) /\
  write_then_read 64 native_big uninit 42 bytes_ok
  <> Some (Some 42, Some bytes_ok, true) /\
  write_then_read 64 native_big uninit 3735928559 bytes_hello
  = Some (Some 0, Some [], false).
Proof.
  destruct native_big; (split; [reflexivity|split; [|reflexivity]]);
    intros Heq; vm_compute in Heq; discriminate.
Qed.

(** ** std::vector and BufferWriter: what a write at the end leaves *)

Section VectorFacts.
Variable uninit : byte.

Lemma vector_elements_length (v : StdVector.t) :
  vector_wf v -> Z.of_nat (length (StdVector.elements v)) = StdVector.size v.
Proof.
  unfold vector_wf, StdVector.elements, StdVector.capacity. intros Hwf.
  rewrite length_take. lia.
Qed.

Lemma vector_reserve_spec (v : StdVector.t) (n : Z) :
  vector_wf v ->
  StdVector.elements (StdVector.reserve uninit v n) = StdVector.elements v /\
  StdVector.size (StdVector.reserve uninit v n) = StdVector.size v /\
  n <= StdVector.capacity (StdVector.reserve uninit v n) /\
  vector_wf (StdVector.reserve uninit v n).
Proof.
  intros Hwf. pose proof (vector_elements_length v Hwf) as Hlen.
  unfold StdVector.reserve.
  destruct (Z.ltb_spec (StdVector.capacity v) n) as [Hlt|Hge];
    [|repeat split; try apply Hwf; lia].
  unfold vector_wf in *.
  unfold StdVector.elements at 1, StdVector.capacity.
  cbn [StdVector.storage StdVector.size].
  rewrite length_app, length_replicate.
  split; [|repeat split; lia].
  rewrite take_app_le by lia. apply take_ge. lia.
Qed.

Lemma vector_store_spec (v : StdVector.t) (pos : Z) (src : list byte) :
  vector_wf v -> StdVector.size v <= pos ->
  pos + Z.of_nat (length src) <= StdVector.capacity v ->
  exists v',
    StdVector.store v pos src = Some v' /\
    StdVector.elements v' = StdVector.elements v /\
    StdVector.size v' = StdVector.size v /\
    StdVector.capacity v' = StdVector.capacity v.
Proof.
  unfold vector_wf, StdVector.store, StdVector.capacity. intros Hwf Hpos Hfit.
  destruct (Z.leb_spec (pos + Z.of_nat (length src))
              (Z.of_nat (length (StdVector.storage v)))); [|lia].
  eexists. split; [reflexivity|].
  unfold StdVector.elements. cbn [StdVector.storage StdVector.size].
  split; [|split; [reflexivity|]].
  - rewrite take_app_le by (rewrite length_take; lia).
    rewrite take_take. f_equal. lia.
  - rewrite !length_app, length_take, length_drop. lia.
Qed.

Lemma vector_resize_grow (v : StdVector.t) (n : Z) :
  vector_wf v -> StdVector.size v < n <= StdVector.capacity v ->
  StdVector.elements (StdVector.resize uninit v n)
  = StdVector.elements v ++ replicate (Z.to_nat (n - StdVector.size v)) "000"%byte /\
  StdVector.size (StdVector.resize uninit v n) = n /\
  vector_wf (StdVector.resize uninit v n).
Proof.
  intros Hwf Hn. pose proof (vector_elements_length v Hwf) as Hlen.
  unfold StdVector.resize.
  destruct (Z.leb_spec n (StdVector.size v)); [lia|].
  assert (Hres : StdVector.reserve uninit v n = v).
  { unfold StdVector.reserve.
    destruct (Z.ltb_spec (StdVector.capacity v) n); [lia|reflexivity]. }
  rewrite Hres. unfold vector_wf, StdVector.capacity in *.
  unfold StdVector.elements at 1. cbn [StdVector.storage StdVector.size].
  rewrite !length_app, length_replicate, length_drop.
  split; [|split; [reflexivity|lia]].
  rewrite app_assoc. rewrite take_app_le by (rewrite length_app, length_replicate; lia).
  apply take_ge. rewrite length_app, length_replicate. lia.
Qed.
End VectorFacts.

Section WriterFacts.
Variable usize_bits : Z.
Variable native_big : bool.
Variable uninit : byte.

(** A write at the end of the buffer extends it by as many zero bytes
    as were written, whatever the bytes were. *)
Lemma writer_write_raw_at_end (w : BufferWriter.t) (data : list byte) :
  writer_at_end w ->
  BufferWriter.m_pos w + Z.of_nat (length data) < usize_modulus usize_bits ->
  exists w',
    BufferWriter.write_raw usize_bits uninit w data = Some w' /\
    Buffer.bytes (BufferWriter.target w')
    = Buffer.bytes (BufferWriter.target w)
      ++ replicate (length data) "000"%byte /\
    BufferWriter.m_pos w' = BufferWriter.m_pos w + Z.of_nat (length data) /\
    BufferWriter.owned w' = BufferWriter.owned w /\
    writer_at_end w'.
Proof.
  intros [Hwf Hend] Hfit. destruct w as [[v] own pos].
  unfold buffer_wf, Buffer.size, Buffer.capacity, Buffer.bytes in *.
  cbn [BufferWriter.target BufferWriter.m_pos BufferWriter.owned Buffer.m_data] in *.
  subst pos. fold (vector_wf v) in Hwf.
  set (n := Z.of_nat (length data)) in *.
  assert (Hsum : usize_add usize_bits (StdVector.size v) n = StdVector.size v + n).
  { unfold usize_add, usize_wrap. apply Z.mod_small. unfold vector_wf in Hwf. lia. }
  unfold BufferWriter.write_raw. cbn zeta.
  cbn [BufferWriter.m_pos]. fold n. rewrite Hsum.
  (* ensureCapacity *)
  set (w1 := BufferWriter.ensureCapacity usize_bits uninit _ _).
  assert (H1 : exists v1, w1 = BufferWriter.mk (Buffer.mk v1) own (StdVector.size v) /\
            StdVector.elements v1 = StdVector.elements v /\
            StdVector.size v1 = StdVector.size v /\
            StdVector.size v + n <= StdVector.capacity v1 /\ vector_wf v1).
  { unfold w1, BufferWriter.ensureCapacity, Buffer.capacity, Buffer.reserve.
    cbn [BufferWriter.target BufferWriter.m_pos BufferWriter.owned Buffer.m_data].
    destruct (Z.ltb_spec (StdVector.capacity v) (StdVector.size v + n)).
    - eexists. split; [reflexivity|].
      destruct (vector_reserve_spec uninit v
                  (Z.max (StdVector.size v + n)
                     (usize_mul usize_bits (StdVector.capacity v) 2)) Hwf)
        as (He & Hs & Hc & Hw).
      repeat split; try assumption; try apply Hw. lia.
    - exists v. repeat split; try apply Hwf. lia. }
  destruct H1 as (v1 & -> & He1 & Hs1 & Hc1 & Hwf1).
  cbn [BufferWriter.target BufferWriter.m_pos BufferWriter.owned Buffer.m_data].
  rewrite Hsum.
  destruct (vector_store_spec v1 (StdVector.size v) data Hwf1 ltac:(lia) ltac:(fold n; lia))
    as (v2 & Hstore & He2 & Hs2 & Hc2).
  rewrite Hstore. cbn [mbind option_bind].
  eexists. split; [reflexivity|].
  assert (Hwf2 : vector_wf v2) by (unfold vector_wf in *; lia).
  unfold BufferWriter.updateSize, Buffer.size, Buffer.resize.
  cbn [BufferWriter.target BufferWriter.m_pos BufferWriter.owned Buffer.m_data].
  rewrite Hs2, Hs1.
  destruct (Z.ltb_spec (StdVector.size v) (StdVector.size v + n)) as [Hgrow|Hsame];
    cbn [BufferWriter.target BufferWriter.m_pos BufferWriter.owned Buffer.m_data].
  - destruct (vector_resize_grow uninit v2 (StdVector.size v + n) Hwf2 ltac:(lia))
      as (He3 & Hs3 & Hwf3).
    rewrite He3, He2, He1, Hs2, Hs1.
    replace (Z.to_nat (StdVector.size v + n - StdVector.size v)) with (length data)
      by (unfold n; lia).
    repeat split; try apply Hwf3.
    unfold Buffer.size. cbn [BufferWriter.target BufferWriter.m_pos Buffer.m_data].
    by rewrite Hs3.
  - assert (length data = 0%nat) as Hnil by (unfold n in *; lia).
    rewrite Hnil, app_nil_r, He2, He1.
    repeat split; try apply Hwf2.
    unfold Buffer.size. cbn [BufferWriter.target BufferWriter.m_pos Buffer.m_data].
    unfold n in *. lia.
Qed.
End WriterFacts.

Section ScenarioFacts.
Variable usize_bits : Z.
Variable native_big : bool.
Variable uninit : byte.

Lemma length_le_bytes (n : nat) (v : Z) : length (le_bytes n v) = n.
Proof. revert v. induction n as [|n IH]; intros v; cbn; [|rewrite IH]; done. Qed.

Lemma length_u32_to_bytes (v : Z) : length (u32_to_bytes native_big v) = 4%nat.
Proof.
  unfold u32_to_bytes. destruct native_big;
    rewrite ?length_reverse; apply length_le_bytes.
Qed.

Lemma take_drop_replicate {A : Type} (x : A) (m p k : nat) :
  (p + k <= m)%nat -> take k (drop p (replicate m x)) = replicate k x.
Proof.
  intros Hle. rewrite drop_replicate, take_replicate. f_equal. lia.
Qed.

Lemma u32_from_zero_bytes :
  u32_from_bytes native_big (replicate 4 "000"%byte) = 0.
Proof. unfold u32_from_bytes. destruct native_big; reflexivity. Qed.

Lemma fromLittleEndian32_zero : fromLittleEndian32 native_big 0 = 0.
Proof. unfold fromLittleEndian32, toLittleEndian32. destruct native_big; reflexivity. Qed.

(** On a buffer of zero bytes the reader of the scenario gets 0, the
    empty string, and is at the end only if nothing follows the prefix. *)
Lemma read_scenario_on_zeros (m : nat) :
  32 <= usize_bits ->
  8 + Z.of_nat m < usize_modulus usize_bits ->
  let r := BufferReader.create (replicate (8 + m) "000"%byte) in
  exists r1 r2,
    BufferReader.readU32 usize_bits native_big r = (Some 0, r1) /\
    BufferReader.readLengthPrefixedString usize_bits native_big r1
    = (Some [], r2) /\
    BufferReader.eof r2 = (m =? 0)%nat.
Proof.
  intros Hbits Hfit r.
  assert (Hsize : forall p, BufferReader.size (BufferReader.set_pos r p)
                            = 8 + Z.of_nat m).
  { intros p. unfold BufferReader.size. cbn [BufferReader.set_pos BufferReader.m_data r
      BufferReader.create]. rewrite length_replicate. lia. }
  assert (Hwf : forall p, 0 <= p <= 8 ->
            reader_wf usize_bits (BufferReader.set_pos r p)).
  { intros p Hp. unfold reader_wf. rewrite Hsize.
    cbn [BufferReader.set_pos BufferReader.m_pos]. lia. }
  assert (Hbytes : forall p, 0 <= p <= 4 ->
            BufferReader.bytes_at (BufferReader.set_pos r p) p 4
            = replicate 4 "000"%byte).
  { intros p Hp. unfold BufferReader.bytes_at.
    cbn [BufferReader.set_pos BufferReader.m_data r BufferReader.create].
    apply take_drop_replicate. lia. }
  assert (Hread : forall p, 0 <= p <= 4 ->
            BufferReader.read (H := u32_copyable native_big) usize_bits
              (BufferReader.set_pos r p)
            = (Some 0, BufferReader.set_pos r (p + 4))).
  { intros p Hp.
    rewrite (reader_read_sufficient usize_bits (H := u32_copyable native_big)
               (BufferReader.set_pos r p) (Hwf p ltac:(lia)) ltac:(cbn; lia)).
    - cbn [sizeof from_bytes u32_copyable BufferReader.m_pos BufferReader.set_pos].
      rewrite Hbytes by lia. by rewrite u32_from_zero_bytes.
    - rewrite (reader_remaining_exact usize_bits _ (Hwf p ltac:(lia))), Hsize.
      cbn. lia. }
  exists (BufferReader.set_pos r 4), (BufferReader.set_pos r 8).
  split; [|split].
  - unfold BufferReader.readU32.
    change r with (BufferReader.set_pos r 0) at 1.
    rewrite (Hread 0) by lia. by rewrite fromLittleEndian32_zero.
  - unfold BufferReader.readLengthPrefixedString.
    rewrite (Hread 4) by lia. change (4 + 4) with 8.
    unfold BufferReader.readString.
    rewrite (reader_remaining_exact usize_bits _ (Hwf 8 ltac:(lia))), Hsize.
    cbn [BufferReader.set_pos BufferReader.m_pos].
    assert (Hw0 : usize_wrap usize_bits 0 = 0).
    { unfold usize_wrap. apply Z.mod_0_l.
      pose proof (usize_modulus_pos usize_bits ltac:(lia)). lia. }
    rewrite Hw0.
    destruct (Z.ltb_spec (8 + Z.of_nat m - 8) 0); [lia|].
    unfold usize_add, usize_wrap. rewrite Z.mod_small by lia.
    reflexivity.
  - unfold BufferReader.eof. rewrite Hsize.
    cbn [BufferReader.set_pos BufferReader.m_pos].
    destruct (Z.leb_spec (8 + Z.of_nat m) 8), (Nat.eqb_spec m 0); lia || reflexivity.
Qed.

(** For every value and every string that fits, the scenario reads back
    0 and the empty string: the round trip holds for [v = 0] and the
    empty string only. *)
Lemma write_then_read_zeroes (v : Z) (s : list byte) :
  32 <= usize_bits ->
  8 + Z.of_nat (length s) < usize_modulus usize_bits ->
  write_then_read usize_bits native_big uninit v s
  = Some (Some 0, Some [], (length s =? 0)%nat).
Proof.
  intros Hbits Hfit. unfold write_then_read.
  assert (H0 : writer_at_end BufferWriter.create) by (split; by_compute).
  unfold BufferWriter.writeU32, BufferWriter.write.
  destruct (writer_write_raw_at_end usize_bits uninit BufferWriter.create
              (to_bytes (TriviallyCopyable := u32_copyable native_big)
                 (toLittleEndian32 native_big v)) H0)
    as (w1 & -> & Hb1 & Hp1 & Ho1 & He1).
  { cbn [to_bytes u32_copyable]. rewrite length_u32_to_bytes.
    cbn [BufferWriter.m_pos BufferWriter.create]. lia. }
  cbn [to_bytes u32_copyable BufferWriter.m_pos BufferWriter.create] in Hb1, Hp1.
  rewrite length_u32_to_bytes in Hb1, Hp1.
  cbn [mbind option_bind].
  unfold BufferWriter.writeLengthPrefixedString, BufferWriter.write.
  destruct (writer_write_raw_at_end usize_bits uninit w1
              (to_bytes (TriviallyCopyable := u32_copyable native_big)
                 (to_u32 (Z.of_nat (length s)))) He1)
    as (w2 & -> & Hb2 & Hp2 & Ho2 & He2).
  { cbn [to_bytes u32_copyable]. rewrite length_u32_to_bytes, Hp1. lia. }
  cbn [to_bytes u32_copyable] in Hb2, Hp2.
  rewrite length_u32_to_bytes in Hb2, Hp2.
  cbn [mbind option_bind].
  destruct (writer_write_raw_at_end usize_bits uninit w2 s He2)
    as (w3 & -> & Hb3 & Hp3 & Ho3 & He3); [rewrite Hp2, Hp1; lia|].
  cbn [mbind option_bind].
  assert (Hbuf : BufferWriter.toBuffer w3 = BufferWriter.target w3).
  { unfold BufferWriter.toBuffer. rewrite Ho3, Ho2, Ho1. reflexivity. }
  rewrite Hbuf.
  assert (Hzeros : Buffer.bytes (BufferWriter.target w3)
                   = replicate (8 + length s) "000"%byte).
  { rewrite Hb3, Hb2, Hb1. cbn [Buffer.bytes StdVector.elements BufferWriter.create
      BufferWriter.target Buffer.empty Buffer.m_data StdVector.empty StdVector.storage take].
    change (8 + length s)%nat with (4 + (4 + length s))%nat.
    by rewrite !replicate_add. }
  assert (Hview : StdSpan.view (Buffer.bytes (BufferWriter.target w3))
                    (Buffer.span (BufferWriter.target w3))
                  = replicate (8 + length s) "000"%byte).
  { unfold StdSpan.view, Buffer.span. cbn [StdSpan.size StdSpan.first].
    destruct He3 as [Hwf3 _].
    rewrite <- (buffer_bytes_length _ Hwf3), Hzeros.
    rewrite Nat2Z.id. cbn [Z.to_nat drop]. apply take_ge. lia. }
  rewrite Hview.
  destruct (read_scenario_on_zeros (length s) Hbits Hfit)
    as (r1 & r2 & Hr1 & Hr2 & Heof).
  cbn zeta in Hr1. rewrite Hr1, Hr2, Heof. reflexivity.
Qed.
End ScenarioFacts.

(** ** The object representation of a u32 *)

Lemma byte_to_Z_of_Z (z : Z) : byte_to_Z (Z_to_byte z) = z mod 256.
Proof.
  unfold byte_to_Z, Z_to_byte.
  pose proof (Z.mod_pos_bound z 256 ltac:(lia)) as Hr.
  destruct (Byte.of_N (Z.to_N (z mod 256))) as [b|] eqn:E; unfold default; cbn [from_option id].
  - apply Byte.to_of_N in E. rewrite E. lia.
  - apply Byte.of_N_None_iff in E. lia.
Qed.

Lemma Z_to_byte_to_Z (b : byte) : Z_to_byte (byte_to_Z b) = b.
Proof.
  unfold byte_to_Z, Z_to_byte.
  pose proof (Byte.to_N_bounded b) as Hb.
  rewrite Z.mod_small by lia. by rewrite N2Z.id, Byte.of_to_N.
Qed.

Lemma le_value_cons_low (b : byte) (t : Z) :
  0 <= t -> Z.lor (byte_to_Z b) (Z.shiftl t 8) = byte_to_Z b + 256 * t.
Proof.
  intros Ht. pose proof (byte_to_Z_range b) as Hb.
  rewrite Z.shiftl_mul_pow2 by lia.
  assert (Hland : Z.land (byte_to_Z b) (t * 2 ^ 8) = 0).
  { apply Z.bits_inj'. intros i Hi. rewrite Z.land_spec, Z.bits_0.
    destruct (Z.lt_ge_cases i 8).
    - rewrite Z.mul_pow2_bits_low by lia. apply andb_false_r.
    - rewrite (Z.bits_above_log2 (byte_to_Z b)); [reflexivity|lia|].
      destruct (Z.eq_dec (byte_to_Z b) 0) as [->|]; [cbn; lia|].
      apply Z.lt_le_trans with 8; [|lia].
      apply Z.log2_lt_pow2; [lia|]. change (2 ^ 8) with 256. lia. }
  rewrite <- Z.lxor_lor by exact Hland.
  rewrite <- Z.add_nocarry_lxor by exact Hland.
  change (2 ^ 8) with 256. lia.
Qed.

Lemma le_value_le_bytes (n : nat) (v : Z) :
  le_value (le_bytes n v) = v mod 2 ^ (8 * Z.of_nat n).
Proof.
  revert v. induction n as [|n IH]; intros v; cbn [le_bytes le_value].
  - cbn. by rewrite Z.mod_1_r.
  - rewrite IH, byte_to_Z_of_Z.
    assert (Hp : 0 < 2 ^ (8 * Z.of_nat n)) by (apply Z.pow_pos_nonneg; lia).
    pose proof (Z.mod_pos_bound (Z.shiftr v 8) (2 ^ (8 * Z.of_nat n)) Hp).
    pose proof (le_value_cons_low (Z_to_byte v)
                  (Z.shiftr v 8 mod 2 ^ (8 * Z.of_nat n)) ltac:(lia)) as Hc.
    rewrite byte_to_Z_of_Z in Hc. rewrite Hc.
    rewrite Z.shiftr_div_pow2 by lia. change (2 ^ 8) with 256.
    replace (8 * Z.of_nat (S n)) with (8 + 8 * Z.of_nat n) by lia.
    rewrite Z.pow_add_r by lia. change (2 ^ 8) with 256.
    rewrite Z.rem_mul_r by lia. reflexivity.
Qed.

Lemma le_bytes_le_value (l : list byte) :
  le_bytes (length l) (le_value l) = l.
Proof.
  induction l as [|b t IH]; cbn [le_bytes le_value length]; [reflexivity|].
  pose proof (le_value_range t) as [Ht _].
  pose proof (byte_to_Z_range b) as Hb.
  rewrite le_value_cons_low by exact Ht.
  rewrite Z.shiftr_div_pow2 by lia. change (2 ^ 8) with 256.
  f_equal.
  - rewrite <- (Z_to_byte_to_Z b) at 2. unfold Z_to_byte. do 3 f_equal.
    replace (byte_to_Z b + 256 * le_value t)
      with (byte_to_Z b + le_value t * 256) by lia.
    by rewrite Z.mod_add by lia.
  - replace ((byte_to_Z b + 256 * le_value t) / 256) with (le_value t);
      [exact IH|].
    replace (byte_to_Z b + 256 * le_value t)
      with (byte_to_Z b + le_value t * 256) by lia.
    rewrite Z.div_add by lia. rewrite Z.div_small by lia. lia.
Qed.

Section U32Facts.
Variable native_big : bool.

(** What [memcpy] stores for a [u32] is what it loads back. *)
Lemma u32_from_to_bytes (v : Z) :
  0 <= v < 2 ^ 32 -> u32_from_bytes native_big (u32_to_bytes native_big v) = v.
Proof.
  intros Hv. unfold u32_from_bytes, u32_to_bytes.
  destruct native_big; rewrite ?reverse_involutive, le_value_le_bytes;
    apply Z.mod_small; exact Hv.
Qed.

Lemma byteSwap32_range (v : Z) : 0 <= byteSwap32 v < 2 ^ 32.
Proof.
  unfold byteSwap32.
  pose proof (le_value_range (reverse (le_bytes 4 v))) as Hr.
  rewrite length_reverse, length_le_bytes in Hr. exact Hr.
Qed.

Lemma byteSwap32_involutive (v : Z) :
  0 <= v < 2 ^ 32 -> byteSwap32 (byteSwap32 v) = v.
Proof.
  intros Hv. unfold byteSwap32.
  pose proof (le_bytes_le_value (reverse (le_bytes 4 v))) as Hl.
  rewrite length_reverse, length_le_bytes in Hl.
  rewrite Hl, reverse_involutive, le_value_le_bytes.
  apply Z.mod_small. exact Hv.
Qed.

(** [readU32] undoes [writeU32] on the four bytes themselves. *)
Lemma u32_wire_round_trip (v : Z) :
  0 <= v < 2 ^ 32 ->
  fromLittleEndian32 native_big
    (u32_from_bytes native_big
       (u32_to_bytes native_big (toLittleEndian32 native_big v))) = v.
Proof.
  intros Hv. rewrite u32_from_to_bytes.
  - unfold fromLittleEndian32, toLittleEndian32.
    destruct native_big; [by apply byteSwap32_involutive|reflexivity].
  - unfold toLittleEndian32.
    destruct native_big; [apply byteSwap32_range|exact Hv].
Qed.
End U32Facts.

(** ** Writes inside the buffer's current size *)

Lemma take_overwrite {A : Type} (st data : list A) (p s : nat) :
  (p + length data <= s)%nat -> (s <= length st)%nat ->
  take s (take p st ++ data ++ drop (p + length data) st)
  = take p (take s st) ++ data ++ drop (p + length data) (take s st).
Proof.
  intros Hps Hs.
  rewrite take_take. replace (p `min` s)%nat with p by lia.
  rewrite take_app, take_app, length_take.
  rewrite take_take. replace (s `min` p)%nat with p by lia.
  replace (p `min` length st)%nat with p by lia.
  rewrite (take_ge data) by lia.
  do 2 f_equal.
  rewrite take_drop_commute. do 2 f_equal. lia.
Qed.

Section InPlaceFacts.
Variable usize_bits : Z.
Variable native_big : bool.
Variable uninit : byte.

(** A write that ends within the buffer's size overwrites in place: no
    growth, no [resize], and the bytes written are the bytes held. *)
Lemma writer_write_raw_in_place (w : BufferWriter.t) (data : list byte) :
  buffer_wf (BufferWriter.target w) ->
  0 <= BufferWriter.m_pos w ->
  BufferWriter.m_pos w + Z.of_nat (length data)
    <= Buffer.size (BufferWriter.target w) ->
  Buffer.size (BufferWriter.target w) < usize_modulus usize_bits ->
  exists w',
    BufferWriter.write_raw usize_bits uninit w data = Some w' /\
    Buffer.bytes (BufferWriter.target w')
    = take (Z.to_nat (BufferWriter.m_pos w)) (Buffer.bytes (BufferWriter.target w))
      ++ data
      ++ drop (Z.to_nat (BufferWriter.m_pos w) + length data)
           (Buffer.bytes (BufferWriter.target w)) /\
    BufferWriter.m_pos w' = BufferWriter.m_pos w + Z.of_nat (length data) /\
    Buffer.size (BufferWriter.target w') = Buffer.size (BufferWriter.target w).
Proof.
  destruct w as [[[st sz]] own pos].
  unfold buffer_wf, Buffer.size, Buffer.capacity, Buffer.bytes, StdVector.capacity,
    StdVector.elements.
  cbn [BufferWriter.target BufferWriter.m_pos Buffer.m_data StdVector.size
       StdVector.storage].
  intros Hwf Hpos Hfit HM.
  unfold BufferWriter.write_raw, BufferWriter.ensureCapacity, Buffer.capacity,
    StdVector.capacity.
  cbn [BufferWriter.target BufferWriter.m_pos BufferWriter.owned Buffer.m_data
       StdVector.size StdVector.storage].
  assert (Hsum : usize_add usize_bits pos (Z.of_nat (length data))
                 = pos + Z.of_nat (length data)).
  { unfold usize_add, usize_wrap. apply Z.mod_small. lia. }
  rewrite Hsum.
  destruct (Z.ltb_spec (Z.of_nat (length st)) (pos + Z.of_nat (length data)));
    [lia|].
  unfold StdVector.store, StdVector.capacity.
  cbn [BufferWriter.target BufferWriter.m_pos BufferWriter.owned Buffer.m_data
       StdVector.size StdVector.storage].
  destruct (Z.leb_spec (pos + Z.of_nat (length data)) (Z.of_nat (length st)));
    [|lia].
  cbn [mbind option_bind].
  unfold BufferWriter.updateSize, Buffer.size.
  cbn [BufferWriter.target BufferWriter.m_pos BufferWriter.owned Buffer.m_data
       StdVector.size StdVector.storage].
  rewrite ?Hsum.
  destruct (Z.ltb_spec sz (pos + Z.of_nat (length data))); [lia|].
  eexists. split; [reflexivity|].
  cbn [BufferWriter.target BufferWriter.m_pos BufferWriter.owned Buffer.m_data
       StdVector.size StdVector.storage].
  split; [|split; reflexivity].
  apply take_overwrite; lia.
Qed.

(** Inside the buffer's current size the [u32] round trip holds:
    [writeU32(v)] followed by [readU32()] at the same position gives
    [v]. *)
Lemma writeU32_in_place_read_back (w : BufferWriter.t) (v : Z) :
  buffer_wf (BufferWriter.target w) ->
  0 <= BufferWriter.m_pos w ->
  BufferWriter.m_pos w + 4 <= Buffer.size (BufferWriter.target w) ->
  Buffer.size (BufferWriter.target w) < usize_modulus usize_bits ->
  0 <= v < 2 ^ 32 ->
  exists w',
    BufferWriter.writeU32 usize_bits native_big uninit w v = Some w' /\
    BufferReader.readU32 usize_bits native_big
      (BufferReader.mk (Buffer.bytes (BufferWriter.target w'))
         (BufferWriter.m_pos w))
    = (Some v,
       BufferReader.mk (Buffer.bytes (BufferWriter.target w'))
         (BufferWriter.m_pos w + 4)).
Proof.
  intros Hwf Hpos Hfit HM Hv.
  pose proof (buffer_bytes_length _ Hwf) as Hlen.
  unfold BufferWriter.writeU32, BufferWriter.write.
  cbn [to_bytes u32_copyable].
  set (data := u32_to_bytes native_big (toLittleEndian32 native_big v)).
  assert (Hdata : length data = 4%nat) by apply length_u32_to_bytes.
  destruct (writer_write_raw_in_place w data Hwf Hpos) as (w' & Hw & Hb & _ & _);
    [rewrite Hdata; lia|assumption|].
  exists w'. split; [exact Hw|]. rewrite Hb.
  set (bs := take _ _ ++ data ++ drop _ _).
  assert (Hbs : Z.of_nat (length bs) = Buffer.size (BufferWriter.target w)).
  { unfold bs. rewrite !length_app, length_take, length_drop. lia. }
  set (r := BufferReader.mk bs (BufferWriter.m_pos w)).
  assert (Hrwf : reader_wf usize_bits r).
  { unfold reader_wf, BufferReader.size. cbn [r BufferReader.m_pos BufferReader.m_data].
    lia. }
  unfold BufferReader.readU32.
  rewrite (reader_read_sufficient usize_bits (H := u32_copyable native_big) r Hrwf)
    by (try (cbn; lia);
        rewrite (reader_remaining_exact usize_bits r Hrwf);
        unfold BufferReader.size; cbn; lia).
  cbn [sizeof from_bytes u32_copyable BufferReader.m_pos r BufferReader.set_pos
       BufferReader.m_data].
  assert (Hat : BufferReader.bytes_at r (BufferWriter.m_pos w) 4 = data).
  { unfold BufferReader.bytes_at. cbn [r BufferReader.m_data]. unfold bs.
    rewrite drop_app_length' by (rewrite length_take; lia).
    apply take_app_length'. rewrite Hdata. reflexivity. }
  rewrite Hat. unfold data. by rewrite u32_wire_round_trip.
Qed.
End InPlaceFacts.

(** * Further properties *)

(** ** alignDown, isAligned, alignPtr *)

Section AlignFacts.
Variable usize_bits : Z.

(** A power-of-two [usize] in exponent form, with the width it needs. *)
Lemma usize_pow2_inv (s : Z) :
  is_usize usize_bits s -> isPowerOfTwo s = true ->
  exists k, s = 2 ^ k /\ 0 <= k < usize_bits /\ 0 < 2 ^ k.
Proof.
  intros Hs Hp. destruct (isPowerOfTwo_inv s Hp) as (k & Hk & ->).
  assert (Hs0 : 0 < 2 ^ k) by (apply Z.pow_pos_nonneg; lia).
  assert (Hw : 0 <= usize_bits).
  { destruct (Z.lt_ge_cases usize_bits 0) as [Hneg|]; [|assumption].
    unfold is_usize, usize_modulus in Hs.
    rewrite (Z.pow_neg_r 2 usize_bits) in Hs by lia. lia. }
  exists k. split; [reflexivity|]. split; [|assumption].
  split; [assumption|].
  eapply pow2_usize_exponent; [..|apply Hs]; lia.
Qed.

Lemma alignDown_pow2 (v k : Z) :
  0 <= k < usize_bits -> is_usize usize_bits v ->
  alignDown usize_bits v (2 ^ k) = Some (2 ^ k * (v / 2 ^ k)).
Proof.
  intros Hk Hv. unfold alignDown. rewrite isPowerOfTwo_pow2 by lia.
  f_equal. apply usize_and_not_mask; [lia|assumption|assumption].
Qed.

(** [alignDown] on a power of two is the largest multiple below. *)
Lemma alignDown_floor (v s : Z) :
  is_usize usize_bits v -> is_usize usize_bits s -> isPowerOfTwo s = true ->
  0 < s /\ alignDown usize_bits v s = Some (s * (v / s)).
Proof.
  intros Hv Hs Hp. destruct (usize_pow2_inv s Hs Hp) as (k & -> & Hk & Hpos).
  split; [assumption|]. by apply alignDown_pow2.
Qed.

(** [alignDown] rounds down to a multiple of the alignment: the result
    is aligned, not above the value and less than one alignment below
    it. *)
Theorem alignDown_aligned_and_bounded (v s : Z) :
  is_usize usize_bits v -> is_usize usize_bits s -> isPowerOfTwo s = true ->
  exists r, alignDown usize_bits v s = Some r /\
    r mod s = 0 /\ 0 <= r <= v /\ v - r < s.
Proof.
  intros Hv Hs Hp. destruct (alignDown_floor v s Hv Hs Hp) as [Hpos Hd].
  eexists. split; [exact Hd|].
  unfold is_usize in Hv.
  pose proof (Z.div_mod v s ltac:(lia)).
  pose proof (Z.mod_pos_bound v s Hpos).
  assert (0 <= v / s) by (apply Z.div_pos; lia).
  split; [rewrite Z.mul_comm; apply Z.mod_mul; lia|]. nia.
Qed.

(** The aligned values are exactly the fixed points of [alignUp] and of
    [alignDown]. *)
Theorem align_fixed_points (v s : Z) :
  is_usize usize_bits v -> is_usize usize_bits s -> isPowerOfTwo s = true ->
  (alignUp usize_bits v s = Some v <-> v mod s = 0) /\
  (alignDown usize_bits v s = Some v <-> v mod s = 0).
Proof.
  intros Hv Hs Hp.
  destruct (alignUp_cases usize_bits v s Hv Hs Hp) as (r & Hr & Hmod & Hcase).
  destruct (alignDown_floor v s Hv Hs Hp) as [_ Hd].
  destruct (usize_pow2_inv s Hs Hp) as (k & -> & Hk & Hpos).
  unfold is_usize in *.
  assert (Hmult : forall a b, a mod 2 ^ k = 0 -> b mod 2 ^ k = 0 ->
                  0 <= b - a < 2 ^ k -> a = b).
  { intros a b Ha Hb Hab.
    apply Z.mod_divide in Ha as [qa ->]; [|lia].
    apply Z.mod_divide in Hb as [qb ->]; [|lia].
    destruct (Z.lt_trichotomy qa qb) as [?|[->|?]]; [nia|reflexivity|nia]. }
  assert (Hdmod : (2 ^ k * (v / 2 ^ k)) mod 2 ^ k = 0)
    by (rewrite Z.mul_comm; apply Z.mod_mul; lia).
  split; (split; [intros Heq; congruence|intros Hv0]).
  - rewrite Hr. f_equal.
    destruct Hcase as [(Hfit & Hb & _)|(Hover & ->)].
    + symmetry. apply Hmult; [assumption|assumption|lia].
    + exfalso.
      assert (Hm : usize_modulus usize_bits mod 2 ^ k = 0).
      { unfold usize_modulus.
        replace usize_bits with ((usize_bits - k) + k) by lia.
        rewrite Z.pow_add_r by lia. apply Z.mod_mul. lia. }
      pose proof (Hmult v (usize_modulus usize_bits) Hv0 Hm). lia.
  - rewrite Hd. f_equal.
    pose proof (Z.div_mod v (2 ^ k) ltac:(lia)). lia.
Qed.

(** For a power-of-two alignment, [isAligned] tests divisibility, and
    what [alignPtr] returns passes the test. *)
Theorem isAligned_divides (p s : Z) :
  is_usize usize_bits p -> is_usize usize_bits s -> isPowerOfTwo s = true ->
  (isAligned usize_bits p s = true <-> p mod s = 0) /\
  exists q, alignPtr usize_bits p s = Some q /\ isAligned usize_bits q s = true.
Proof.
  intros Hp Hs Hpow.
  destruct (usize_pow2_inv s Hs Hpow) as (k & -> & Hk & Hpos).
  assert (Hmask : forall x, 0 <= x ->
            isAligned usize_bits x (2 ^ k) = true <-> x mod 2 ^ k = 0).
  { intros x Hx. unfold isAligned, usize_and, usize_sub.
    assert (2 ^ k < usize_modulus usize_bits)
      by (unfold usize_modulus; apply Z.pow_lt_mono_r; lia).
    rewrite (usize_wrap_small usize_bits) by (unfold is_usize; lia).
    replace (2 ^ k - 1) with (Z.ones k) by (rewrite Z.ones_equiv; lia).
    rewrite Z.land_ones by lia. apply Z.eqb_eq. }
  split; [apply Hmask; apply Hp|].
  unfold alignPtr.
  destruct (alignUp_cases usize_bits p (2 ^ k) Hp Hs Hpow) as (r & Hr & Hmod & Hcase).
  exists r. split; [assumption|]. apply Hmask; [|assumption].
  destruct Hcase as [(_ & ? & _)|(_ & ->)]; unfold is_usize in Hp; lia.
Qed.
End AlignFacts.

Lemma alignDown_aligned_and_bounded_witness :
  exists r, alignDown 64 13 8 = Some r /\ r mod 8 = 0 /\ 0 <= r <= 13 /\ 13 - r < 8.
Proof.
  apply (alignDown_aligned_and_bounded 64 13 8); [by_compute|by_compute|reflexivity].
Defined.

Lemma align_fixed_points_witness :
  (alignUp 64 24 8 = Some 24 <-> 24 mod 8 = 0) /\
  (alignDown 64 24 8 = Some 24 <-> 24 mod 8 = 0).
Proof.
  apply (align_fixed_points 64 24 8); [by_compute|by_compute|reflexivity].
Defined.

Lemma isAligned_divides_witness :
  (isAligned 64 4104 8 = true <-> 4104 mod 8 = 0) /\
  exists q, alignPtr 64 4104 8 = Some q /\ isAligned 64 q 8 = true.
Proof.
  apply (isAligned_divides 64 4104 8); [by_compute|by_compute|reflexivity].
Defined.

(** ** ArenaAllocator: bounds, alignment, disjointness, reset *)

Section ArenaMoreFacts.
Variable usize_bits : Z.

(** Two multiples of [s] less than [s] apart are equal. *)
Lemma multiples_close (s a b : Z) :
  0 < s -> a mod s = 0 -> b mod s = 0 -> 0 <= b - a < s -> a = b.
Proof.
  intros Hs Ha Hb Hab.
  apply Z.mod_divide in Ha as [qa ->]; [|lia].
  apply Z.mod_divide in Hb as [qb ->]; [|lia].
  destruct (Z.lt_trichotomy qa qb) as [?|[->|?]]; [nia|reflexivity|nia].
Qed.

(** What one [allocate] call does in a well-formed arena, for a request
    below half the address space. *)
Lemma arena_allocate_step (a a' : ArenaAllocator.t) (size alignment ptr : Z) :
  arena_wf usize_bits a ->
  0 <= size < 2 ^ (usize_bits - 1) ->
  is_usize usize_bits alignment ->
  ArenaAllocator.allocate usize_bits a size alignment = Some (ptr, a') ->
  (ptr = 0 /\ a' = a /\
   (size = 0 \/
    exists ao, alignUp usize_bits (ArenaAllocator.m_offset a) alignment = Some ao /\
      ArenaAllocator.m_capacity a < ao + size)) \/
  (0 < size /\ isPowerOfTwo alignment = true /\
   exists ao,
     alignUp usize_bits (ArenaAllocator.m_offset a) alignment = Some ao /\
     ao mod alignment = 0 /\
     ArenaAllocator.m_offset a <= ao < ArenaAllocator.m_offset a + alignment /\
     ao + size <= ArenaAllocator.m_capacity a /\
     ptr = ArenaAllocator.m_buffer a + ao /\
     a' = ArenaAllocator.set_offset a (ao + size)).
Proof.
  intros (Hbuf & Hoff & Hcap & Hfit) Hsize Hal.
  unfold ArenaAllocator.allocate.
  destruct (Z.eqb_spec size 0) as [->|Hnz].
  { intros [= <- <-]. left. repeat split. by left. }
  destruct (isPowerOfTwo alignment) eqn:Hp;
    [|unfold alignUp; rewrite Hp; discriminate].
  destruct (usize_pow2_inv usize_bits alignment Hal Hp) as (k & Hk & Hkw & Hpos).
  assert (Hhalf : 2 * 2 ^ (usize_bits - 1) = usize_modulus usize_bits).
  { unfold usize_modulus. replace usize_bits with (1 + (usize_bits - 1)) at 2 by lia.
    rewrite Z.pow_add_r by lia. reflexivity. }
  assert (Hal_half : alignment <= 2 ^ (usize_bits - 1)).
  { subst alignment. apply Z.pow_le_mono_r; lia. }
  assert (Hoffu : is_usize usize_bits (ArenaAllocator.m_offset a))
    by (unfold is_usize; lia).
  destruct (alignUp_cases usize_bits _ _ Hoffu Hal Hp) as (r & Hr & Hmod & Hcase).
  rewrite Hr. cbn [mbind option_bind].
  destruct Hcase as [(_ & Hb & _)|(Hover & _)]; [|lia].
  assert (Hr_half : r <= 2 ^ (usize_bits - 1)).
  { destruct (Z.le_gt_cases r (2 ^ (usize_bits - 1))) as [|Hgt]; [assumption|].
    assert (Hm : 2 ^ (usize_bits - 1) mod alignment = 0).
    { subst alignment. replace (usize_bits - 1) with ((usize_bits - 1 - k) + k) by lia.
      rewrite Z.pow_add_r by lia. apply Z.mod_mul. lia. }
    pose proof (multiples_close alignment (2 ^ (usize_bits - 1)) r
                  ltac:(lia) Hm Hmod ltac:(lia)). lia. }
  assert (Hsum : usize_add usize_bits r size = r + size).
  { unfold usize_add, usize_wrap. apply Z.mod_small. lia. }
  rewrite Hsum.
  destruct (Z.ltb_spec (ArenaAllocator.m_capacity a) (r + size)).
  - intros [= <- <-]. left. repeat split. right. by exists r.
  - intros [= <- <-]. right. split; [lia|]. split; [reflexivity|].
    exists r. repeat split; try assumption; try lia.
    unfold usize_add, usize_wrap. apply Z.mod_small. lia.
Qed.

(** A successful [allocate] grants a range inside the region, past
    everything granted before, at an aligned offset less than one
    alignment further on; the pointer itself is as aligned as the
    region's base.  A failed one leaves the arena as it was. *)
Theorem arena_allocate_in_region (a a' : ArenaAllocator.t)
    (size alignment ptr : Z) :
  arena_wf usize_bits a ->
  0 <= size < 2 ^ (usize_bits - 1) ->
  is_usize usize_bits alignment ->
  ArenaAllocator.allocate usize_bits a size alignment = Some (ptr, a') ->
  (ptr = 0 -> a' = a) /\
  (ptr <> 0 ->
   ArenaAllocator.m_buffer a + ArenaAllocator.used a <= ptr /\
   ptr - (ArenaAllocator.m_buffer a + ArenaAllocator.used a) < alignment /\
   ptr + size = ArenaAllocator.m_buffer a + ArenaAllocator.used a' /\
   ArenaAllocator.used a' <= ArenaAllocator.capacity a' /\
   (ptr - ArenaAllocator.m_buffer a) mod alignment = 0 /\
   ptr mod alignment = ArenaAllocator.m_buffer a mod alignment) /\
  arena_wf usize_bits a'.
Proof.
  intros Hwf Hsize Hal Halloc.
  destruct (arena_allocate_step a a' size alignment ptr Hwf Hsize Hal Halloc)
    as [(-> & -> & _)|(Hpos & Hp & ao & Hao & Hmod & Hb & Hcap & -> & ->)].
  { split; [done|]. split; [done|assumption]. }
  destruct Hwf as (Hbuf & Hoff & Hhalf & Hfit).
  unfold ArenaAllocator.used, ArenaAllocator.capacity. cbn.
  split; [lia|]. split.
  - intros _. repeat split; try lia.
    + replace (ArenaAllocator.m_buffer a + ao - ArenaAllocator.m_buffer a)
        with ao by lia. assumption.
    + destruct (isPowerOfTwo_inv alignment Hp) as (k & Hk & ->).
      assert (0 < 2 ^ k) by (apply Z.pow_pos_nonneg; lia).
      rewrite Z.add_mod, Hmod, Z.add_0_r by lia. apply Z.mod_mod. lia.
  - unfold arena_wf. cbn. lia.
Qed.

(** In every run the offset stays within the capacity, every granted
    range lies inside the used part of the region, and no two granted
    ranges overlap. *)
Theorem arena_run_disjoint (a : ArenaAllocator.t) (granted : list (Z * Z)) :
  arena_run usize_bits a granted ->
  0 <= ArenaAllocator.used a <= ArenaAllocator.capacity a /\
  Forall (fun g => ArenaAllocator.m_buffer a <= g.1 /\
                   g.1 + g.2 <= ArenaAllocator.m_buffer a + ArenaAllocator.used a)
         granted /\
  disjoint_ranges granted.
Proof.
  intros Hrun.
  assert (Hgoal : arena_wf usize_bits a /\
    Forall (fun g => ArenaAllocator.m_buffer a <= g.1 /\
                     g.1 + g.2 <= ArenaAllocator.m_buffer a + ArenaAllocator.m_offset a)
           granted /\
    disjoint_ranges granted).
  { induction Hrun as [a Hwf H0
                      |a granted size alignment ptr a' _ (Hwf & Hin & Hdis) Hsize Hal Halloc
                      |a granted ptr size _ IH
                      |a granted _ (Hwf & _ & _)].
    - split; [assumption|]. split; [constructor|exact I].
    - destruct (arena_allocate_step a a' size alignment ptr Hwf Hsize Hal Halloc)
        as [(-> & -> & _)|(Hpos & Hp & ao & Hao & Hmod & Hb & Hcap & -> & ->)].
      { rewrite decide_True by reflexivity. split; [assumption|split; assumption]. }
      pose proof Hwf as (Hbuf & Hoff & Hhalf & Hfit).
      rewrite decide_False by lia.
      split; [unfold arena_wf; cbn; lia|]. cbn. split; [|split].
      + constructor; [cbn; lia|].
        eapply Forall_impl; [exact Hin|]. cbn. intros g Hg. lia.
      + eapply Forall_impl; [exact Hin|]. cbn. intros g Hg. lia.
      + assumption.
    - exact IH.
    - split; [|split; [constructor|exact I]].
      unfold arena_wf in *. cbn. lia. }
  destruct Hgoal as ((_ & Hoff & _) & Hin & Hdis).
  unfold ArenaAllocator.used, ArenaAllocator.capacity.
  split; [exact Hoff|]. split; [exact Hin|exact Hdis].
Qed.

(** [reset] empties the arena: the whole capacity can then be granted
    again, at the region's base. *)
Theorem arena_reset_reuses_capacity (a : ArenaAllocator.t) :
  0 < ArenaAllocator.m_capacity a ->
  ArenaAllocator.m_buffer a + ArenaAllocator.m_capacity a
    < usize_modulus usize_bits ->
  0 < ArenaAllocator.m_buffer a ->
  ArenaAllocator.used (ArenaAllocator.reset a) = 0 /\
  ArenaAllocator.allocate usize_bits (ArenaAllocator.reset a)
    (ArenaAllocator.m_capacity a) 1
  = Some (ArenaAllocator.m_buffer a,
          ArenaAllocator.set_offset a (ArenaAllocator.m_capacity a)).
Proof.
  destruct a as [buffer capacity offset owns].
  cbn [ArenaAllocator.m_capacity ArenaAllocator.m_buffer].
  intros Hcap Hfit Hbuf. split; [reflexivity|].
  assert (Hw : 0 < usize_bits).
  { destruct (Z.lt_ge_cases 0 usize_bits) as [|Hle]; [assumption|].
    unfold usize_modulus in Hfit.
    destruct (Z.eq_dec usize_bits 0) as [->|]; [cbn in Hfit; lia|].
    rewrite Z.pow_neg_r in Hfit by lia. lia. }
  assert (Hup : alignUp usize_bits 0 1 = Some 0).
  { change 1 with (2 ^ 0) at 1. rewrite alignUp_pow2 by lia.
    change (2 ^ 0) with 1. rewrite Z.mul_1_l, Z.div_1_r.
    replace (0 + 1 - 1) with 0 by lia.
    rewrite usize_wrap_small; [reflexivity|unfold is_usize; lia]. }
  unfold ArenaAllocator.allocate, ArenaAllocator.reset, ArenaAllocator.set_offset.
  cbn [ArenaAllocator.m_capacity ArenaAllocator.m_buffer ArenaAllocator.m_offset
       ArenaAllocator.m_ownsBuffer].
  destruct (Z.eqb_spec capacity 0); [lia|].
  rewrite Hup. cbn [mbind option_bind].
  unfold usize_add, usize_wrap. rewrite Z.add_0_l, Z.add_0_r.
  rewrite !Z.mod_small by lia.
  rewrite Z.ltb_irrefl. reflexivity.
Qed.
End ArenaMoreFacts.

(** ** memcpy on raw memory and ArenaAllocator::reallocate *)



Section ArenaReallocFacts.
Variable usize_bits : Z.

End ArenaReallocFacts.

(** A 64-byte arena at address 4096 with 16 bytes used. *)
Lemma arena_allocate_in_region_witness :
  ArenaAllocator.allocate 64 (ArenaAllocator.mk 4096 64 13 true) 8 8
  = Some (4112, ArenaAllocator.mk 4096 64 24 true) /\
  (4112 - 4096) mod 8 = 0 /\ 4112 mod 8 = 4096 mod 8.
Proof.
  split; [reflexivity|].
  destruct (arena_allocate_in_region 64 (ArenaAllocator.mk 4096 64 13 true)
              (ArenaAllocator.mk 4096 64 24 true) 8 8 4112)
    as (_ & Hok & _);
    [by_compute|by_compute|by_compute|reflexivity|].
  destruct (Hok ltac:(lia)) as (_ & _ & _ & _ & Hrel & Habs).
  split; [exact Hrel|exact Habs].
Defined.

Lemma arena_run_sample :
  arena_run 64 (ArenaAllocator.mk 4096 64 24 true) [(4112, 8); (4096, 13)].
Proof.
  apply (arena_run_allocate 64 (ArenaAllocator.mk 4096 64 13 true)
           [(4096, 13)] 8 8 4112 (ArenaAllocator.mk 4096 64 24 true));
    [|by_compute|by_compute|reflexivity].
  apply (arena_run_allocate 64 (ArenaAllocator.mk 4096 64 0 true)
           [] 13 1 4096 (ArenaAllocator.mk 4096 64 13 true));
    [|by_compute|by_compute|reflexivity].
  apply arena_run_create; [by_compute|reflexivity].
Defined.

Lemma arena_run_disjoint_witness :
  0 <= 24 <= 64 /\
  Forall (fun g => 4096 <= g.1 /\ g.1 + g.2 <= 4096 + 24)
    [(4112, 8); (4096, 13)] /\
  disjoint_ranges [(4112, 8); (4096, 13)].
Proof.
  exact (arena_run_disjoint 64 (ArenaAllocator.mk 4096 64 24 true)
           [(4112, 8); (4096, 13)] arena_run_sample).
Defined.

Lemma arena_reset_reuses_capacity_witness :
  ArenaAllocator.used (ArenaAllocator.reset (ArenaAllocator.mk 4096 64 24 true)) = 0 /\
  ArenaAllocator.allocate 64 (ArenaAllocator.reset (ArenaAllocator.mk 4096 64 24 true)) 64 1
  = Some (4096, ArenaAllocator.mk 4096 64 64 true).
Proof.
  apply (arena_reset_reuses_capacity 64 (ArenaAllocator.mk 4096 64 24 true));
    by_compute.
Defined.


(** ** HeapAllocator: allocate and deallocate *)

Section HeapMoreFacts.
Variable usize_bits : Z.
Variable windows : bool.
Variable platform_alloc : heap -> Z -> Z -> option (Z * list byte).

(** A block obtained with [allocate] and given back with [deallocate]
    leaves the heap as it was before; meanwhile the other blocks are
    untouched.  Null is never a block: deallocating it does nothing. *)
Theorem heap_allocate_deallocate (h h' : heap) (size alignment ptr : Z) :
  HeapAllocator.allocate usize_bits windows platform_alloc h size alignment
  = Some (ptr, h') ->
  ptr <> 0 -> h !! ptr = None ->
  (forall q, q <> ptr -> h' !! q = h !! q) /\
  is_Some (h' !! ptr) /\
  (forall sz, HeapAllocator.deallocate h' ptr sz = h) /\
  (forall sz, HeapAllocator.deallocate h' 0 sz = h').
Proof.
  intros Halloc Hnz Hfresh.
  destruct (heap_allocate_success_inv usize_bits windows platform_alloc
              _ _ _ _ _ Halloc Hnz) as (fresh & ->).
  split; [intros q Hq; by rewrite lookup_insert_ne|].
  split; [rewrite lookup_insert_eq; by eexists|].
  split; [|reflexivity].
  intros sz. unfold HeapAllocator.deallocate.
  destruct (Z.eqb_spec ptr 0); [contradiction|].
  rewrite delete_insert_eq. by apply delete_id.
Qed.

End HeapMoreFacts.

Lemma heap_allocate_deallocate_witness :
  (forall q, q <> 8192 ->
     (<[8192 := replicate 16 "000"%byte]> heap_one_block : heap) !! q
     = heap_one_block !! q) /\
  (forall sz,
     HeapAllocator.deallocate (<[8192 := replicate 16 "000"%byte]> heap_one_block)
       8192 sz = heap_one_block).
Proof.
  destruct (heap_allocate_deallocate 64 false alloc_at_8192 heap_one_block
              (<[8192 := replicate 16 "000"%byte]> heap_one_block) 8 16 8192)
    as (Hother & _ & Hback & _); [reflexivity|lia|reflexivity|].
  split; [exact Hother|exact Hback].
Defined.

(** ** PoolAllocator: reuse, validity of blocks, exhaustion *)

Section PoolMoreFacts.
Variable usize_bits : Z.
Variable sizeof_FreeBlock : Z.

(** A successful [allocate] pops the head of the free list. *)
Lemma pool_allocate_head (p p' : PoolAllocator.t) (A : gset Z) (l : list Z)
    (size alignment ptr : Z) :
  pool_inv usize_bits p A l ->
  PoolAllocator.allocate usize_bits p size alignment = Some (ptr, p') ->
  ptr <> 0 ->
  exists l', l = ptr :: l' /\ size <= PoolAllocator.m_blockSize p /\
    pool_inv usize_bits p' ({[ptr]} ∪ A) l' /\
    PoolAllocator.m_blockSize p' = PoolAllocator.m_blockSize p /\
    PoolAllocator.m_blockCount p' = PoolAllocator.m_blockCount p /\
    PoolAllocator.m_buffer p' = PoolAllocator.m_buffer p.
Proof.
  intros Hinv Halloc Hnz.
  destruct (pool_allocate_inv usize_bits p A l size alignment Hinv)
    as (q & p1 & l1 & Hq & Hnull & Hinv1).
  rewrite Halloc in Hq. injection Hq as <- <-.
  rewrite decide_False in Hinv1 by assumption.
  pose proof Hinv as [Hcu Hb Hbs Hfit Hc Hnd Hfree Htot Hdisj Hblk].
  unfold PoolAllocator.allocate in Halloc.
  destruct (Z.ltb_spec (PoolAllocator.m_blockSize p) size);
    [cbn [orb] in Halloc; congruence|].
  destruct l as [|b l'].
  { cbn in Hc. rewrite Hc in Halloc. cbn in Halloc. congruence. }
  destruct Hc as (Hhead & Hbnz & next & Hnext & Hrest).
  rewrite Hhead in Halloc.
  destruct (Z.eqb_spec b 0); [contradiction|]. cbn [orb] in Halloc.
  rewrite Hnext in Halloc. cbn [mbind option_bind] in Halloc.
  injection Halloc as <- <-.
  exists l'. split; [reflexivity|]. split; [lia|].
  cbn [PoolAllocator.m_blockSize PoolAllocator.m_blockCount PoolAllocator.m_buffer].
  split; [|done].
  (* the invariant found above is for some list; it is for this one *)
  pose proof (inv_free _ _ _ _ Hinv1) as Hf1.
  pose proof (inv_chain _ _ _ _ Hinv1) as Hc1.
  cbn [PoolAllocator.m_freeCount PoolAllocator.m_freeList PoolAllocator.memory]
    in Hf1, Hc1.
  apply NoDup_cons in Hnd as [Hbl Hnd'].
  assert (HbA : b ∉ A) by (apply Hdisj; left).
  unfold is_usize in *. cbn [length] in Hfree, Htot.
  constructor; cbn [PoolAllocator.m_blockCount PoolAllocator.m_buffer
    PoolAllocator.m_blockSize PoolAllocator.m_freeList PoolAllocator.memory
    PoolAllocator.m_freeCount]; try assumption.
  - unfold usize_sub, usize_wrap. rewrite Z.mod_small; lia.
  - rewrite size_union, size_singleton by set_solver. lia.
  - intros c Hel. pose proof (Hdisj c ltac:(by right)). set_solver.
  - intros c [Hel|[Hel|Hel]%elem_of_union]; apply Hblk.
    + left. by right.
    + apply elem_of_singleton in Hel as ->. left. by left.
    + by right.
Qed.

(** What [allocate] hands out is a block of the pool's region that is
    not allocated already. *)
Theorem pool_allocate_valid_block (p p' : PoolAllocator.t) (A : gset Z)
    (size alignment ptr : Z) :
  PoolAllocator.run usize_bits sizeof_FreeBlock p A ->
  PoolAllocator.allocate usize_bits p size alignment = Some (ptr, p') ->
  ptr <> 0 ->
  ptr ∉ A /\
  size <= PoolAllocator.blockSize p /\
  exists j, 0 <= j < PoolAllocator.blockCount p /\
    ptr = PoolAllocator.m_buffer p + j * PoolAllocator.blockSize p /\
    ptr + PoolAllocator.blockSize p
      <= PoolAllocator.m_buffer p
         + PoolAllocator.blockSize p * PoolAllocator.blockCount p.
Proof.
  intros Hrun Halloc Hnz.
  destruct (pool_run_inv usize_bits sizeof_FreeBlock p A Hrun) as [l Hinv].
  destruct (pool_allocate_head p p' A l size alignment ptr Hinv Halloc Hnz)
    as (l' & -> & Hsz & _).
  pose proof Hinv as [Hcu Hb Hbs Hfit Hc Hnd Hfree Htot Hdisj Hblk].
  unfold PoolAllocator.blockSize, PoolAllocator.blockCount.
  split; [apply Hdisj; by left|]. split; [assumption|].
  destruct (Hblk ptr ltac:(left; by left)) as (j & Hj & ->).
  exists j. split; [assumption|]. split; [reflexivity|]. nia.
Qed.

(** Freeing a block and allocating again returns that very block, and
    leaves the free list and the free count as they were before the
    two calls. *)
Theorem pool_deallocate_allocate_reuses (p : PoolAllocator.t) (A : gset Z)
    (ptr sz req alignment : Z) :
  PoolAllocator.run usize_bits sizeof_FreeBlock p A ->
  ptr ∈ A -> req <= PoolAllocator.blockSize p ->
  exists p1 p2,
    PoolAllocator.deallocate usize_bits p ptr sz = Some p1 /\
    PoolAllocator.freeCount p1 = PoolAllocator.freeCount p + 1 /\
    PoolAllocator.allocate usize_bits p1 req alignment = Some (ptr, p2) /\
    PoolAllocator.m_freeList p2 = PoolAllocator.m_freeList p /\
    PoolAllocator.freeCount p2 = PoolAllocator.freeCount p.
Proof.
  intros Hrun HA Hsize.
  destruct (pool_run_inv usize_bits sizeof_FreeBlock p A Hrun) as [l Hinv].
  destruct (pool_deallocate_inv usize_bits p A l ptr sz Hinv HA) as (p1 & Hde & Hinv1).
  pose proof Hinv as [Hcu Hb Hbs Hfit Hc Hnd Hfree Htot Hdisj Hblk].
  destruct (Hblk ptr ltac:(by right)) as (j & Hj & Hptr).
  assert (Hnz : ptr <> 0) by nia.
  assert (Hfc : 0 <= PoolAllocator.m_freeCount p
                /\ PoolAllocator.m_freeCount p + 1 < usize_modulus usize_bits).
  { assert (0 < size A)%nat.
    { destruct (size A) eqn:E; [|lia]. apply size_empty_inv in E. set_solver. }
    unfold is_usize in Hcu. lia. }
  pose proof Hde as Hp1. unfold PoolAllocator.deallocate in Hp1.
  destruct (Z.eqb_spec ptr 0); [contradiction|].
  destruct (_ && _) in Hp1; [|discriminate].
  injection Hp1 as Hp1. rewrite <- Hp1 in *. clear Hp1.
  unfold PoolAllocator.blockSize, PoolAllocator.freeCount in *.
  eexists _, _. split; [exact Hde|].
  cbn [PoolAllocator.m_freeCount].
  split; [unfold usize_add, usize_wrap; rewrite Z.mod_small; lia|].
  unfold PoolAllocator.allocate.
  cbn [PoolAllocator.m_blockSize PoolAllocator.m_freeList PoolAllocator.memory
       PoolAllocator.m_buffer PoolAllocator.m_blockCount PoolAllocator.m_freeCount].
  destruct (Z.ltb_spec (PoolAllocator.m_blockSize p) req); [lia|].
  destruct (Z.eqb_spec ptr 0); [contradiction|]. cbn [orb].
  rewrite lookup_insert_eq. cbn [mbind option_bind].
  split; [reflexivity|]. cbn [PoolAllocator.m_freeList PoolAllocator.m_freeCount].
  split; [reflexivity|].
  unfold usize_sub, usize_add, usize_wrap.
  rewrite (Z.mod_small (_ + 1)) by lia. rewrite Z.mod_small by lia. lia.
Qed.

(** Allocating as often as the free list is long empties it, returning
    its blocks head first. *)
Lemma pool_allocate_n_drains (l : list Z) :
  forall (p : PoolAllocator.t) (A : gset Z) (size alignment : Z),
    pool_inv usize_bits p A l -> size <= PoolAllocator.m_blockSize p ->
    exists p',
      pool_allocate_n usize_bits (length l) p size alignment = Some (l, p') /\
      pool_inv usize_bits p' (list_to_set l ∪ A) [] /\
      PoolAllocator.m_blockSize p' = PoolAllocator.m_blockSize p.
Proof.
  induction l as [|b l IH]; intros p A size alignment Hinv Hsize.
  - exists p. cbn. split; [reflexivity|]. split; [|reflexivity].
    replace (∅ ∪ A) with A by set_solver. exact Hinv.
  - cbn [length pool_allocate_n].
    destruct (pool_allocate_inv usize_bits p A (b :: l) size alignment Hinv)
      as (q & p1 & l1 & Hq & Hnull & _).
    pose proof (inv_free _ _ _ _ Hinv) as Hfree. cbn [length] in Hfree.
    assert (Hqnz : q <> 0) by (intros Hq0; apply Hnull in Hq0; lia).
    destruct (pool_allocate_head p p1 A (b :: l) size alignment q Hinv Hq Hqnz)
      as (l' & [= <- <-] & _ & Hinv1 & Hbs1 & _).
    rewrite Hq. cbn [mbind option_bind].
    destruct (Z.eqb_spec b 0); [contradiction|].
    destruct (IH p1 ({[b]} ∪ A) size alignment Hinv1 ltac:(lia))
      as (p' & Hn & Hinv' & Hbs').
    rewrite Hn. cbn [mbind option_bind].
    exists p'. split; [reflexivity|]. split; [|lia].
    replace (list_to_set (b :: l) ∪ A) with (list_to_set l ∪ ({[b]} ∪ A));
      [exact Hinv'|].
    cbn [list_to_set]. set_solver.
Qed.

(** A fresh pool serves exactly [blockCount] allocations: they return
    its blocks from the highest address down, all different, and the
    next [allocate] returns null. *)
Theorem pool_exhaustion (buffer blockSize blockCount size alignment : Z)
    (p : PoolAllocator.t) :
  0 < buffer -> is_usize usize_bits blockSize ->
  is_usize usize_bits blockCount -> 0 < sizeof_FreeBlock ->
  buffer + Z.max blockSize sizeof_FreeBlock * blockCount
    < usize_modulus usize_bits ->
  PoolAllocator.create usize_bits sizeof_FreeBlock buffer blockSize blockCount
  = Some p ->
  size <= Z.max blockSize sizeof_FreeBlock ->
  exists ptrs p',
    pool_allocate_n usize_bits (Z.to_nat blockCount) p size alignment
    = Some (ptrs, p') /\
    ptrs = reverse (block_list buffer (Z.max blockSize sizeof_FreeBlock)
                      (Z.to_nat blockCount) 0) /\
    Z.of_nat (length ptrs) = blockCount /\ NoDup ptrs /\
    PoolAllocator.freeCount p' = 0 /\
    PoolAllocator.allocate usize_bits p' size alignment = Some (0, p').
Proof.
  intros Hb Hbs Hcnt Hsz Hfit Hcreate Hsize.
  pose proof (pool_create_inv usize_bits sizeof_FreeBlock buffer blockSize
                blockCount p Hb Hbs Hcnt Hsz Hfit Hcreate) as Hinv.
  set (l := reverse (block_list buffer (Z.max blockSize sizeof_FreeBlock)
                       (Z.to_nat blockCount) 0)) in *.
  assert (Hbsp : PoolAllocator.m_blockSize p = Z.max blockSize sizeof_FreeBlock).
  { unfold PoolAllocator.create in Hcreate.
    destruct (buffer =? 0); [discriminate|].
    destruct (PoolAllocator.init_free_list _ _ _ _ _ _ _).
    by injection Hcreate as <-. }
  assert (Hlen : length l = Z.to_nat blockCount)
    by (unfold l; by rewrite length_reverse, length_block_list).
  destruct (pool_allocate_n_drains l p ∅ size alignment Hinv ltac:(lia))
    as (p' & Hn & Hinv' & Hbs').
  rewrite Hlen in Hn.
  exists l, p'. split; [exact Hn|]. split; [reflexivity|].
  split; [unfold is_usize in Hcnt; lia|].
  split; [exact (inv_nodup _ _ _ _ Hinv)|].
  pose proof (inv_free _ _ _ _ Hinv') as Hf. cbn [length] in Hf.
  pose proof (inv_chain _ _ _ _ Hinv') as Hc. cbn in Hc.
  unfold PoolAllocator.freeCount. split; [lia|].
  unfold PoolAllocator.allocate. rewrite Hc. cbn [Z.eqb].
  by rewrite orb_true_r.
Qed.
End PoolMoreFacts.

Lemma pool_allocate_valid_block_witness :
  4112 ∉ (∅ : gset Z) /\ 16 <= PoolAllocator.blockSize pool_two_blocks /\
  exists j, 0 <= j < PoolAllocator.blockCount pool_two_blocks /\
    4112 = PoolAllocator.m_buffer pool_two_blocks
           + j * PoolAllocator.blockSize pool_two_blocks /\
    4112 + PoolAllocator.blockSize pool_two_blocks
      <= PoolAllocator.m_buffer pool_two_blocks
         + PoolAllocator.blockSize pool_two_blocks
           * PoolAllocator.blockCount pool_two_blocks.
Proof.
  apply (pool_allocate_valid_block 64 8 pool_two_blocks pool_one_taken ∅ 16 8 4112
           pool_two_blocks_run); [reflexivity|lia].
Defined.

Lemma pool_deallocate_allocate_reuses_witness :
  exists p1 p2,
    PoolAllocator.deallocate 64 pool_one_taken 4112 16 = Some p1 /\
    PoolAllocator.freeCount p1 = PoolAllocator.freeCount pool_one_taken + 1 /\
    PoolAllocator.allocate 64 p1 16 8 = Some (4112, p2) /\
    PoolAllocator.m_freeList p2 = PoolAllocator.m_freeList pool_one_taken /\
    PoolAllocator.freeCount p2 = PoolAllocator.freeCount pool_one_taken.
Proof.
  apply (pool_deallocate_allocate_reuses 64 8 pool_one_taken ({[4112]} ∪ ∅)
           4112 16 16 8 pool_one_taken_run); [|by_compute].
  apply elem_of_union_l, elem_of_singleton. reflexivity.
Defined.

Lemma pool_exhaustion_witness :
  exists ptrs p',
    pool_allocate_n 64 (Z.to_nat 2) pool_two_blocks 16 8 = Some (ptrs, p') /\
    ptrs = reverse (block_list 4096 (Z.max 16 8) (Z.to_nat 2) 0) /\
    Z.of_nat (length ptrs) = 2 /\ NoDup ptrs /\
    PoolAllocator.freeCount p' = 0 /\
    PoolAllocator.allocate 64 p' 16 8 = Some (0, p').
Proof.
  apply (pool_exhaustion 64 8 4096 16 2 16 8 pool_two_blocks);
    [by_compute|by_compute|by_compute|by_compute|by_compute|reflexivity|by_compute].
Defined.

(** ** BufferReader: bounds, composition and byte order *)


Section ReaderMoreFacts.
Variable usize_bits : Z.
Variable native_big : bool.

Lemma reader_wf_bits (r : BufferReader.t) :
  reader_wf usize_bits r -> 0 <= usize_bits.
Proof.
  intros [Hpos Hsz]. destruct (Z.lt_ge_cases usize_bits 0) as [Hneg|]; [|assumption].
  unfold usize_modulus in Hsz. rewrite (Z.pow_neg_r 2 usize_bits) in Hsz by lia. lia.
Qed.

Lemma reader_wf_readU32 (r : BufferReader.t) :
  reader_wf usize_bits r ->
  reader_wf usize_bits (BufferReader.readU32 usize_bits native_big r).2.
Proof.
  intros Hwf. unfold BufferReader.readU32.
  pose proof (reader_wf_read usize_bits (H := u32_copyable native_big) r Hwf
                ltac:(cbn; lia)) as Hr.
  destruct (BufferReader.read usize_bits r) as [[v|] r']; exact Hr.
Qed.

Lemma reader_wf_readLengthPrefixedString (r : BufferReader.t) :
  reader_wf usize_bits r ->
  reader_wf usize_bits
    (BufferReader.readLengthPrefixedString usize_bits native_big r).2.
Proof.
  intros Hwf. unfold BufferReader.readLengthPrefixedString.
  pose proof (reader_wf_read usize_bits (H := u32_copyable native_big) r Hwf
                ltac:(cbn; lia)) as Hr.
  destruct (BufferReader.read usize_bits r) as [[v|] r']; [|exact Hr].
  apply reader_wf_readString; [exact Hr|].
  apply usize_wrap_range. by apply (reader_wf_bits r).
Qed.

Lemma reader_step_wf (r : BufferReader.t) (op : reader_op) :
  reader_wf usize_bits r -> reader_op_ok op ->
  reader_wf usize_bits (reader_step usize_bits native_big r op).
Proof.
  intros Hwf Hok. destruct op; cbn [reader_step reader_op_ok] in *.
  - by apply reader_wf_seek.
  - apply reader_wf_skip; [assumption|by apply (reader_wf_bits r)].
  - apply reader_wf_set_pos; [assumption|]. destruct Hwf. lia.
  - by apply reader_wf_readU32.
  - by apply reader_wf_readString.
  - by apply reader_wf_readNullTerminatedString.
  - by apply reader_wf_readNullTerminatedStringMax.
  - by apply reader_wf_readLengthPrefixedString.
Qed.

Lemma reader_step_data (r : BufferReader.t) (op : reader_op) :
  BufferReader.m_data (reader_step usize_bits native_big r op)
  = BufferReader.m_data r.
Proof.
  destruct op; cbn [reader_step]; try reflexivity.
  - unfold BufferReader.readU32, BufferReader.read.
    destruct (_ <? _); reflexivity.
  - unfold BufferReader.readString. destruct (_ <? _); reflexivity.
  - unfold BufferReader.readNullTerminatedString. cbn zeta.
    destruct (_ <=? _); reflexivity.
  - unfold BufferReader.readNullTerminatedStringMax. cbn zeta.
    destruct (_ && _); reflexivity.
  - unfold BufferReader.readLengthPrefixedString, BufferReader.read.
    destruct (_ <? _); [reflexivity|].
    unfold BufferReader.readString. destruct (_ <? _); reflexivity.
Qed.

(** Whatever calls are made on a reader, and whether they succeed or
    not, its position stays between zero and the size of the data, and
    the data is the same. *)
Theorem reader_stays_in_bounds (ops : list reader_op) (r : BufferReader.t) :
  reader_wf usize_bits r -> Forall reader_op_ok ops ->
  let r' := reader_steps usize_bits native_big r ops in
  0 <= BufferReader.position r' <= BufferReader.size r' /\
  BufferReader.m_data r' = BufferReader.m_data r /\
  BufferReader.remaining usize_bits r'
  = BufferReader.size r - BufferReader.position r'.
Proof.
  revert r. induction ops as [|op ops IH]; intros r Hwf Hok; cbn zeta.
  - cbn. split; [apply Hwf|]. split; [reflexivity|].
    by apply reader_remaining_exact.
  - apply Forall_cons in Hok as [Hop Hops].
    unfold reader_steps. cbn [foldl].
    pose proof (reader_step_wf r op Hwf Hop) as Hwf1.
    destruct (IH _ Hwf1 Hops) as (Hb & Hd & Hrem).
    unfold reader_steps in *. split; [exact Hb|].
    split; [by rewrite Hd, reader_step_data|].
    rewrite Hrem. unfold BufferReader.size. by rewrite reader_step_data.
Qed.

(** Reading [n + m] bytes as one string gives what reading [n] bytes and
    then [m] bytes gives, joined, and ends at the same position. *)
Theorem reader_readString_splits (r : BufferReader.t) (n m : Z) :
  reader_wf usize_bits r -> 0 <= n -> 0 <= m ->
  n + m <= BufferReader.remaining usize_bits r ->
  exists s1 s2 r1 r2,
    BufferReader.readString usize_bits r n = (Some s1, r1) /\
    BufferReader.readString usize_bits r1 m = (Some s2, r2) /\
    BufferReader.readString usize_bits r (n + m) = (Some (s1 ++ s2), r2) /\
    Z.of_nat (length s1) = n /\ Z.of_nat (length s2) = m.
Proof.
  intros Hwf Hn Hm Hfit.
  rewrite (reader_remaining_exact usize_bits r Hwf) in Hfit.
  pose proof Hwf as [Hpos Hsz].
  set (p := BufferReader.m_pos r) in *.
  assert (Hwf1 : reader_wf usize_bits (BufferReader.set_pos r (p + n))).
  { apply reader_wf_set_pos; [assumption|lia]. }
  assert (Hadd : forall a b, 0 <= a -> 0 <= b -> a + b <= BufferReader.size r ->
                   usize_add usize_bits a b = a + b).
  { intros a b Ha Hb Hab. unfold usize_add, usize_wrap. apply Z.mod_small. lia. }
  exists (BufferReader.bytes_at r p n), (BufferReader.bytes_at r (p + n) m),
    (BufferReader.set_pos r (p + n)), (BufferReader.set_pos r (p + n + m)).
  unfold BufferReader.readString.
  rewrite (reader_remaining_exact usize_bits r Hwf).
  rewrite (reader_remaining_exact usize_bits _ Hwf1).
  rewrite reader_size_set_pos. cbn [BufferReader.set_pos BufferReader.m_pos].
  fold p.
  destruct (Z.ltb_spec (BufferReader.size r - p) n); [lia|].
  destruct (Z.ltb_spec (BufferReader.size r - (p + n)) m); [lia|].
  destruct (Z.ltb_spec (BufferReader.size r - p) (n + m)); [lia|].
  rewrite !Hadd by lia.
  split; [reflexivity|]. split; [reflexivity|].
  split; [|split; apply reader_bytes_at_length; lia].
  f_equal; [|by rewrite Z.add_assoc]. f_equal.
  unfold BufferReader.bytes_at. cbn [BufferReader.set_pos BufferReader.m_data].
  rewrite !Z2Nat.inj_add by lia.
  rewrite <- (take_take_drop _ (Z.to_nat n) (Z.to_nat m)).
  by rewrite drop_drop.
Qed.

End ReaderMoreFacts.

(** ** BufferWriter: what a write leaves in the buffer *)

Section WriterMoreFacts.
Variable usize_bits : Z.
Variable native_big : bool.
Variable uninit : byte.

(** [ensureCapacity] leaves the bytes, the size and the position, and
    makes room for [minCapacity] bytes. *)
Lemma writer_ensureCapacity_spec (w : BufferWriter.t) (minCapacity : Z) :
  buffer_wf (BufferWriter.target w) ->
  let w1 := BufferWriter.ensureCapacity usize_bits uninit w minCapacity in
  Buffer.bytes (BufferWriter.target w1) = Buffer.bytes (BufferWriter.target w) /\
  Buffer.size (BufferWriter.target w1) = Buffer.size (BufferWriter.target w) /\
  minCapacity <= Buffer.capacity (BufferWriter.target w1) /\
  BufferWriter.m_pos w1 = BufferWriter.m_pos w /\
  BufferWriter.owned w1 = BufferWriter.owned w /\
  buffer_wf (BufferWriter.target w1).
Proof.
  intros Hwf. cbn zeta. unfold BufferWriter.ensureCapacity.
  destruct (Z.ltb_spec (Buffer.capacity (BufferWriter.target w)) minCapacity) as [Hlt|Hge].
  - cbn [BufferWriter.target BufferWriter.m_pos BufferWriter.owned].
    destruct (vector_reserve_spec uninit (Buffer.m_data (BufferWriter.target w))
                (Z.max minCapacity
                   (usize_mul usize_bits (Buffer.capacity (BufferWriter.target w)) 2))
                Hwf) as (He & Hs & Hc & Hw).
    unfold Buffer.bytes, Buffer.size, Buffer.capacity, Buffer.reserve, buffer_wf in *.
    cbn [Buffer.m_data]. repeat split; try assumption; try lia.
    + apply Hw.
    + apply Hw.
  - repeat split; try assumption; try lia; apply Hwf.
Qed.

(** The copy into the storage followed by [updateSize]. *)
Lemma writer_store_update (w1 : BufferWriter.t) (src : list byte) :
  buffer_wf (BufferWriter.target w1) ->
  0 <= BufferWriter.m_pos w1 ->
  BufferWriter.m_pos w1 + Z.of_nat (length src)
    <= Buffer.capacity (BufferWriter.target w1) ->
  usize_add usize_bits (BufferWriter.m_pos w1) (Z.of_nat (length src))
  = BufferWriter.m_pos w1 + Z.of_nat (length src) ->
  exists v w',
    StdVector.store (Buffer.m_data (BufferWriter.target w1)) (BufferWriter.m_pos w1) src
    = Some v /\
    w' = BufferWriter.updateSize uninit
           (BufferWriter.mk (Buffer.mk v) (BufferWriter.owned w1)
              (usize_add usize_bits (BufferWriter.m_pos w1) (Z.of_nat (length src)))) /\
    BufferWriter.m_pos w' = BufferWriter.m_pos w1 + Z.of_nat (length src) /\
    Buffer.size (BufferWriter.target w')
    = Z.max (Buffer.size (BufferWriter.target w1))
        (BufferWriter.m_pos w1 + Z.of_nat (length src)) /\
    BufferWriter.owned w' = BufferWriter.owned w1 /\
    buffer_wf (BufferWriter.target w') /\
    Buffer.bytes (BufferWriter.target w')
    = take (Z.to_nat (BufferWriter.m_pos w1)) (Buffer.bytes (BufferWriter.target w1))
      ++ take (Z.to_nat (Buffer.size (BufferWriter.target w1) - BufferWriter.m_pos w1)) src
      ++ (if BufferWriter.m_pos w1 + Z.of_nat (length src)
             <=? Buffer.size (BufferWriter.target w1)
          then drop (Z.to_nat (BufferWriter.m_pos w1) + length src)
                 (Buffer.bytes (BufferWriter.target w1))
          else replicate
                 (Z.to_nat (BufferWriter.m_pos w1 + Z.of_nat (length src)
                            - Buffer.size (BufferWriter.target w1)))
                 "000"%byte).
Proof.
  destruct w1 as [[[st sz]] own pos].
  unfold buffer_wf, Buffer.size, Buffer.capacity, Buffer.bytes, StdVector.capacity,
    StdVector.elements.
  cbn [BufferWriter.target BufferWriter.m_pos BufferWriter.owned Buffer.m_data
       StdVector.size StdVector.storage].
  intros Hwf Hpos Hcap Hsum. rewrite Hsum.
  unfold StdVector.store, StdVector.capacity.
  cbn [StdVector.size StdVector.storage].
  destruct (Z.leb_spec (pos + Z.of_nat (length src)) (Z.of_nat (length st))); [|lia].
  eexists _, _. split; [reflexivity|]. split; [reflexivity|].
  unfold BufferWriter.updateSize, Buffer.size.
  cbn [BufferWriter.target BufferWriter.m_pos BufferWriter.owned Buffer.m_data
       StdVector.size StdVector.storage].
  set (st2 := take (Z.to_nat pos) st ++ src ++ drop (Z.to_nat pos + length src) st).
  assert (Hlen2 : length st2 = length st).
  { unfold st2. rewrite !length_app, length_take, length_drop. lia. }
  destruct (Z.ltb_spec sz (pos + Z.of_nat (length src))) as [Hgrow|Hin].
  - cbn [BufferWriter.target BufferWriter.m_pos BufferWriter.owned Buffer.m_data].
    unfold Buffer.resize, StdVector.resize, StdVector.reserve, StdVector.capacity,
      StdVector.elements.
    cbn [Buffer.m_data StdVector.size StdVector.storage].
    destruct (Z.leb_spec (pos + Z.of_nat (length src)) sz); [lia|].
    destruct (Z.ltb_spec (Z.of_nat (length st2)) (pos + Z.of_nat (length src))); [lia|].
    cbn [StdVector.size StdVector.storage].
    split; [reflexivity|]. split; [lia|]. split; [reflexivity|].
    assert (Hts : length (take (Z.to_nat sz) st2) = Z.to_nat sz)
      by (rewrite length_take; lia).
    split.
    { rewrite !length_app, length_replicate, length_drop, Hts. lia. }
    rewrite app_assoc.
    rewrite take_app_length' by (rewrite length_app, length_replicate, Hts; lia).
    assert (Htake : take (Z.to_nat sz) st2
                    = take (Z.to_nat pos) (take (Z.to_nat sz) st)
                      ++ take (Z.to_nat (sz - pos)) src).
    { unfold st2. destruct (Z.le_gt_cases pos sz) as [Hle|Hgt].
      - rewrite take_app_ge by (rewrite length_take; lia).
        rewrite length_take.
        replace (Z.to_nat sz - Z.to_nat pos `min` length st)%nat
          with (Z.to_nat (sz - pos)) by lia.
        rewrite take_app_le by lia.
        rewrite take_take. f_equal. f_equal. lia.
      - rewrite take_app_le by (rewrite length_take; lia).
        rewrite take_take.
        replace (Z.to_nat (sz - pos)) with 0%nat by lia.
        rewrite take_0, app_nil_r.
        rewrite (take_ge (take _ _)) by (rewrite length_take; lia).
        f_equal. lia. }
    rewrite Htake, <- app_assoc. reflexivity.
  - cbn [BufferWriter.target BufferWriter.m_pos BufferWriter.owned Buffer.m_data
         StdVector.size StdVector.storage].
    split; [reflexivity|]. split; [lia|]. split; [reflexivity|].
    split; [lia|].
    destruct (Z.leb_spec (pos + Z.of_nat (length src)) sz); [|lia].
    rewrite (take_ge src) by lia.
    apply take_overwrite; lia.
Qed.

(** What [write] leaves in the buffer, for a writer at any position. *)
Lemma writer_write_raw_spec (w : BufferWriter.t) (data : list byte) :
  buffer_wf (BufferWriter.target w) ->
  0 <= BufferWriter.m_pos w ->
  BufferWriter.m_pos w + Z.of_nat (length data) < usize_modulus usize_bits ->
  exists w',
    BufferWriter.write_raw usize_bits uninit w data = Some w' /\
    BufferWriter.m_pos w' = BufferWriter.m_pos w + Z.of_nat (length data) /\
    Buffer.size (BufferWriter.target w')
    = Z.max (Buffer.size (BufferWriter.target w))
        (BufferWriter.m_pos w + Z.of_nat (length data)) /\
    BufferWriter.owned w' = BufferWriter.owned w /\
    buffer_wf (BufferWriter.target w') /\
    Buffer.bytes (BufferWriter.target w')
    = take (Z.to_nat (BufferWriter.m_pos w)) (Buffer.bytes (BufferWriter.target w))
      ++ take (Z.to_nat (Buffer.size (BufferWriter.target w) - BufferWriter.m_pos w)) data
      ++ (if BufferWriter.m_pos w + Z.of_nat (length data)
             <=? Buffer.size (BufferWriter.target w)
          then drop (Z.to_nat (BufferWriter.m_pos w) + length data)
                 (Buffer.bytes (BufferWriter.target w))
          else replicate
                 (Z.to_nat (BufferWriter.m_pos w + Z.of_nat (length data)
                            - Buffer.size (BufferWriter.target w)))
                 "000"%byte).
Proof.
  intros Hwf Hpos Hfit.
  assert (Hsum : usize_add usize_bits (BufferWriter.m_pos w) (Z.of_nat (length data))
                 = BufferWriter.m_pos w + Z.of_nat (length data)).
  { unfold usize_add, usize_wrap. apply Z.mod_small. lia. }
  destruct (writer_ensureCapacity_spec w
              (usize_add usize_bits (BufferWriter.m_pos w) (Z.of_nat (length data)))
              Hwf) as (Hb & Hs & Hc & Hp & Ho & Hwf1).
  unfold BufferWriter.write_raw. cbn zeta.
  set (w1 := BufferWriter.ensureCapacity usize_bits uninit w _) in *.
  rewrite Hsum in Hc.
  destruct (writer_store_update w1 data Hwf1)
    as (v & w' & Hst & Hw' & Hp' & Hs' & Ho' & Hwf' & Hb');
    [lia|lia|rewrite Hp; exact Hsum|].
  rewrite Hst. cbn [mbind option_bind].
  exists w'. split; [by rewrite Hw'|].
  rewrite Hp', Hs', Ho', Hb', Hb, Hs, Hp, Ho. repeat split; try reflexivity.
  - apply Hwf'.
  - apply Hwf'.
Qed.

Lemma reader_bytes_at_app (r : BufferReader.t) (pre a rest : list byte) (p n : Z) :
  BufferReader.m_data r = pre ++ a ++ rest ->
  p = Z.of_nat (length pre) -> n = Z.of_nat (length a) ->
  BufferReader.bytes_at r p n = a.
Proof.
  intros Hd -> ->. unfold BufferReader.bytes_at. rewrite Hd.
  rewrite !Nat2Z.id. rewrite drop_app_length. by rewrite take_app_length.
Qed.

(** A length prefix in host byte order followed by that many bytes is
    read back as those bytes. *)
Lemma reader_decode_lps (pre s rest : list byte) :
  32 <= usize_bits ->
  Z.of_nat (length s) < 2 ^ 32 ->
  Z.of_nat (length (pre ++ u32_to_bytes native_big (Z.of_nat (length s)) ++ s ++ rest))
    < usize_modulus usize_bits ->
  let data := pre ++ u32_to_bytes native_big (Z.of_nat (length s)) ++ s ++ rest in
  BufferReader.readLengthPrefixedString usize_bits native_big
    (BufferReader.mk data (Z.of_nat (length pre)))
  = (Some s, BufferReader.mk data (Z.of_nat (length pre) + 4 + Z.of_nat (length s))).
Proof.
  intros Hbits Hn HM. cbn zeta.
  set (n := Z.of_nat (length s)) in *.
  set (hdr := u32_to_bytes native_big n) in *.
  assert (Hhdr : length hdr = 4%nat) by apply length_u32_to_bytes.
  set (data := pre ++ hdr ++ s ++ rest) in *.
  assert (Hlen : Z.of_nat (length data)
                 = Z.of_nat (length pre) + 4 + n + Z.of_nat (length rest)).
  { unfold data. rewrite !length_app, Hhdr. lia. }
  set (r := BufferReader.mk data (Z.of_nat (length pre))).
  assert (Hwf : reader_wf usize_bits r).
  { unfold reader_wf, BufferReader.size. cbn [r BufferReader.m_pos BufferReader.m_data].
    lia. }
  unfold BufferReader.readLengthPrefixedString.
  rewrite (reader_read_sufficient usize_bits (H := u32_copyable native_big) r Hwf)
    by (try (cbn; lia);
        rewrite (reader_remaining_exact usize_bits r Hwf);
        unfold BufferReader.size; cbn [sizeof u32_copyable r BufferReader.m_pos BufferReader.m_data]; lia).
  cbn [sizeof from_bytes u32_copyable BufferReader.m_pos r].
  rewrite (reader_bytes_at_app r pre hdr (s ++ rest)) by (try reflexivity; lia).
  unfold hdr at 1. rewrite u32_from_to_bytes by lia.
  assert (Hw : usize_wrap usize_bits n = n).
  { apply usize_wrap_small. split; [lia|].
    unfold usize_modulus. 
    apply Z.lt_le_trans with (2 ^ 32); [lia|].
    apply Z.pow_le_mono_r; lia. }
  rewrite Hw.
  set (r1 := BufferReader.set_pos _ _).
  assert (Hwf1 : reader_wf usize_bits r1).
  { apply reader_wf_set_pos; [assumption|].
    unfold BufferReader.size. cbn [r BufferReader.m_data]. lia. }
  unfold BufferReader.readString.
  rewrite (reader_remaining_exact usize_bits r1 Hwf1).
  unfold BufferReader.size.
  cbn [r1 r BufferReader.set_pos BufferReader.m_pos BufferReader.m_data].
  destruct (Z.ltb_spec (Z.of_nat (length data) - (Z.of_nat (length pre) + 4)) n); [lia|].
  f_equal.
  - f_equal. apply (reader_bytes_at_app _ (pre ++ hdr) s rest);
      [cbn; unfold data; by rewrite <- !app_assoc
      |rewrite length_app; lia|reflexivity].
  - f_equal. unfold usize_add, usize_wrap. apply Z.mod_small. lia.
Qed.

(** Bytes without a zero followed by a zero are read back as those
    bytes. *)
Lemma reader_decode_nts (pre s rest : list byte) :
  Forall (fun b => byte_is_zero b = false) s ->
  Z.of_nat (length (pre ++ s ++ "000"%byte :: rest)) < usize_modulus usize_bits ->
  let data := pre ++ s ++ "000"%byte :: rest in
  BufferReader.readNullTerminatedString usize_bits
    (BufferReader.mk data (Z.of_nat (length pre)))
  = (Some s, BufferReader.mk data (Z.of_nat (length pre) + Z.of_nat (length s) + 1)).
Proof.
  intros Hs HM. cbn zeta.
  set (data := pre ++ s ++ "000"%byte :: rest) in *.
  assert (Hlen : Z.of_nat (length data)
                 = Z.of_nat (length pre) + Z.of_nat (length s) + 1
                   + Z.of_nat (length rest)).
  { unfold data. rewrite !length_app. cbn [length]. lia. }
  set (r := BufferReader.mk data (Z.of_nat (length pre))).
  set (z := Z.of_nat (length pre) + Z.of_nat (length s)).
  assert (Hzero : zero_at r z).
  { exists "000"%byte. split; [|reflexivity].
    unfold BufferReader.byte_at. cbn [r BufferReader.m_data]. unfold data, z.
    rewrite <- Nat2Z.inj_add, Nat2Z.id.
    rewrite app_assoc, <- length_app. by rewrite list_lookup_middle. }
  assert (Hno : no_zero_in r (Z.of_nat (length pre)) z).
  { intros i Hi (b & Hb & Hb0).
    unfold BufferReader.byte_at in Hb. cbn [r BufferReader.m_data] in Hb.
    unfold data in Hb.
    rewrite lookup_app_r in Hb by lia.
    rewrite lookup_app_l in Hb by (unfold z in Hi; lia).
    rewrite Forall_lookup in Hs. apply Hs in Hb. congruence. }
  unfold BufferReader.readNullTerminatedString. cbn zeta.
  cbn [r BufferReader.m_pos]. fold r.
  rewrite (scan_stops_at usize_bits r _ _ _ z);
    [|unfold z; lia|unfold BufferReader.size; cbn [r BufferReader.m_data]; unfold z; lia
     |unfold BufferReader.size; cbn [r BufferReader.m_data]; unfold z; lia
     |unfold BufferReader.size; cbn [r BufferReader.m_data]; lia
     |assumption|by right
     |unfold BufferReader.scan_fuel, BufferReader.size; cbn [r BufferReader.m_data];
      unfold z; lia].
  unfold BufferReader.size. cbn [r BufferReader.m_data].
  destruct (Z.leb_spec (Z.of_nat (length data)) z); [unfold z in *; lia|].
  unfold usize_sub, usize_add, usize_wrap.
  rewrite !Z.mod_small by (unfold z; lia).
  f_equal.
  - f_equal. unfold z.
    apply (reader_bytes_at_app r pre s ("000"%byte :: rest));
      [reflexivity|reflexivity|lia].
Qed.

Lemma writer_write_in_place_wf (w : BufferWriter.t) (data : list byte) :
  buffer_wf (BufferWriter.target w) ->
  0 <= BufferWriter.m_pos w ->
  BufferWriter.m_pos w + Z.of_nat (length data)
    <= Buffer.size (BufferWriter.target w) ->
  Buffer.size (BufferWriter.target w) < usize_modulus usize_bits ->
  exists w',
    BufferWriter.write_raw usize_bits uninit w data = Some w' /\
    Buffer.bytes (BufferWriter.target w')
    = take (Z.to_nat (BufferWriter.m_pos w)) (Buffer.bytes (BufferWriter.target w))
      ++ data
      ++ drop (Z.to_nat (BufferWriter.m_pos w) + length data)
           (Buffer.bytes (BufferWriter.target w)) /\
    BufferWriter.m_pos w' = BufferWriter.m_pos w + Z.of_nat (length data) /\
    Buffer.size (BufferWriter.target w') = Buffer.size (BufferWriter.target w) /\
    buffer_wf (BufferWriter.target w').
Proof.
  intros Hwf Hpos Hfit HM.
  destruct (writer_write_raw_spec w data Hwf Hpos ltac:(lia))
    as (w' & Hw & Hp & Hs & _ & Hwf' & Hb).
  exists w'. split; [exact Hw|]. rewrite Hb, Hp, Hs.
  destruct (Z.leb_spec (BufferWriter.m_pos w + Z.of_nat (length data))
              (Buffer.size (BufferWriter.target w))); [|lia].
  rewrite (take_ge data) by lia.
  split; [reflexivity|]. split; [reflexivity|]. split; [lia|exact Hwf'].
Qed.

Lemma take_prefix_app (B a : list byte) (p : nat) :
  (p + length a <= length B)%nat ->
  take (p + length a) (take p B ++ a ++ drop (p + length a) B) = take p B ++ a.
Proof.
  intros Hp. rewrite app_assoc. apply take_app_length'.
  rewrite length_app, length_take. lia.
Qed.

(** A length-prefixed string written inside the current size of the
    buffer is read back unchanged by [readLengthPrefixedString] from the
    position it was written at, and reader and writer end at the same
    position. *)
Theorem writer_length_prefixed_round_trip (w : BufferWriter.t) (s : list byte) :
  buffer_wf (BufferWriter.target w) ->
  0 <= BufferWriter.m_pos w ->
  BufferWriter.m_pos w + 4 + Z.of_nat (length s)
    <= Buffer.size (BufferWriter.target w) ->
  Buffer.size (BufferWriter.target w) < usize_modulus usize_bits ->
  32 <= usize_bits -> Z.of_nat (length s) < 2 ^ 32 ->
  exists w',
    BufferWriter.writeLengthPrefixedString usize_bits native_big uninit w s
    = Some w' /\
    BufferWriter.m_pos w' = BufferWriter.m_pos w + 4 + Z.of_nat (length s) /\
    Buffer.size (BufferWriter.target w') = Buffer.size (BufferWriter.target w) /\
    BufferReader.readLengthPrefixedString usize_bits native_big
      (BufferReader.mk (Buffer.bytes (BufferWriter.target w'))
         (BufferWriter.m_pos w))
    = (Some s,
       BufferReader.mk (Buffer.bytes (BufferWriter.target w'))
         (BufferWriter.m_pos w')).
Proof.
  intros Hwf Hpos Hfit HM Hbits Hn.
  pose proof (buffer_bytes_length _ Hwf) as HlenB.
  set (B := Buffer.bytes (BufferWriter.target w)) in *.
  set (p := BufferWriter.m_pos w) in *.
  unfold BufferWriter.writeLengthPrefixedString, BufferWriter.write.
  cbn [to_bytes u32_copyable].
  assert (Hu : to_u32 (Z.of_nat (length s)) = Z.of_nat (length s))
    by (unfold to_u32; apply Z.mod_small; lia).
  rewrite Hu.
  set (hdr := u32_to_bytes native_big (Z.of_nat (length s))).
  assert (Hhdr : length hdr = 4%nat) by apply length_u32_to_bytes.
  destruct (writer_write_in_place_wf w hdr Hwf Hpos) as (w1 & Hw1 & Hb1 & Hp1 & Hs1 & Hwf1);
    [rewrite Hhdr; lia|assumption|].
  rewrite Hw1. cbn [mbind option_bind].
  destruct (writer_write_in_place_wf w1 s Hwf1) as (w2 & Hw2 & Hb2 & Hp2 & Hs2 & Hwf2);
    [lia|rewrite Hhdr in Hp1; lia|lia|].
  exists w2. split; [exact Hw2|].
  fold p B in Hb1, Hp1.
  split; [lia|]. split; [lia|].
  set (pre := take (Z.to_nat p) B) in *.
  set (rest := drop (Z.to_nat p + length hdr + length s)
                 (Buffer.bytes (BufferWriter.target w1))).
  assert (Hpre : Z.of_nat (length pre) = p)
    by (unfold pre; rewrite length_take; lia).
  assert (Hbytes : Buffer.bytes (BufferWriter.target w2)
                   = pre ++ hdr ++ s ++ rest).
  { rewrite Hb2, Hp1.
    replace (Z.to_nat (p + Z.of_nat (length hdr)))
      with (Z.to_nat p + length hdr)%nat by lia.
    rewrite Hb1 at 1. unfold pre. rewrite take_prefix_app by lia.
    by rewrite <- app_assoc. }
  pose proof (buffer_bytes_length _ Hwf2) as Hlen2. rewrite Hbytes in Hlen2.
  pose proof (reader_decode_lps pre s rest Hbits Hn ltac:(fold hdr; lia)) as Hdec.
  cbn zeta in Hdec. fold hdr in Hdec. rewrite Hpre in Hdec.
  rewrite Hbytes, Hdec. do 2 f_equal. lia.
Qed.

(** A string without zero bytes written with
    [writeNullTerminatedString] inside the current size of the buffer is
    read back unchanged by [readNullTerminatedString], terminator
    consumed. *)
Theorem writer_null_terminated_round_trip (w : BufferWriter.t) (s : list byte) :
  buffer_wf (BufferWriter.target w) ->
  0 <= BufferWriter.m_pos w ->
  BufferWriter.m_pos w + Z.of_nat (length s) + 1
    <= Buffer.size (BufferWriter.target w) ->
  Buffer.size (BufferWriter.target w) < usize_modulus usize_bits ->
  Forall (fun b => byte_is_zero b = false) s ->
  exists w',
    BufferWriter.writeNullTerminatedString usize_bits uninit w s = Some w' /\
    BufferWriter.m_pos w' = BufferWriter.m_pos w + Z.of_nat (length s) + 1 /\
    Buffer.size (BufferWriter.target w') = Buffer.size (BufferWriter.target w) /\
    BufferReader.readNullTerminatedString usize_bits
      (BufferReader.mk (Buffer.bytes (BufferWriter.target w'))
         (BufferWriter.m_pos w))
    = (Some s,
       BufferReader.mk (Buffer.bytes (BufferWriter.target w'))
         (BufferWriter.m_pos w')).
Proof.
  intros Hwf Hpos Hfit HM Hs.
  pose proof (buffer_bytes_length _ Hwf) as HlenB.
  set (B := Buffer.bytes (BufferWriter.target w)) in *.
  set (p := BufferWriter.m_pos w) in *.
  unfold BufferWriter.writeNullTerminatedString.
  destruct (writer_write_in_place_wf w s Hwf Hpos) as (w1 & Hw1 & Hb1 & Hp1 & Hs1 & Hwf1);
    [lia|assumption|].
  rewrite Hw1. cbn [mbind option_bind].
  destruct (writer_write_in_place_wf w1 ["000"%byte] Hwf1)
    as (w2 & Hw2 & Hb2 & Hp2 & Hs2 & Hwf2);
    [lia|cbn [length]; lia|lia|].
  exists w2. split; [exact Hw2|].
  fold p B in Hb1, Hp1. cbn [length] in Hp2.
  split; [lia|]. split; [lia|].
  set (pre := take (Z.to_nat p) B) in *.
  set (rest := drop (Z.to_nat p + length s + 1)
                 (Buffer.bytes (BufferWriter.target w1))).
  assert (Hpre : Z.of_nat (length pre) = p)
    by (unfold pre; rewrite length_take; lia).
  assert (Hbytes : Buffer.bytes (BufferWriter.target w2)
                   = pre ++ s ++ "000"%byte :: rest).
  { rewrite Hb2, Hp1.
    replace (Z.to_nat (p + Z.of_nat (length s)))
      with (Z.to_nat p + length s)%nat by lia.
    rewrite Hb1 at 1. unfold pre. rewrite take_prefix_app by lia.
    by rewrite <- app_assoc. }
  pose proof (buffer_bytes_length _ Hwf2) as Hlen2. rewrite Hbytes in Hlen2.
  pose proof (reader_decode_nts pre s rest Hs ltac:(lia)) as Hdec.
  cbn zeta in Hdec. rewrite Hpre in Hdec.
  rewrite Hbytes, Hdec. do 2 f_equal. lia.
Qed.



End WriterMoreFacts.

(** ** Byte order of the u32 on the wire *)

Section ByteOrderFacts.
Variable usize_bits : Z.
Variable native_big : bool.
Variable uninit : byte.

Lemma u32_le_encode (v : Z) :
  0 <= v < 2 ^ 32 ->
  u32_to_bytes native_big (toLittleEndian32 native_big v) = le_bytes 4 v.
Proof.
  intros Hv. unfold u32_to_bytes, toLittleEndian32, byteSwap32.
  destruct native_big; [|reflexivity].
  pose proof (le_bytes_le_value (reverse (le_bytes 4 v))) as Hl.
  rewrite length_reverse, length_le_bytes in Hl.
  by rewrite Hl, reverse_involutive.
Qed.

Lemma u32_be_encode (v : Z) :
  0 <= v < 2 ^ 32 ->
  u32_to_bytes native_big (toBigEndian32 native_big v) = reverse (le_bytes 4 v).
Proof.
  intros Hv. unfold u32_to_bytes, toBigEndian32, byteSwap32.
  destruct native_big; [reflexivity|].
  pose proof (le_bytes_le_value (reverse (le_bytes 4 v))) as Hl.
  rewrite length_reverse, length_le_bytes in Hl. exact Hl.
Qed.

Lemma u32_le_decode (bs : list byte) :
  length bs = 4%nat ->
  fromLittleEndian32 native_big (u32_from_bytes native_big bs) = le_value bs.
Proof.
  intros Hlen. unfold fromLittleEndian32, toLittleEndian32, u32_from_bytes, byteSwap32.
  destruct native_big; [|reflexivity].
  pose proof (le_bytes_le_value (reverse bs)) as Hl.
  rewrite length_reverse, Hlen in Hl.
  by rewrite Hl, reverse_involutive.
Qed.

Lemma u32_be_decode (bs : list byte) :
  length bs = 4%nat ->
  fromBigEndian32 native_big (u32_from_bytes native_big bs) = be_value bs.
Proof.
  intros Hlen. unfold fromBigEndian32, toBigEndian32, u32_from_bytes, byteSwap32,
    be_value.
  destruct native_big; [reflexivity|].
  pose proof (le_bytes_le_value bs) as Hl. rewrite Hlen in Hl.
  by rewrite Hl.
Qed.

(** The bytes a [u32] takes on the wire do not depend on the host:
    [toLittleEndian] followed by the copy to memory gives the four
    bytes least significant first, [toBigEndian] gives them most
    significant first, and the copy from memory followed by
    [fromLittleEndian] or [fromBigEndian] reads them accordingly. *)
Theorem u32_wire_format (v : Z) (bs : list byte) :
  0 <= v < 2 ^ 32 -> length bs = 4%nat ->
  u32_to_bytes native_big (toLittleEndian32 native_big v) = le_bytes 4 v /\
  u32_to_bytes native_big (toBigEndian32 native_big v) = reverse (le_bytes 4 v) /\
  fromLittleEndian32 native_big (u32_from_bytes native_big bs) = le_value bs /\
  fromBigEndian32 native_big (u32_from_bytes native_big bs) = be_value bs /\
  byteSwap32 (byteSwap32 v) = v.
Proof.
  intros Hv Hlen.
  split; [by apply u32_le_encode|]. split; [by apply u32_be_encode|].
  split; [by apply u32_le_decode|]. split; [by apply u32_be_decode|].
  by apply byteSwap32_involutive.
Qed.

(** [readU32] reads the next four bytes as a little-endian number and
    [readU32BE] as a big-endian one, on any host.  The length prefix of
    [readLengthPrefixedString] is read with [read<u32>], in the byte
    order of the host. *)
Theorem reader_u32_byte_order (r : BufferReader.t) :
  reader_wf usize_bits r -> 32 <= usize_bits ->
  4 <= BufferReader.remaining usize_bits r ->
  let bs := BufferReader.bytes_at r (BufferReader.position r) 4 in
  let r' := BufferReader.set_pos r (BufferReader.position r + 4) in
  BufferReader.readU32 usize_bits native_big r = (Some (le_value bs), r') /\
  BufferReader.readU32BE usize_bits native_big r = (Some (be_value bs), r') /\
  BufferReader.readLengthPrefixedString usize_bits native_big r
  = BufferReader.readString usize_bits r'
      (if native_big then be_value bs else le_value bs).
Proof.
  intros Hwf Hbits Hrem. cbn zeta. unfold BufferReader.position.
  pose proof (reader_read_sufficient usize_bits (H := u32_copyable native_big) r Hwf
                ltac:(cbn; lia) Hrem) as Hread.
  cbn [sizeof from_bytes u32_copyable] in Hread.
  rewrite (reader_remaining_exact usize_bits r Hwf) in Hrem.
  pose proof Hwf as [Hpos Hsz].
  set (bs := BufferReader.bytes_at r (BufferReader.m_pos r) 4) in *.
  assert (Hlen : length bs = 4%nat).
  { pose proof (reader_bytes_at_length r (BufferReader.m_pos r) 4
                  ltac:(lia) ltac:(lia) ltac:(lia)) as Hl.
    fold bs in Hl. lia. }
  unfold BufferReader.readU32, BufferReader.readU32BE,
    BufferReader.readLengthPrefixedString.
  rewrite Hread.
  split; [by rewrite u32_le_decode|]. split; [by rewrite u32_be_decode|].
  f_equal.
  assert (Hnat : u32_from_bytes native_big bs
                 = if native_big then be_value bs else le_value bs).
  { unfold u32_from_bytes, be_value. by destruct native_big. }
  rewrite Hnat. apply usize_wrap_small.
  assert (Hr : forall l : list byte, length l = 4%nat -> 0 <= le_value l < 2 ^ 32).
  { intros l Hl. pose proof (le_value_range l) as Hrange.
    rewrite Hl in Hrange. exact Hrange. }
  assert (H32 : 2 ^ 32 <= usize_modulus usize_bits)
    by (unfold usize_modulus; apply Z.pow_le_mono_r; lia).
  unfold be_value, is_usize.
  destruct native_big;
    [pose proof (Hr (reverse bs) ltac:(by rewrite length_reverse))
    |pose proof (Hr bs Hlen)]; lia.
Qed.
End ByteOrderFacts.

(** ** Span of types/Span.hpp *)

Section SpanFacts.
Variable usize_bits : Z.

(** [Span::subspan] accepts any offset and count: the result lies
    inside the span it is taken from, has the count clamped to what
    remains after the offset, and is the empty null span when the
    offset is past the end. *)
Theorem Span_subspan_within (s : Span.t) (offset count : Z) :
  0 <= Span.data_ s -> 0 <= Span.size_ s ->
  Span.data_ s + Span.size_ s < usize_modulus usize_bits ->
  0 <= offset -> 0 <= count <= Span.npos usize_bits ->
  let r := Span.subspan usize_bits s offset count in
  (offset <= Span.size_ s ->
   Span.data_ r = Span.data_ s + offset /\
   Span.size_ r = Z.min count (Span.size_ s - offset) /\
   Span.data_ s <= Span.data_ r /\
   Span.data_ r + Span.size_ r <= Span.data_ s + Span.size_ s) /\
  (Span.size_ s < offset -> r = Span.mk 0 0).
Proof.
  intros Hd Hs HM Hoff Hcount. cbn zeta. split.
  - intros Hin.
    rewrite (Span_subspan_clamps usize_bits s offset count)
      by (unfold is_usize; lia).
    cbn [Span.data_ Span.size_].
    unfold usize_add, usize_wrap. rewrite Z.mod_small by lia. lia.
  - intros Hout. unfold Span.subspan.
    destruct (Z.ltb_spec (Span.size_ s) offset); [reflexivity|lia].
Qed.
End SpanFacts.

(** ** The further properties at concrete inputs *)


Lemma reader_stays_in_bounds_witness :
  let r' := reader_steps 64 false (BufferReader.create bytes_short_string)
              reader_calls in
  0 <= BufferReader.position r' <= BufferReader.size r' /\
  BufferReader.m_data r' = bytes_short_string /\
  BufferReader.remaining 64 r' = 6 - BufferReader.position r'.
Proof.
  apply (reader_stays_in_bounds 64 false reader_calls
           (BufferReader.create bytes_short_string)); [by_compute|].
  unfold reader_calls. repeat constructor; cbn; lia.
Defined.

Lemma reader_readString_splits_witness :
  exists s1 s2 r1 r2,
    BufferReader.readString 64 (BufferReader.create bytes_abcdefghij) 3
    = (Some s1, r1) /\
    BufferReader.readString 64 r1 4 = (Some s2, r2) /\
    BufferReader.readString 64 (BufferReader.create bytes_abcdefghij) (3 + 4)
    = (Some (s1 ++ s2), r2) /\
    Z.of_nat (length s1) = 3 /\ Z.of_nat (length s2) = 4.
Proof.
  apply (reader_readString_splits 64 (BufferReader.create bytes_abcdefghij) 3 4);
    by_compute.
Defined.


Lemma u32_wire_format_witness :
  u32_to_bytes true (toLittleEndian32 true 3735928559) = bytes_deadbeef /\
  u32_to_bytes true (toBigEndian32 true 3735928559) = reverse bytes_deadbeef /\
  fromLittleEndian32 true (u32_from_bytes true bytes_deadbeef) = 3735928559 /\
  fromBigEndian32 true (u32_from_bytes true bytes_deadbeef) = 4022250974 /\
  byteSwap32 (byteSwap32 3735928559) = 3735928559.
Proof.
  apply (u32_wire_format true 3735928559 bytes_deadbeef); [by_compute|reflexivity].
Defined.

Lemma reader_u32_byte_order_witness :
  BufferReader.readU32 64 true (BufferReader.create bytes_short_string)
  = (Some 5, BufferReader.mk bytes_short_string 4) /\
  BufferReader.readU32BE 64 true (BufferReader.create bytes_short_string)
  = (Some 83886080, BufferReader.mk bytes_short_string 4) /\
  BufferReader.readLengthPrefixedString 64 true
    (BufferReader.create bytes_short_string)
  = BufferReader.readString 64 (BufferReader.mk bytes_short_string 4) 83886080.
Proof.
  apply (reader_u32_byte_order 64 true (BufferReader.create bytes_short_string));
    by_compute.
Defined.

Lemma writer_length_prefixed_round_trip_witness :
  exists w',
    BufferWriter.writeLengthPrefixedString 64 false "000"%byte
      writer_on_abcdefghij bytes_ok = Some w' /\
    BufferWriter.m_pos w' = 2 + 4 + 2 /\
    Buffer.size (BufferWriter.target w') = 10 /\
    BufferReader.readLengthPrefixedString 64 false
      (BufferReader.mk (Buffer.bytes (BufferWriter.target w')) 2)
    = (Some bytes_ok,
       BufferReader.mk (Buffer.bytes (BufferWriter.target w'))
         (BufferWriter.m_pos w')).
Proof.
  apply (writer_length_prefixed_round_trip 64 false "000"%byte
           writer_on_abcdefghij bytes_ok); by_compute.
Defined.

Lemma writer_null_terminated_round_trip_witness :
  exists w',
    BufferWriter.writeNullTerminatedString 64 "000"%byte
      writer_on_abcdefghij bytes_hello = Some w' /\
    BufferWriter.m_pos w' = 2 + 5 + 1 /\
    Buffer.size (BufferWriter.target w') = 10 /\
    BufferReader.readNullTerminatedString 64
      (BufferReader.mk (Buffer.bytes (BufferWriter.target w')) 2)
    = (Some bytes_hello,
       BufferReader.mk (Buffer.bytes (BufferWriter.target w'))
         (BufferWriter.m_pos w')).
Proof.
  apply (writer_null_terminated_round_trip 64 "000"%byte
           writer_on_abcdefghij bytes_hello);
    [by_compute|by_compute|by_compute|by_compute|].
  unfold bytes_hello. repeat constructor.
Defined.



Lemma Span_subspan_within_witness :
  Span.subspan 64 (Span.mk 4096 10) 4 100 = Span.mk 4100 6 /\
  Span.subspan 64 (Span.mk 4096 10) 11 1 = Span.mk 0 0.
Proof.
  destruct (Span_subspan_within 64 (Span.mk 4096 10) 4 100) as [Hin _];
    [by_compute|by_compute|by_compute|by_compute|by_compute|].
  destruct (Span_subspan_within 64 (Span.mk 4096 10) 11 1) as [_ Hout];
    [by_compute|by_compute|by_compute|by_compute|by_compute|].
  split; [|apply Hout; by_compute].
  destruct (Hin ltac:(by_compute)) as (Hd & Hs & _).
  destruct (Span.subspan 64 (Span.mk 4096 10) 4 100) as [d n].
  cbn in Hd, Hs. by rewrite Hd, Hs.
Defined.

(** ** Moving the position: seek and skip *)

Section MoveFacts.
Variable usize_bits : Z.
Variable uninit : byte.

(** [seek] stops at the end of the data.  [skip] does the same as long
    as position plus count fits a [usize]; when the sum wraps around,
    the reader moves backwards instead. *)
Theorem reader_seek_skip_clamp (r : BufferReader.t) (n : Z) :
  reader_wf usize_bits r -> is_usize usize_bits n ->
  BufferReader.position (BufferReader.seek r n) = Z.min n (BufferReader.size r) /\
  BufferReader.eof (BufferReader.seek r n) = (BufferReader.size r <=? n) /\
  (BufferReader.position r + n < usize_modulus usize_bits ->
   BufferReader.position (BufferReader.skip usize_bits r n)
   = Z.min (BufferReader.position r + n) (BufferReader.size r) /\
   BufferReader.position r
     <= BufferReader.position (BufferReader.skip usize_bits r n)) /\
  (usize_modulus usize_bits <= BufferReader.position r + n ->
   BufferReader.position (BufferReader.skip usize_bits r n)
   = BufferReader.position r + n - usize_modulus usize_bits /\
   BufferReader.position (BufferReader.skip usize_bits r n)
     < BufferReader.position r).
Proof.
  intros [Hpos Hsz] Hn. unfold is_usize in Hn.
  unfold BufferReader.position, BufferReader.seek, BufferReader.skip,
    BufferReader.eof.
  rewrite !reader_size_set_pos. cbn [BufferReader.set_pos BufferReader.m_pos].
  split; [reflexivity|]. split.
  { destruct (Z.leb_spec (BufferReader.size r) n);
      destruct (Z.leb_spec (BufferReader.size r) (Z.min n (BufferReader.size r)));
      (reflexivity || lia). }
  unfold usize_add, usize_wrap. split.
  - intros Hfit. rewrite Z.mod_small by lia. split; [reflexivity|lia].
  - intros Hover.
    assert (Hw : (BufferReader.m_pos r + n) mod usize_modulus usize_bits
                 = BufferReader.m_pos r + n - usize_modulus usize_bits).
    { symmetry. apply (Z.mod_unique _ _ 1); lia. }
    rewrite Hw. lia.
Qed.

End MoveFacts.

Lemma reader_seek_skip_clamp_witness :
  BufferReader.position
    (BufferReader.seek (BufferReader.mk bytes_abcdefghij 4) 18446744073709551614)
  = 10 /\
  BufferReader.position
    (BufferReader.skip 64 (BufferReader.mk bytes_abcdefghij 4) 18446744073709551614)
  = 2.
Proof.
  destruct (reader_seek_skip_clamp 64 (BufferReader.mk bytes_abcdefghij 4)
              18446744073709551614) as (Hseek & _ & _ & Hwrap);
    [by_compute|by_compute|].
  split; [exact Hseek|]. apply Hwrap. by_compute.
Defined.


(** ** PoolAllocator: a block freed twice *)

Section PoolDoubleFree.
Variable usize_bits : Z.
Variable sizeof_FreeBlock : Z.

(** [deallocate] does not look whether the block is already free.  A
    block given back twice links to itself: the next two [allocate]
    calls both return it, and it is still the head of the free list
    afterwards. *)
Theorem pool_double_free_duplicates_block (p : PoolAllocator.t) (A : gset Z)
    (ptr sz req alignment : Z) :
  PoolAllocator.run usize_bits sizeof_FreeBlock p A ->
  ptr ∈ A -> req <= PoolAllocator.blockSize p ->
  exists p1 p2 p3 p4,
    PoolAllocator.deallocate usize_bits p ptr sz = Some p1 /\
    PoolAllocator.deallocate usize_bits p1 ptr sz = Some p2 /\
    PoolAllocator.allocate usize_bits p2 req alignment = Some (ptr, p3) /\
    PoolAllocator.allocate usize_bits p3 req alignment = Some (ptr, p4) /\
    PoolAllocator.m_freeList p4 = ptr.
Proof.
  intros Hrun HA Hsize.
  destruct (pool_run_inv usize_bits sizeof_FreeBlock p A Hrun) as [l Hinv].
  destruct (pool_deallocate_inv usize_bits p A l ptr sz Hinv HA) as (p1 & Hde & _).
  pose proof Hinv as [Hcu Hb Hbs Hfit Hc Hnd Hfree Htot Hdisj Hblk].
  destruct (Hblk ptr ltac:(by right)) as (j & Hj & Hptr).
  assert (Hnz : ptr <> 0) by nia.
  unfold PoolAllocator.blockSize in Hsize.
  unfold PoolAllocator.deallocate in *.
  destruct (Z.eqb_spec ptr 0); [contradiction|].
  cbn [PoolAllocator.m_buffer PoolAllocator.m_blockSize PoolAllocator.m_blockCount].
  destruct (_ && _) eqn:Hrange in Hde; [|discriminate].
  injection Hde as <-.
  rewrite Hrange.
  do 4 eexists. split; [reflexivity|].
  cbn [PoolAllocator.m_buffer PoolAllocator.m_blockSize PoolAllocator.m_blockCount].
  rewrite Hrange. split; [reflexivity|].
  unfold PoolAllocator.allocate.
  cbn [PoolAllocator.m_blockSize PoolAllocator.m_freeList PoolAllocator.memory
       PoolAllocator.m_buffer PoolAllocator.m_blockCount PoolAllocator.m_freeCount].
  destruct (Z.ltb_spec (PoolAllocator.m_blockSize p) req); [lia|].
  destruct (Z.eqb_spec ptr 0); [contradiction|]. cbn [orb].
  rewrite lookup_insert_eq. cbn [mbind option_bind].
  split; [reflexivity|].
  cbn [PoolAllocator.m_blockSize PoolAllocator.m_freeList PoolAllocator.memory
       PoolAllocator.m_buffer PoolAllocator.m_blockCount PoolAllocator.m_freeCount].
  destruct (Z.ltb_spec (PoolAllocator.m_blockSize p) req); [lia|].
  destruct (Z.eqb_spec ptr 0); [contradiction|]. cbn [orb].
  rewrite lookup_insert_eq. cbn [mbind option_bind].
  split; reflexivity.
Qed.
End PoolDoubleFree.

Lemma pool_double_free_duplicates_block_witness :
  exists p1 p2 p3 p4,
    PoolAllocator.deallocate 64 pool_one_taken 4112 16 = Some p1 /\
    PoolAllocator.deallocate 64 p1 4112 16 = Some p2 /\
    PoolAllocator.allocate 64 p2 16 8 = Some (4112, p3) /\
    PoolAllocator.allocate 64 p3 16 8 = Some (4112, p4) /\
    PoolAllocator.m_freeList p4 = 4112.
Proof.
  apply (pool_double_free_duplicates_block 64 8 pool_one_taken ({[4112]} ∪ ∅)
           4112 16 16 8 pool_one_taken_run); [|by_compute].
  apply elem_of_union_l, elem_of_singleton. reflexivity.
Defined.
